(** * Session registry and message/chat cache of the WhatsApp gateway

    A shallow embedding of [server.js]: the bounded message ledger filled by
    the [messages.upsert] and [messaging-history.set] listeners, the reader
    [getMessagesForChat], the chat reconciliation of [GET /api/:session/chats],
    the retrieval chain of [GET /api/:session/messages/:jid] and the
    [connection.update] listener; further the [authenticate] middleware, the
    [chats.update] listener, the [getMessage] callback, the contact table of
    the fallback store, the participant records of the group route and the
    start, status, send and close routes.

    Conventions of the embedding.
    - A JavaScript number is an integer or NaN ([JsNum]).  Timestamps are
      seconds and counters are counts, so fractions and infinities do not
      occur; integers are taken exactly (a double is exact below 2^53).
    - A JavaScript string is a [string] of bytes (its UTF-8 encoding).
    - [undefined] and [null] are [None]; a field that holds a value of
      several JavaScript types has an inductive type of its own ([JsTs]).
    - A [Map] that the program iterates is an insertion-ordered association
      list ([JsMap]); the registries keyed by session name, which are only
      looked up, are [gmap]s.
    - A thrown exception is the [Throw] case of [Result]. *)

From Stdlib Require Import ZArith List String Ascii Bool Lia Permutation Sorted.
From stdpp Require Import base gmap strings list.

Open Scope string_scope.
Open Scope list_scope.
Open Scope Z_scope.

Set Default Proof Using "Type".

(* ===================================================================== *)
(** ** JavaScript values and primitives *)
(* ===================================================================== *)

Inductive JsError : Type :=
| TypeError | ReferenceError | RangeError | URIError
| Rejected (reason : string).

Inductive Result (A : Type) : Type :=
| Ok (a : A)
| Throw (e : JsError).
Arguments Ok {A} a.
Arguments Throw {A} e.

#[global] Instance Result_ret : MRet Result := fun A a => Ok a.

#[global] Instance Result_bind : MBind Result := fun A B k r =>
  match r with
  | Ok a => k a
  | Throw e => Throw e
  end.

(** Numbers: an integer or NaN. *)
Inductive JsNum : Type :=
| NaN
| Num (z : Z).

Definition numTruthy (n : JsNum) : bool :=
  match n with
  | NaN => false
  | Num z => negb (z =? 0)
  end.

(** [a - b] *)
Definition numSub (a b : JsNum) : JsNum :=
  match a, b with
  | Num x, Num y => Num (x - y)
  | _, _ => NaN
  end.

(** [a * k] *)
Definition numMul (a : JsNum) (k : Z) : JsNum :=
  match a with
  | Num x => Num (x * k)
  | NaN => NaN
  end.

(** [v < 0], false on NaN. *)
Definition numNeg (v : JsNum) : bool :=
  match v with
  | Num z => z <? 0
  | NaN => false
  end.

(** [v > 0], false on NaN. *)
Definition numPos (v : JsNum) : bool :=
  match v with
  | Num z => 0 <? z
  | NaN => false
  end.

(** [isNaN(v)] *)
Definition isNaN (v : JsNum) : bool :=
  match v with
  | NaN => true
  | Num _ => false
  end.

(** Truthiness of an optional string: [undefined] and the empty string are
    falsy. *)
Definition strTruthy (s : option string) : bool :=
  match s with
  | Some s' => negb (String.eqb s' "")
  | None => false
  end.

(** [a || b] where [b] is a string. *)
Definition orStr (a : option string) (b : string) : string :=
  match a with
  | Some s => if String.eqb s "" then b else s
  | None => b
  end.

(** [a || b] where both may be undefined. *)
Definition orOpt (a b : option string) : option string :=
  if strTruthy a then a else b.

(** [a || b] on optional numbers: [undefined] and [0] are falsy. *)
Definition orNum (a : option Z) (b : option Z) : option Z :=
  match a with
  | Some z => if z =? 0 then b else a
  | None => b
  end.

(** [a || 0] *)
Definition orZero (a : option Z) : Z :=
  match a with
  | Some z => z
  | None => 0
  end.

(** *** Strings *)

(** [s.endsWith(suffix)] *)
Definition endsWith (s suffix : string) : bool :=
  (String.length suffix <=? String.length s)%nat &&
  String.eqb
    (substring (String.length s - String.length suffix) (String.length suffix) s)
    suffix.

(** [s.includes(sub)] *)
Fixpoint includes (s sub : string) : bool :=
  String.prefix sub s ||
  match s with
  | EmptyString => false
  | String _ rest => includes rest sub
  end.

(** [s.split(sep)[0]] for a one-character separator: the text before the
    first separator, the whole string when there is none. *)
Fixpoint splitHead (sep : ascii) (s : string) : string :=
  match s with
  | EmptyString => EmptyString
  | String c rest =>
      if Ascii.eqb c sep then EmptyString else String c (splitHead sep rest)
  end.

(** [s.replace(pat, '')] for a non-empty string pattern: the first
    occurrence is removed. *)
Fixpoint removeFirst (pat s : string) : string :=
  if String.prefix pat s
  then substring (String.length pat) (String.length s - String.length pat) s
  else match s with
       | EmptyString => EmptyString
       | String c rest => String c (removeFirst pat rest)
       end.

Definition isDigit (c : ascii) : bool :=
  let n := nat_of_ascii c in ((48 <=? n) && (n <=? 57))%nat.

Definition digitVal (c : ascii) : Z := Z.of_nat (nat_of_ascii c) - 48.

Fixpoint allDigits (s : string) : bool :=
  match s with
  | EmptyString => true
  | String c rest => isDigit c && allDigits rest
  end.

(** [s.match(/^(\d+)@lid$/)]: the captured digits, [None] when there is no
    match. *)
Definition matchLid (s : string) : option string :=
  if endsWith s "@lid"
  then
    let digits := substring 0 (String.length s - 4) s in
    if negb (String.eqb digits "") && allDigits digits
    then Some digits else None
  else None.

(** White space skipped by [parseInt] and trimmed by [Number]. *)
Definition isWhite (c : ascii) : bool :=
  let n := nat_of_ascii c in
  ((n =? 32) || ((9 <=? n) && (n <=? 13)))%nat.

Fixpoint dropWhite (s : string) : string :=
  match s with
  | EmptyString => EmptyString
  | String c rest => if isWhite c then dropWhite rest else s
  end.

Fixpoint allWhite (s : string) : bool :=
  match s with
  | EmptyString => true
  | String c rest => isWhite c && allWhite rest
  end.

(** The longest prefix of decimal digits as a number, with what follows it;
    [acc] is [None] until a digit has been read. *)
Fixpoint readDigits (s : string) (acc : option Z) : option Z * string :=
  match s with
  | EmptyString => (acc, EmptyString)
  | String c rest =>
      if isDigit c
      then readDigits rest (Some (10 * orZero acc + digitVal c))
      else (acc, s)
  end.

Definition readSign (s : string) : bool * string :=
  match s with
  | String "-" rest => (true, rest)
  | String "+" rest => (false, rest)
  | _ => (false, s)
  end.

Definition applySign (neg : bool) (z : Z) : Z := if neg then - z else z.

(** [parseInt(s, 10)]: leading white space, an optional sign, then the
    longest run of decimal digits; NaN when there is no digit.  The value is
    exact: a numeral beyond 2^53 is not rounded. *)
Definition parseInt (s : string) : JsNum :=
  let '(neg, body) := readSign (dropWhite s) in
  match readDigits body None with
  | (Some z, _) => Num (applySign neg z)
  | (None, _) => NaN
  end.

(** [Number(s)] on a string.  Surrounding white space is trimmed; the empty
    string is 0; an optionally signed run of decimal digits is its value.
    Any other text is NaN.  Numerals written with a fraction, an exponent, a
    radix prefix or as [Infinity] denote numbers outside [JsNum]; the
    statements below that convert a string require it to be a plain decimal
    numeral ([decimalString]) or name the string. *)
Definition StringToNumber (s : string) : JsNum :=
  let t := dropWhite s in
  if String.eqb t "" then Num 0
  else
    let '(neg, body) := readSign t in
    match readDigits body None with
    | (Some z, rest) => if allWhite rest then Num (applySign neg z) else NaN
    | (None, _) => NaN
    end.

(** A string of one to fifteen decimal digits: seconds written in decimal. *)
Definition decimalString (s : string) : bool :=
  negb (String.eqb s "") && allDigits s && (String.length s <=? 15)%nat.

(** *** [decodeURIComponent] *)

Definition hexVal (c : ascii) : option N :=
  let n := N_of_ascii c in
  if ((48 <=? n) && (n <=? 57))%N then Some (n - 48)%N
  else if ((65 <=? n) && (n <=? 70))%N then Some (n - 55)%N
  else if ((97 <=? n) && (n <=? 102))%N then Some (n - 87)%N
  else None.

Definition hexByte (a b : ascii) : option N :=
  match hexVal a, hexVal b with
  | Some x, Some y => Some (16 * x + y)%N
  | _, _ => None
  end.

(** Number of leading one bits of an octet. *)
Definition leadingOnes (b : N) : nat :=
  if (b <? 128)%N then 0%nat
  else if (b <? 192)%N then 1%nat
  else if (b <? 224)%N then 2%nat
  else if (b <? 240)%N then 3%nat
  else if (b <? 248)%N then 4%nat
  else 5%nat.

Definition isContinuation (b : N) : bool := ((128 <=? b) && (b <? 192))%N.

(** Whether the octets are the UTF-8 encoding of one code point: shortest
    form, no surrogate, at most U+10FFFF. *)
Definition validUtf8 (octets : list N) : bool :=
  match octets with
  | [b0; b1] =>
      let cp := ((b0 - 192) * 64 + (b1 - 128))%N in
      isContinuation b1 && (128 <=? cp)%N
  | [b0; b1; b2] =>
      let cp := ((b0 - 224) * 4096 + (b1 - 128) * 64 + (b2 - 128))%N in
      isContinuation b1 && isContinuation b2 && (2048 <=? cp)%N &&
      negb ((55296 <=? cp) && (cp <=? 57343))%N
  | [b0; b1; b2; b3] =>
      let cp := ((b0 - 240) * 262144 + (b1 - 128) * 4096 +
                 (b2 - 128) * 64 + (b3 - 128))%N in
      isContinuation b1 && isContinuation b2 && isContinuation b3 &&
      (65536 <=? cp)%N && (cp <=? 1114111)%N
  | _ => false
  end.

Definition octetsToString (octets : list N) : string :=
  string_of_list_ascii (map ascii_of_N octets).

(** The decoding loop.  [need] counts the continuation escapes still owed to
    the multi-octet sequence collected in [octets]. *)
Fixpoint decodeFrom (s : string) (need : nat) (octets : list N) : Result string :=
  match s with
  | EmptyString =>
      match need with
      | O => Ok EmptyString
      | S _ => Throw URIError
      end
  | String c rest =>
      if Ascii.eqb c "%" then
        match rest with
        | String a (String b rest2) =>
            match hexByte a b with
            | None => Throw URIError
            | Some octet =>
                match need with
                | O =>
                    match leadingOnes octet with
                    | O => out ← decodeFrom rest2 O []; Ok (String (ascii_of_N octet) out)
                    | 2%nat => decodeFrom rest2 1%nat [octet]
                    | 3%nat => decodeFrom rest2 2%nat [octet]
                    | 4%nat => decodeFrom rest2 3%nat [octet]
                    | _ => Throw URIError
                    end
                | S O =>
                    if validUtf8 (octets ++ [octet])
                    then out ← decodeFrom rest2 O [];
                         Ok (octetsToString (octets ++ [octet]) +:+ out)
                    else Throw URIError
                | S need' => decodeFrom rest2 need' (octets ++ [octet])
                end
            end
        | _ => Throw URIError
        end
      else
        match need with
        | O => out ← decodeFrom rest O []; Ok (String c out)
        | S _ => Throw URIError
        end
  end.

Definition decodeURIComponent (s : string) : Result string := decodeFrom s O [].

(** *** [Array.prototype.sort] *)

(** The sort is stable, and a comparison that yields NaN counts as 0.
    It is modelled as insertion from the left: each element goes in front of
    the first earlier-placed element it compares below.  For a consistent
    comparator every stable sort returns this list; arrays of at most two
    elements are sorted this way by the engine whatever the comparator. *)
Section Sort.
Context {A : Type} (comparefn : A -> A -> JsNum).

Fixpoint insertSorted (x : A) (sorted : list A) : list A :=
  match sorted with
  | [] => [x]
  | e :: rest =>
      if numNeg (comparefn x e) then x :: e :: rest
      else e :: insertSorted x rest
  end.

Definition jsSort (l : list A) : list A :=
  fold_left (fun acc x => insertSorted x acc) l [].
End Sort.

(** [a.slice(start)] and [a.slice(0, n)] *)
Definition sliceFrom {A : Type} (start : nat) (l : list A) : list A := skipn start l.
Definition sliceTo {A : Type} (n : Z) (l : list A) : list A := firstn (Z.to_nat n) l.

(** *** Insertion-ordered maps *)

Module JsMap.
Section Ordered.
Context {V : Type}.

Definition t : Type := list (string * V).

Definition empty : t := [].

Fixpoint get (k : string) (m : t) : option V :=
  match m with
  | [] => None
  | (k', v) :: rest => if String.eqb k k' then Some v else get k rest
  end.

Definition has (k : string) (m : t) : bool :=
  match get k m with
  | Some _ => true
  | None => false
  end.

(** [m.set(k, v)]: a present key keeps its place, a new key goes last. *)
Fixpoint set (k : string) (v : V) (m : t) : t :=
  match m with
  | [] => [(k, v)]
  | (k', v') :: rest =>
      if String.eqb k k' then (k, v) :: rest else (k', v') :: set k v rest
  end.

Definition keys (m : t) : list string := map fst m.
Definition values (m : t) : list V := map snd m.
End Ordered.
Arguments t V : clear implicits.
End JsMap.

(* ===================================================================== *)
(** ** Data model *)
(* ===================================================================== *)

(** A timestamp field as the library delivers it: absent, a number, a string
    or a [Long] object. *)
Inductive JsTs : Type :=
| TsUndefined
| TsNumber (n : JsNum)
| TsString (s : string)
| TsLong (z : Z).

Definition tsTruthy (v : JsTs) : bool :=
  match v with
  | TsUndefined => false
  | TsNumber n => numTruthy n
  | TsString s => negb (String.eqb s "")
  | TsLong _ => true
  end.

(** [typeof v === 'string'] *)
Definition tsIsString (v : JsTs) : bool :=
  match v with
  | TsString _ => true
  | _ => false
  end.

(** [Number(v)], also the conversion applied by arithmetic. *)
Definition tsToNumber (v : JsTs) : JsNum :=
  match v with
  | TsUndefined => NaN
  | TsNumber n => n
  | TsString s => StringToNumber s
  | TsLong z => Num z
  end.

Record MessageKey : Type := {
  key_remoteJid : option string;
  key_id : option string;
  key_fromMe : bool
}.

(** [msg.message]: the content payload.  [extendedText] is
    [extendedTextMessage?.text]; an image, video or document is present with
    its optional caption or file name. *)
Record MessageContent : Type := {
  conversation : option string;
  extendedText : option string;
  imageMessage : option (option string);
  videoMessage : option (option string);
  audioMessage : bool;
  documentMessage : option (option string);
  stickerMessage : bool;
  content_messageTimestamp : JsTs
}.

Record WAMessage : Type := {
  msg_key : option MessageKey;
  msg_messageTimestamp : JsTs;
  msg_timestamp : JsTs;
  msg_message : option MessageContent;
  msg_pushName : option string
}.

(** An element of a chat's embedded [messages] array: [null], a history-sync
    wrapper [{ message: <WAMessage> }], or a message stored directly. *)
Inductive RawEntry : Type :=
| EntryNull
| EntryWrapped (inner : WAMessage)
| EntryBare (m : WAMessage).

(** A raw chat object.  [chat_raw_messages] is [chat.raw?.messages]. *)
Record Chat : Type := {
  chat_id : option string;
  chat_jid : option string;
  chat_name : option string;
  chat_notify : option string;
  chat_pushName : option string;
  chat_subject : option string;
  chat_unreadCount : option Z;
  chat_count : option Z;
  chat_unread : option Z;
  chat_conversationTimestamp : JsTs;
  chat_pinned : bool;
  chat_messages : option (list RawEntry);
  chat_raw_messages : option (list RawEntry)
}.

Record Contact : Type := {
  contact_name : option string;
  contact_notify : option string;
  contact_pushName : option string;
  contact_phoneNumber : option string
}.

(** The connection handle: [sock.user], [sock.store.contacts] and
    [sock.store.messages] ([None] when the store or the table is absent). *)
Record Sock : Type := {
  sock_user : option string;
  sock_contacts : option (gmap string Contact);
  sock_messages : option (gmap string (list WAMessage))
}.

(** The module-level registries, with the timers armed by
    [setTimeout(() => startSocket(name), delay)]. *)
Record State : Type := {
  sockets : gmap string Sock;
  qrCodes : gmap string string;
  sessionChats : gmap string (JsMap.t Chat);
  sessionMessages : gmap string (JsMap.t (list WAMessage));
  timers : list (string * Z)
}.

Definition setSessionChats (st : State) (v : gmap string (JsMap.t Chat)) : State :=
  {| sockets := sockets st; qrCodes := qrCodes st; sessionChats := v;
     sessionMessages := sessionMessages st; timers := timers st |}.

Definition setSessionMessages (st : State)
    (v : gmap string (JsMap.t (list WAMessage))) : State :=
  {| sockets := sockets st; qrCodes := qrCodes st; sessionChats := sessionChats st;
     sessionMessages := v; timers := timers st |}.

Definition setMessageTimestamp (m : WAMessage) (v : JsTs) : WAMessage :=
  {| msg_key := msg_key m; msg_messageTimestamp := v;
     msg_timestamp := msg_timestamp m; msg_message := msg_message m;
     msg_pushName := msg_pushName m |}.

(* ===================================================================== *)
(** ** The bounded message ledger *)
(* ===================================================================== *)

(** [m.key?.id] *)
Definition keyId (m : WAMessage) : option string :=
  match msg_key m with
  | Some k => key_id k
  | None => None
  end.

(** [stored.some(m => m.key?.id === msgId)] *)
Definition idExists (stored : list WAMessage) (msgId : option string) : bool :=
  existsb (fun m => bool_decide (keyId m = msgId)) stored.

Definition ledgerCap : nat := 100.

(** [stored.push(msg); if (stored.length > 100) stored.shift();] *)
Definition pushCapped (stored : list WAMessage) (msg : WAMessage) : list WAMessage :=
  let pushed := stored ++ [msg] in
  if (ledgerCap <? length pushed)%nat then tl pushed else pushed.

(** The append of the [messages.upsert] listener and of the root-level loop
    of [messaging-history.set], on one chat's array. *)
Definition ledgerAppend (stored : list WAMessage) (msg : WAMessage) : list WAMessage :=
  if idExists stored (keyId msg) then stored else pushCapped stored msg.

(** [if (msg.messageTimestamp && typeof msg.messageTimestamp === 'string')
       msg.messageTimestamp = parseInt(msg.messageTimestamp, 10);] *)
Definition normalizeTimestamp (msg : WAMessage) : WAMessage :=
  match msg_messageTimestamp msg with
  | TsString s =>
      if tsTruthy (TsString s)
      then setMessageTimestamp msg (TsNumber (parseInt s))
      else msg
  | _ => msg
  end.

(** The append of the chat-embedded loop of [messaging-history.set]: a new
    message has its timestamp normalised before it is pushed. *)
Definition ledgerAppendNormalized (stored : list WAMessage) (msg : WAMessage)
    : list WAMessage :=
  if idExists stored (keyId msg) then stored
  else pushCapped stored (normalizeTimestamp msg).

(** [if (!store.has(jid)) store.set(jid, []); store.get(jid)] *)
Definition ensureChat (jid : string) (store : JsMap.t (list WAMessage))
    : JsMap.t (list WAMessage) :=
  if JsMap.has jid store then store else JsMap.set jid [] store.

Definition chatArray (jid : string) (store : JsMap.t (list WAMessage))
    : list WAMessage :=
  match JsMap.get jid store with
  | Some l => l
  | None => []
  end.

(** One message of [messages.upsert] on the session's ledger. *)
Definition storeUpsert (store : JsMap.t (list WAMessage)) (chatId : string)
    (message : WAMessage) : JsMap.t (list WAMessage) :=
  let store1 := ensureChat chatId store in
  JsMap.set chatId (ledgerAppend (chatArray chatId store1) message) store1.

(** [msgWrapper.message || msgWrapper], then the test [msg && msg.key]:
    [Ok None] is an object without [key] (a message's content payload). *)
Definition unwrap (w : RawEntry) : Result (option WAMessage) :=
  match w with
  | EntryNull => Throw TypeError
  | EntryWrapped inner => Ok (Some inner)
  | EntryBare m =>
      match msg_message m with
      | Some _ => Ok None
      | None => Ok (Some m)
      end
  end.

(** The entry after an assignment to the unwrapped message object. *)
Definition rewrap (w : RawEntry) (msg : WAMessage) : RawEntry :=
  match w with
  | EntryNull => EntryNull
  | EntryWrapped _ => EntryWrapped msg
  | EntryBare _ => EntryBare msg
  end.

(** [chat.messages || chat.raw?.messages || []] *)
Definition embeddedMessages (chat : Chat) : list RawEntry :=
  match chat_messages chat with
  | Some l => l
  | None =>
      match chat_raw_messages chat with
      | Some l => l
      | None => []
      end
  end.

(** The chat after its embedded array was updated in place. *)
Definition setEmbeddedMessages (chat : Chat) (l : list RawEntry) : Chat :=
  match chat_messages chat, chat_raw_messages chat with
  | Some _, _ =>
      {| chat_id := chat_id chat; chat_jid := chat_jid chat;
         chat_name := chat_name chat; chat_notify := chat_notify chat;
         chat_pushName := chat_pushName chat; chat_subject := chat_subject chat;
         chat_unreadCount := chat_unreadCount chat; chat_count := chat_count chat;
         chat_unread := chat_unread chat;
         chat_conversationTimestamp := chat_conversationTimestamp chat;
         chat_pinned := chat_pinned chat;
         chat_messages := Some l; chat_raw_messages := chat_raw_messages chat |}
  | None, Some _ =>
      {| chat_id := chat_id chat; chat_jid := chat_jid chat;
         chat_name := chat_name chat; chat_notify := chat_notify chat;
         chat_pushName := chat_pushName chat; chat_subject := chat_subject chat;
         chat_unreadCount := chat_unreadCount chat; chat_count := chat_count chat;
         chat_unread := chat_unread chat;
         chat_conversationTimestamp := chat_conversationTimestamp chat;
         chat_pinned := chat_pinned chat;
         chat_messages := None; chat_raw_messages := Some l |}
  | None, None => chat
  end.

(** *** The [messages.upsert] listener *)

(** [{ id: chatId, name: chatId.split('@')[0],
       conversationTimestamp: message.messageTimestamp }] *)
Definition basicChat (chatId : string) (message : WAMessage) : Chat :=
  {| chat_id := Some chatId; chat_jid := None;
     chat_name := Some (splitHead "@" chatId); chat_notify := None;
     chat_pushName := None; chat_subject := None; chat_unreadCount := None;
     chat_count := None; chat_unread := None;
     chat_conversationTimestamp := msg_messageTimestamp message;
     chat_pinned := false; chat_messages := None; chat_raw_messages := None |}.

(** The listener's ledger is the session's entry of [sessionMessages],
    created by [startSocket] before the listener is registered and never
    replaced afterwards. *)
Definition sessionLedger (sessionName : string) (st : State)
    : JsMap.t (list WAMessage) :=
  default [] (sessionMessages st !! sessionName).

Definition sessionDirectory (sessionName : string) (st : State) : JsMap.t Chat :=
  default [] (sessionChats st !! sessionName).

Definition upsertMessage (sessionName : string) (st : State) (message : WAMessage)
    : State :=
  match msg_key message with
  | Some k =>
      match key_remoteJid k with
      | Some chatId =>
          if strTruthy (Some chatId) then
            let messageStore := storeUpsert (sessionLedger sessionName st) chatId message in
            let st1 := setSessionMessages st
                         (<[sessionName := messageStore]> (sessionMessages st)) in
            let chatMap := sessionDirectory sessionName st1 in
            let chatMap' :=
              if JsMap.has chatId chatMap then chatMap
              else JsMap.set chatId (basicChat chatId message) chatMap in
            setSessionChats st1 (<[sessionName := chatMap']> (sessionChats st1))
          else st
      | None => st
      end
  | None => st
  end.

Definition onMessagesUpsert (sessionName : string) (messages : list WAMessage)
    (st : State) : State :=
  fold_left (upsertMessage sessionName) messages st.

(** *** The [messaging-history.set] listener *)

Record History : Type := {
  history_chats : option (list Chat);
  history_messages : option (list WAMessage)
}.

(** One element of a chat's embedded array: the ledger and the element
    afterwards. *)
Definition historyEntry (chatId : string) (store : JsMap.t (list WAMessage))
    (w : RawEntry) : Result (JsMap.t (list WAMessage) * RawEntry) :=
  unwrapped ← unwrap w;
  match unwrapped with
  | None => Ok (store, w)
  | Some msg =>
      match msg_key msg with
      | None => Ok (store, w)
      | Some k =>
          let jid := orStr (key_remoteJid k) chatId in
          let msgId := key_id k in
          if negb (strTruthy (Some jid)) || negb (strTruthy msgId) then Ok (store, w)
          else
            let store1 := ensureChat jid store in
            let storedMessages := chatArray jid store1 in
            if idExists storedMessages msgId then Ok (store1, w)
            else Ok (JsMap.set jid (pushCapped storedMessages (normalizeTimestamp msg)) store1,
                     rewrap w (normalizeTimestamp msg))
      end
  end.

(** The loop over a chat's embedded array.  An exception ends the listener:
    the result carries what was done until then. *)
Fixpoint historyEntries (chatId : string) (store : JsMap.t (list WAMessage))
    (ws : list RawEntry)
    : JsMap.t (list WAMessage) * list RawEntry * option JsError :=
  match ws with
  | [] => (store, [], None)
  | w :: rest =>
      match historyEntry chatId store w with
      | Throw e => (store, w :: rest, Some e)
      | Ok (store1, w1) =>
          let '(store2, rest2, err) := historyEntries chatId store1 rest in
          (store2, w1 :: rest2, err)
      end
  end.

Fixpoint historyChats (chatMap : JsMap.t Chat) (store : JsMap.t (list WAMessage))
    (chats : list Chat)
    : JsMap.t Chat * JsMap.t (list WAMessage) * option JsError :=
  match chats with
  | [] => (chatMap, store, None)
  | chat :: rest =>
      match chat_id chat with
      | Some chatId =>
          if strTruthy (Some chatId) then
            let '(store1, ws, err) := historyEntries chatId store (embeddedMessages chat) in
            let chatMap1 := JsMap.set chatId (setEmbeddedMessages chat ws) chatMap in
            match err with
            | Some e => (chatMap1, store1, Some e)
            | None => historyChats chatMap1 store1 rest
            end
          else historyChats chatMap store rest
      | None => historyChats chatMap store rest
      end
  end.

(** One root-level message of the history. *)
Definition historyMessage (store : JsMap.t (list WAMessage)) (msg : WAMessage)
    : JsMap.t (list WAMessage) :=
  match msg_key msg with
  | Some k =>
      match key_remoteJid k with
      | Some jid =>
          if negb (strTruthy (Some jid)) || negb (strTruthy (key_id k)) then store
          else
            let store1 := ensureChat jid store in
            JsMap.set jid (ledgerAppend (chatArray jid store1) msg) store1
      | None => store
      end
  | None => store
  end.

Definition onMessagingHistorySet (sessionName : string) (history : History)
    (st : State) : State * option JsError :=
  let chatMap := sessionDirectory sessionName st in
  let messageStore := sessionLedger sessionName st in
  let '(chatMap1, store1, err) :=
    match history_chats history with
    | Some chats => historyChats chatMap messageStore chats
    | None => (chatMap, messageStore, None)
    end in
  let store2 :=
    match err, history_messages history with
    | None, Some messages => fold_left historyMessage messages store1
    | _, _ => store1
    end in
  (setSessionMessages
     (setSessionChats st (<[sessionName := chatMap1]> (sessionChats st)))
     (<[sessionName := store2]> (sessionMessages st)),
   err).

(* ===================================================================== *)
(** ** Reading a chat's ledger: [getMessagesForChat] *)
(* ===================================================================== *)

(** The helper [getTs] of the comparator.  A truthy field contributes
    [typeof v === 'string' || typeof v === 'object' ? Number(v) : v], which is
    [tsToNumber v] in each case. *)
Definition getTs (msg : WAMessage) : JsNum :=
  if tsTruthy (msg_messageTimestamp msg) then tsToNumber (msg_messageTimestamp msg)
  else if tsTruthy (msg_timestamp msg) then tsToNumber (msg_timestamp msg)
  else
    match msg_message msg with
    | Some content =>
        if tsTruthy (content_messageTimestamp content)
        then tsToNumber (content_messageTimestamp content)
        else Num 0
    | None => Num 0
    end.

(** [(a, b) => getTs(a) - getTs(b)] *)
Definition compareTs (a b : WAMessage) : JsNum := numSub (getTs a) (getTs b).

(** [chat?.unreadCount || chat?.count || chat?.unread || 0] *)
Definition unreadOf (chat : option Chat) : Z :=
  match chat with
  | Some c => orZero (orNum (orNum (chat_unreadCount c) (chat_count c)) (chat_unread c))
  | None => 0
  end.

(** The search through the stored chat ids when the exact lookup finds
    nothing: the first id equal to the request, to its decoding, or whose
    decoding equals the request. *)
Fixpoint findStoredJid (jid : string) (storedJids : list string)
    : Result (option string) :=
  match storedJids with
  | [] => Ok None
  | storedJid :: rest =>
      if String.eqb storedJid jid then Ok (Some storedJid)
      else
        decodedJid ← decodeURIComponent jid;
        if String.eqb storedJid decodedJid then Ok (Some storedJid)
        else
          decodedStored ← decodeURIComponent storedJid;
          if String.eqb decodedStored jid then Ok (Some storedJid)
          else findStoredJid jid rest
  end.

(** The key whose array the reader uses, if any. *)
Definition locateMessages (jid : string) (messageMap : JsMap.t (list WAMessage))
    : Result (option string) :=
  match JsMap.get jid messageMap with
  | Some (_ :: _) => Ok (Some jid)
  | _ => findStoredJid jid (JsMap.keys messageMap)
  end.

(** [getMessagesForChat(sessionName, jid, minCount)]: the messages returned
    and the registries afterwards.  [allMessages.sort] sorts the stored array
    itself, so the sorted array replaces it in the ledger. *)
Definition getMessagesForChat (sessionName jid : string) (minCount : Z) (st : State)
    : Result (list WAMessage * State) :=
  match sessionMessages st !! sessionName with
  | None => Ok ([], st)
  | Some messageMap =>
      located ← locateMessages jid messageMap;
      match located with
      | None => Ok ([], st)
      | Some storedJid =>
          match chatArray storedJid messageMap with
          | [] => Ok ([], st)
          | allMessages =>
              let chat :=
                match sessionChats st !! sessionName with
                | Some chatMap => JsMap.get jid chatMap
                | None => None
                end in
              let unreadCount := unreadOf chat in
              let need := Z.max minCount unreadCount in
              let start := Z.max 0 (Z.of_nat (length allMessages) - need) in
              let sorted := jsSort compareTs allMessages in
              Ok (sliceFrom (Z.to_nat start) sorted,
                  setSessionMessages st
                    (<[sessionName := JsMap.set storedJid sorted messageMap]>
                       (sessionMessages st)))
          end
      end
  end.

(** The repository's second copy of the server compares
    [typeof ts === 'string' ? parseInt(ts, 10) : (ts || 0)] instead. *)
Module ServerCopy.
Definition tsOf (msg : WAMessage) : JsNum :=
  match msg_messageTimestamp msg with
  | TsString s => parseInt s
  | v => if tsTruthy v then tsToNumber v else Num 0
  end.

Definition compareTs (a b : WAMessage) : JsNum := numSub (tsOf a) (tsOf b).
End ServerCopy.

(* ===================================================================== *)
(** ** Chat reconciliation: [GET /api/:session/chats] *)
(* ===================================================================== *)

Inductive ChatType : Type := Group | Individual.

(** A formatted chat.  [fc_lastMessageTime] stands for the ISO-8601 string by
    the epoch milliseconds it spells. *)
Record FormattedChat : Type := {
  fc_id : string;
  fc_originalId : string;
  fc_name : string;
  fc_type : ChatType;
  fc_unreadCount : Z;
  fc_lastMessageTime : option Z;
  fc_pinned : bool;
  fc_raw : Chat
}.

(** Largest magnitude of a valid [Date], in milliseconds. *)
Definition maxDate : Z := 8640000000000000.

(** [new Date(n).toISOString()]: a [RangeError] on an invalid date. *)
Definition toISOString (n : JsNum) : Result Z :=
  match n with
  | Num ms => if Z.abs ms <=? maxDate then Ok ms else Throw RangeError
  | NaN => Throw RangeError
  end.

(** [chat.conversationTimestamp
      ? new Date(chat.conversationTimestamp * 1000).toISOString() : null] *)
Definition lastMessageTimeOf (chat : Chat) : Result (option Z) :=
  if tsTruthy (chat_conversationTimestamp chat)
  then ms ← toISOString (numMul (tsToNumber (chat_conversationTimestamp chat)) 1000);
       Ok (Some ms)
  else Ok None.

(** The broadcast and system chats that the loop skips. *)
Definition isSystemChat (chatId : string) : bool :=
  String.eqb chatId "status@broadcast" || includes chatId "broadcast" ||
  String.eqb chatId "server@c.us".

(** [sock.store.contacts[chatId] || sock.store.contacts.get(chatId)] *)
Definition lookupContact (sock : Sock) (chatId : string) : option Contact :=
  match sock_contacts sock with
  | Some contacts => contacts !! chatId
  | None => None
  end.

(** The canonical id, type and name of a chat id, [None] for an unknown
    format. *)
Definition classify (sock : Sock) (chat : Chat) (chatId : string)
    : option (string * ChatType * string) :=
  if endsWith chatId "@g.us" then
    Some (chatId, Group, orStr (chat_subject chat) (orStr (chat_name chat) "Group"))
  else if endsWith chatId "@s.whatsapp.net" then
    let phone := orStr (Some (splitHead ":" chatId))
                       (removeFirst "@s.whatsapp.net" chatId) in
    Some (chatId, Individual,
          orStr (chat_name chat) (orStr (chat_notify chat)
            (orStr (chat_pushName chat) phone)))
  else if endsWith chatId "@lid" then
    let contact := lookupContact sock chatId in
    let resolvedName :=
      match contact with
      | Some c => orOpt (orOpt (contact_name c) (contact_notify c)) (contact_pushName c)
      | None => None
      end in
    let resolvedPhone :=
      match contact with
      | Some c => if strTruthy (contact_phoneNumber c) then contact_phoneNumber c else None
      | None => None
      end in
    match resolvedPhone with
    | Some phone => Some (phone +:+ "@s.whatsapp.net", Individual, orStr resolvedName phone)
    | None =>
        match matchLid chatId with
        | Some digits =>
            if ((10 <=? String.length digits) && (String.length digits <=? 15))%nat
            then Some (digits +:+ "@s.whatsapp.net", Individual, orStr resolvedName digits)
            else Some (chatId, Individual,
                       orStr resolvedName (orStr (chat_name chat)
                         (orStr (chat_notify chat)
                            (orStr (chat_pushName chat) "Unknown Contact"))))
        | None =>
            Some (chatId, Individual,
                  orStr resolvedName (orStr (chat_name chat)
                    (orStr (chat_notify chat)
                       (orStr (chat_pushName chat) "Unknown Contact"))))
        end
    end
  else None.

(** The formatted chat of one raw chat, [None] when the loop skips it. *)
Definition formatChat (sock : Sock) (chat : Chat) : Result (option FormattedChat) :=
  match orOpt (chat_id chat) (chat_jid chat) with
  | Some chatId =>
      if negb (strTruthy (Some chatId)) then Ok None
      else if isSystemChat chatId then Ok None
      else
        match classify sock chat chatId with
        | None => Ok None
        | Some (canonicalId, chatType, chatName) =>
            lastMessageTime ← lastMessageTimeOf chat;
            Ok (Some {| fc_id := canonicalId;
                        fc_originalId := chatId;
                        fc_name := chatName;
                        fc_type := chatType;
                        fc_unreadCount := orZero (orNum (chat_unreadCount chat) (chat_unread chat));
                        fc_lastMessageTime := lastMessageTime;
                        fc_pinned := chat_pinned chat;
                        fc_raw := chat |})
        end
  | None => Ok None
  end.

(** The merge of a formatted chat into the record already held for its
    canonical id. *)
Definition mergeChat (existing formattedChat : FormattedChat) : FormattedChat :=
  let name :=
    if String.eqb (fc_name existing) "Unknown" &&
       negb (String.eqb (fc_name formattedChat) "Unknown")
    then fc_name formattedChat else fc_name existing in
  let newer :=
    match fc_lastMessageTime formattedChat, fc_lastMessageTime existing with
    | Some t, None => true
    | Some t, Some t0 => t0 <? t
    | None, _ => false
    end in
  {| fc_id := fc_id existing;
     fc_originalId := fc_originalId existing;
     fc_name := name;
     fc_type := fc_type existing;
     fc_unreadCount := fc_unreadCount existing + fc_unreadCount formattedChat;
     fc_lastMessageTime :=
       if newer then fc_lastMessageTime formattedChat else fc_lastMessageTime existing;
     fc_pinned := fc_pinned existing;
     fc_raw := if newer then fc_raw formattedChat else fc_raw existing |}.

(** [mergedChats] after one formatted chat. *)
Definition mergeInto (mergedChats : JsMap.t FormattedChat) (f : FormattedChat)
    : JsMap.t FormattedChat :=
  match JsMap.get (fc_id f) mergedChats with
  | Some existing => JsMap.set (fc_id f) (mergeChat existing f) mergedChats
  | None => JsMap.set (fc_id f) f mergedChats
  end.

(** The first pass over the raw chats. *)
Fixpoint mergeAll (sock : Sock) (chats : list Chat)
    (mergedChats : JsMap.t FormattedChat) : Result (JsMap.t FormattedChat) :=
  match chats with
  | [] => Ok mergedChats
  | chat :: rest =>
      formatted ← formatChat sock chat;
      match formatted with
      | Some f => mergeAll sock rest (mergeInto mergedChats f)
      | None => mergeAll sock rest mergedChats
      end
  end.

Section ChatsEndpoint.
(** [a.localeCompare(b)], fixed by the host's collation. *)
Variable localeCompare : string -> string -> Z.

(** The comparator of the final sort: most recent first, chats without a
    time last and by name. *)
Definition compareChats (a b : FormattedChat) : JsNum :=
  match fc_lastMessageTime a, fc_lastMessageTime b with
  | Some ta, Some tb => Num (tb - ta)
  | Some _, None => Num (-1)
  | None, Some _ => Num 1
  | None, None => Num (localeCompare (fc_name a) (fc_name b))
  end.

(** The reconciled chat list of a batch of raw chats. *)
Definition reconcile (sock : Sock) (chats : list Chat) : Result (list FormattedChat) :=
  mergedChats ← mergeAll sock chats JsMap.empty;
  Ok (jsSort compareChats (JsMap.values mergedChats)).
End ChatsEndpoint.

(* ===================================================================== *)
(** ** Message retrieval: [GET /api/:session/messages/:jid] *)
(* ===================================================================== *)

Inductive MessageType : Type :=
| TypeText | TypeImage | TypeVideo | TypeAudio | TypeDocument | TypeSticker
| TypeUnknown.

(** A formatted message.  [fm_timestamp] stands for the ISO-8601 string by
    the epoch milliseconds it spells. *)
Record FormattedMessage : Type := {
  fm_id : option string;
  fm_from : string;
  fm_fromMe : bool;
  fm_text : string;
  fm_type : MessageType;
  fm_timestamp : option Z;
  fm_mightBeUnread : bool;
  fm_raw : WAMessage
}.

Inductive Warning : Type :=
| NoMessagesAvailable
| ErrorLoadingMessages (e : JsError).

Record MessagesBody : Type := {
  mb_messages : list FormattedMessage;
  mb_total : nat;
  mb_unreadCount : Z;
  mb_jid : string;
  mb_error : option JsError;
  mb_warning : option Warning
}.

Inductive Body : Type :=
| ErrorBody (error : string)
| FailureBody (e : JsError)
| ChatsBody (chats : list FormattedChat) (total : nat)
| MessagesResult (b : MessagesBody).

Record Response : Type := {
  status : Z;
  body : Body
}.

(** What [sock.loadMessages(jid, 10)] does: it rejects, or resolves to an
    array (whose elements may be [null]) or to nothing. *)
Inductive LoadResult : Type :=
| LoadRejects (e : JsError)
| LoadResolves (loaded : option (list (option WAMessage))).

(** The response, the registries afterwards and the calls made to
    [sock.loadMessages]. *)
Record Outcome : Type := {
  response : Response;
  after : State;
  liveFetches : list (string * Z)
}.

Definition minMessages : Z := 5.

(** [parseInt(req.query.limit) || 20], from the parsed number. *)
Definition requestedLimitOf (parsed : JsNum) : Z :=
  match parsed with
  | Num z => if z =? 0 then 20 else z
  | NaN => 20
  end.

(** The timestamp of the formatted record: the ISO string when the seconds
    are a positive number in the range of [Date], else [null]. *)
Definition formatTimestamp (v : JsTs) : option Z :=
  if tsTruthy v then
    let ts := match v with
              | TsString s => parseInt s
              | _ => tsToNumber v
              end in
    if negb (isNaN ts) && numPos ts
    then match toISOString (numMul ts 1000) with
         | Ok ms => Some ms
         | Throw _ => None
         end
    else None
  else None.

Definition dayMs : Z := 24 * 60 * 60 * 1000.

(** The text and type tag derived from the content payload. *)
Definition describeContent (content : option MessageContent) : string * MessageType :=
  match content with
  | None => ("", TypeUnknown)
  | Some c =>
      if strTruthy (conversation c) then (orStr (conversation c) "", TypeText)
      else if strTruthy (extendedText c) then (orStr (extendedText c) "", TypeText)
      else match imageMessage c with
      | Some caption => (orStr caption "[Image]", TypeImage)
      | None =>
      match videoMessage c with
      | Some caption => (orStr caption "[Video]", TypeVideo)
      | None =>
      if audioMessage c then ("[Audio]", TypeAudio)
      else match documentMessage c with
      | Some fileName => ("[Document] " +:+ orStr fileName "", TypeDocument)
      | None =>
      if stickerMessage c then ("[Sticker]", TypeSticker)
      else ("", TypeUnknown)
      end end end
  end.

(** The record built for a message by the callback of [messages.map]. *)
Definition formatRecord (now : Z) (jid : string) (m : WAMessage) : FormattedMessage :=
  let fromMe := match msg_key m with Some k => key_fromMe k | None => false end in
  let from := orStr (match msg_key m with Some k => key_remoteJid k | None => None end) jid in
  let timestamp := formatTimestamp (msg_messageTimestamp m) in
  let isRecent := match timestamp with
                  | Some t => now - t <? dayMs
                  | None => false
                  end in
  {| fm_id := keyId m; fm_from := from; fm_fromMe := fromMe;
     fm_text := fst (describeContent (msg_message m));
     fm_type := snd (describeContent (msg_message m));
     fm_timestamp := timestamp;
     fm_mightBeUnread := negb fromMe && isRecent; fm_raw := m |}.

(** The callback of [messages.map].  On [null] the body throws and so does
    the handler that would build the placeholder record. *)
Definition formatMessage (now : Z) (jid : string) (msg : option WAMessage)
    : Result FormattedMessage :=
  match msg with
  | None => Throw TypeError
  | Some m => Ok (formatRecord now jid m)
  end.

Fixpoint formatAll (now : Z) (jid : string) (messages : list (option WAMessage))
    : Result (list FormattedMessage) :=
  match messages with
  | [] => Ok []
  | msg :: rest =>
      f ← formatMessage now jid msg;
      fs ← formatAll now jid rest;
      Ok (f :: fs)
  end.

Definition timeOf (f : FormattedMessage) : Z :=
  match fm_timestamp f with
  | Some t => t
  | None => 0
  end.

(** The comparator of the final sort: possibly unread messages first, then
    newest first. *)
Definition compareFormatted (a b : FormattedMessage) : JsNum :=
  if fm_mightBeUnread a && negb (fm_mightBeUnread b) then Num (-1)
  else if negb (fm_mightBeUnread a) && fm_mightBeUnread b then Num 1
  else Num (timeOf b - timeOf a).

(** [Math.min(20, Math.max(minMessages, Math.min(requestedLimit, n)))] *)
Definition finalLimit (requestedLimit : Z) (n : nat) : Z :=
  Z.min 20 (Z.max minMessages (Z.min requestedLimit (Z.of_nat n))).

(** Sort, truncate and reverse. *)
Definition finalMessages (requestedLimit : Z) (formatted : list FormattedMessage)
    : list FormattedMessage :=
  rev (sliceTo (finalLimit requestedLimit (length formatted))
               (jsSort compareFormatted formatted)).

(** The extraction loop over a chat's embedded array: the messages pushed,
    the array afterwards and the exception that ended the loop, if any. *)
Fixpoint extractRaw (ws : list RawEntry)
    : list WAMessage * list RawEntry * option JsError :=
  match ws with
  | [] => ([], [], None)
  | w :: rest =>
      match unwrap w with
      | Throw e => ([], w :: rest, Some e)
      | Ok (Some msg) =>
          if strTruthy (keyId msg) then
            let '(msgs, rest', err) := extractRaw rest in
            (normalizeTimestamp msg :: msgs, rewrap w (normalizeTimestamp msg) :: rest', err)
          else
            let '(msgs, rest', err) := extractRaw rest in
            (msgs, w :: rest', err)
      | Ok None =>
          let '(msgs, rest', err) := extractRaw rest in
          (msgs, w :: rest', err)
      end
  end.

(** [if (!exists) msgStore.get(jid).push(msg)] for each message: the
    write-back of the retrieval chain has no cap. *)
Definition writeBack (stored : list WAMessage) (messages : list WAMessage)
    : list WAMessage :=
  fold_left (fun acc msg => if idExists acc (keyId msg) then acc else acc ++ [msg])
            messages stored.

(** The fallback to the messages embedded in the chat directory. *)
Definition rawFallback (sessionName jid : string) (st : State)
    : Result (list WAMessage) * State :=
  match sessionChats st !! sessionName with
  | Some chatMap =>
      match JsMap.get jid chatMap with
      | Some chat =>
          match embeddedMessages chat with
          | [] => (Ok [], st)
          | rawMessages =>
              let '(messages, ws, err) := extractRaw rawMessages in
              let st1 := setSessionChats st
                           (<[sessionName := JsMap.set jid (setEmbeddedMessages chat ws) chatMap]>
                              (sessionChats st)) in
              match err with
              | Some e => (Throw e, st1)
              | None =>
                  let msgStore := ensureChat jid (sessionLedger sessionName st1) in
                  let stored := writeBack (chatArray jid msgStore) messages in
                  (Ok messages,
                   setSessionMessages st1
                     (<[sessionName := JsMap.set jid stored msgStore]> (sessionMessages st1)))
              end
          end
      | None => (Ok [], st)
      end
  | None => (Ok [], st)
  end.

(** [(a, b) => (b.messageTimestamp || 0) - (a.messageTimestamp || 0)] *)
Definition compareStore (a b : WAMessage) : JsNum :=
  let orZeroTs v := if tsTruthy v then tsToNumber v else Num 0 in
  numSub (orZeroTs (msg_messageTimestamp b)) (orZeroTs (msg_messageTimestamp a)).

(** Strategy 2: the library's in-memory store. *)
Definition fromStore (sock : Sock) (jid : string) (limit : Z) : list WAMessage :=
  match sock_messages sock with
  | Some storeMessages =>
      match storeMessages !! jid with
      | Some storeArray => sliceTo limit (jsSort compareStore storeArray)
      | None => []
      end
  | None => []
  end.

(** The identifier [messageStore] is not declared in the handler's scope:
    evaluating it throws. *)
Definition messageStoreRef : Result (option (JsMap.t (list WAMessage))) :=
  Throw ReferenceError.

(** The body of strategy 3's [try] after [loadMessages] resolved to a
    non-empty array, [messages] having been assigned already. *)
Definition storeLoaded (sessionName jid : string)
    (loaded : list (option WAMessage)) (st : State) : Result State :=
  messageStore ← messageStoreRef;
  let st1 :=
    match messageStore with
    | Some _ => st
    | None => setSessionMessages st (<[sessionName := JsMap.empty]> (sessionMessages st))
    end in
  let msgStore := ensureChat jid (sessionLedger sessionName st1) in
  stored ← foldr (fun msg acc =>
                    match msg with
                    | Some m => l ← acc; Ok (m :: l)
                    | None => Throw TypeError
                    end) (Ok []) loaded;
  Ok (setSessionMessages st1
        (<[sessionName := JsMap.set jid (writeBack (chatArray jid msgStore) stored) msgStore]>
           (sessionMessages st1))).

(** Strategy 3: the live fetch.  Whatever the [try] throws is swallowed. *)
Definition liveFetch (sessionName jid : string) (load : LoadResult) (st : State)
    : list (option WAMessage) * State :=
  match load with
  | LoadRejects _ => ([], st)
  | LoadResolves (Some (m :: rest)) =>
      match storeLoaded sessionName jid (m :: rest) st with
      | Ok st1 => (m :: rest, st1)
      | Throw _ => (m :: rest, st)
      end
  | LoadResolves _ => ([], st)
  end.

Definition smallLimit : Z := 10.

(** The [try] block of the handler: the raw messages found and the formatted
    list, or the exception that reaches the handler's [catch]. *)
Definition retrieve (sock : Sock) (sessionName jid : string) (requestedLimit : Z)
    (now : Z) (load : LoadResult) (st : State)
    : Result (list (option WAMessage) * list FormattedMessage) * State
      * list (string * Z) :=
  let limit := Z.max minMessages requestedLimit in
  match getMessagesForChat sessionName jid limit st with
  | Throw e => (Throw e, st, [])
  | Ok (found, st1) =>
      let '(r, st2) :=
        match found with
        | [] => rawFallback sessionName jid st1
        | _ => (Ok found, st1)
        end in
      match r with
      | Throw e => (Throw e, st2, [])
      | Ok messages1 =>
          let messages2 :=
            match messages1 with
            | [] => fromStore sock jid limit
            | _ => messages1
            end in
          let '(messages3, st3, fetches) :=
            match messages2 with
            | [] =>
                let '(loaded, st') := liveFetch sessionName jid load st2 in
                (loaded, st', [(jid, smallLimit)])
            | _ => (map Some messages2, st2, [])
            end in
          match formatAll now jid messages3 with
          | Throw e => (Throw e, st3, fetches)
          | Ok formatted =>
              (Ok (messages3, List.filter (fun f => strTruthy (fm_id f)) formatted), st3, fetches)
          end
      end
  end.

Definition connected (st : State) (sessionName : string) : option Sock :=
  match sockets st !! sessionName with
  | Some sock =>
      match sock_user sock with
      | Some _ => Some sock
      | None => None
      end
  | None => None
  end.

(** The handler of [GET /api/:session/messages/:jid].  [jid] is the decoded
    path parameter, [parsedLimit] is [parseInt(req.query.limit)], [now] is
    [Date.now()] and [load] is what the live fetch would do. *)
Definition getMessages (sessionName jid : string) (parsedLimit : JsNum) (now : Z)
    (load : LoadResult) (st : State) : Outcome :=
  match connected st sessionName with
  | None =>
      {| response := {| status := 400; body := ErrorBody "Session not connected" |};
         after := st; liveFetches := [] |}
  | Some sock =>
      let requestedLimit := requestedLimitOf parsedLimit in
      let unreadCount :=
        match sessionChats st !! sessionName with
        | Some chatMap => unreadOf (JsMap.get jid chatMap)
        | None => 0
        end in
      match retrieve sock sessionName jid requestedLimit now load st with
      | (Ok (messages, formattedMessages), st', fetches) =>
          let final := finalMessages requestedLimit formattedMessages in
          {| response :=
               {| status := 200;
                  body := MessagesResult
                    {| mb_messages := final;
                       mb_total := length final;
                       mb_unreadCount := unreadCount;
                       mb_jid := jid;
                       mb_error := None;
                       mb_warning := match messages with
                                     | [] => Some NoMessagesAvailable
                                     | _ => None
                                     end |} |};
             after := st'; liveFetches := fetches |}
      | (Throw e, st', fetches) =>
          {| response :=
               {| status := 200;
                  body := MessagesResult
                    {| mb_messages := [];
                       mb_total := 0;
                       mb_unreadCount := 0;
                       mb_jid := jid;
                       mb_error := Some e;
                       mb_warning := Some (ErrorLoadingMessages e) |} |};
             after := st'; liveFetches := fetches |}
      end
  end.

(** The handler of [GET /api/:session/chats].  The chats come from the
    session's directory; [fallbackChats] is what the other three sources
    ([sock.chats], [sock.store.chats], the group list) yield when the
    directory has none. *)
Definition getChats (localeCompare : string -> string -> Z) (sessionName : string)
    (fallbackChats : list Chat) (st : State) : Response :=
  match connected st sessionName with
  | None => {| status := 400; body := ErrorBody "Session not connected" |}
  | Some sock =>
      let captured :=
        match sessionChats st !! sessionName with
        | Some chatMap => JsMap.values chatMap
        | None => []
        end in
      let chats := match captured with [] => fallbackChats | _ => captured end in
      match reconcile localeCompare sock chats with
      | Ok formattedChats =>
          {| status := 200; body := ChatsBody formattedChats (length formattedChats) |}
      | Throw e => {| status := 500; body := FailureBody e |}
      end
  end.

(* ===================================================================== *)
(** ** Connection lifecycle: the [connection.update] listener *)
(* ===================================================================== *)

Inductive Connection : Type := Connecting | Close | Open.

(** [statusCode] is [lastDisconnect?.error?.output?.statusCode]. *)
Record ConnectionUpdate : Type := {
  connection : option Connection;
  qr : option string;
  statusCode : option Z
}.

Definition setSockets (st : State) (v : gmap string Sock) : State :=
  {| sockets := v; qrCodes := qrCodes st; sessionChats := sessionChats st;
     sessionMessages := sessionMessages st; timers := timers st |}.

Definition setQrCodes (st : State) (v : gmap string string) : State :=
  {| sockets := sockets st; qrCodes := v; sessionChats := sessionChats st;
     sessionMessages := sessionMessages st; timers := timers st |}.

Definition setTimers (st : State) (v : list (string * Z)) : State :=
  {| sockets := sockets st; qrCodes := qrCodes st; sessionChats := sessionChats st;
     sessionMessages := sessionMessages st; timers := v |}.

Definition reconnectDelay : Z := 3000.

Section Lifecycle.
(** [DisconnectReason.loggedOut], a constant of the connection library. *)
Variable loggedOut : Z.

(** [(await QRCode.toDataURL(qr, options)).split(',')[1]]: the rendering
    of the pairing code by the QR library. *)
Variable qrBase64 : string -> Result string.

(** [statusCode !== DisconnectReason.loggedOut] *)
Definition shouldReconnect (code : option Z) : bool :=
  match code with
  | Some c => negb (c =? loggedOut)
  | None => true
  end.

(** The pairing-code part of the listener; a rendering failure is logged
    and dropped. *)
Definition storeQr (sessionName : string) (update : ConnectionUpdate) (st : State)
    : State :=
  match qr update with
  | Some code =>
      if strTruthy (Some code) then
        match qrBase64 code with
        | Ok base64QR => setQrCodes st (<[sessionName := base64QR]> (qrCodes st))
        | Throw _ => st
        end
      else st
  | None => st
  end.

(** The [close] branch. *)
Definition onClose (sessionName : string) (code : option Z) (st : State) : State :=
  let st1 := setSockets st (delete sessionName (sockets st)) in
  let st2 := setQrCodes st1 (delete sessionName (qrCodes st1)) in
  let st3 := setSessionChats st2 (delete sessionName (sessionChats st2)) in
  if shouldReconnect code
  then setTimers st3 (timers st3 ++ [(sessionName, reconnectDelay)])
  else st3.

(** The listener registered by [startSocket] for the socket [sock]. *)
Definition onConnectionUpdate (sessionName : string) (sock : Sock)
    (update : ConnectionUpdate) (st : State) : State :=
  let st1 := storeQr sessionName update st in
  match connection update with
  | Some Connecting =>
      match sockets st1 !! sessionName with
      | Some _ => st1
      | None => setSockets st1 (<[sessionName := sock]> (sockets st1))
      end
  | Some Close => onClose sessionName (statusCode update) st1
  | Some Open =>
      let st2 := setSockets st1 (<[sessionName := sock]> (sockets st1)) in
      setQrCodes st2 (delete sessionName (qrCodes st2))
  | None => st1
  end.
End Lifecycle.

(* ===================================================================== *)
(** ** Vocabulary of the statements *)
(* ===================================================================== *)

(** The three feeds of the ledger: the live listener, the root-level
    messages of a history delivery and the messages embedded in its chats. *)
Inductive Feed : Type := LiveUpsert | HistoryRoot | HistoryChat.

(** The append a feed performs on one chat's array. *)
Definition appendVia (stored : list WAMessage) (e : Feed * WAMessage) : list WAMessage :=
  match fst e with
  | HistoryChat => ledgerAppendNormalized stored (snd e)
  | _ => ledgerAppend stored (snd e)
  end.


(** The object a feed stores for a message. *)
Definition storedForm (e : Feed * WAMessage) : WAMessage :=
  match fst e with
  | HistoryChat => normalizeTimestamp (snd e)
  | _ => snd e
  end.

(** Number of entries of a chat's array that carry a given id. *)
Definition countId (i : option string) (stored : list WAMessage) : nat :=
  length (List.filter (fun m => bool_decide (keyId m = i)) stored).

(** The formatted chats of a batch, in order, without the skipped ones. *)
Fixpoint formattedOf (sock : Sock) (chats : list Chat) : list FormattedChat :=
  match chats with
  | [] => []
  | chat :: rest =>
      match formatChat sock chat with
      | Ok (Some f) => f :: formattedOf sock rest
      | _ => formattedOf sock rest
      end
  end.

(** Sum of the unread counts of the formatted chats with a canonical id. *)
Fixpoint unreadTotal (canonicalId : string) (fs : list FormattedChat) : Z :=
  match fs with
  | [] => 0
  | f :: rest =>
      (if String.eqb (fc_id f) canonicalId then fc_unreadCount f else 0)
      + unreadTotal canonicalId rest
  end.

(** The raw chat [{ id: chatId, unread: n }]. *)
Definition rawChat (chatId : string) (n : Z) : Chat :=
  {| chat_id := Some chatId; chat_jid := None; chat_name := None;
     chat_notify := None; chat_pushName := None; chat_subject := None;
     chat_unreadCount := None; chat_count := None; chat_unread := Some n;
     chat_conversationTimestamp := TsUndefined; chat_pinned := false;
     chat_messages := None; chat_raw_messages := None |}.

(** Largest integer below which every integer is a double. *)
Definition maxSafeInteger : Z := 9007199254740991.

(** Messages whose normalised timestamp is a number, in the range where
    integers are exact. *)
Definition finiteTs (m : WAMessage) : Prop :=
  exists z, getTs m = Num z /\ Z.abs z <= maxSafeInteger.

Definition tsValue (m : WAMessage) : Z :=
  match getTs m with
  | Num z => z
  | NaN => 0
  end.

(** Ascending by normalised timestamp. *)
Definition sortedByTs (l : list WAMessage) : Prop :=
  StronglySorted (fun a b => tsValue a <= tsValue b) l.

(** A message that carries only a key and a timestamp. *)
Definition plainMessage (jid msgId : string) (fromMe : bool) (ts : JsTs) : WAMessage :=
  {| msg_key := Some {| key_remoteJid := Some jid; key_id := Some msgId;
                        key_fromMe := fromMe |};
     msg_messageTimestamp := ts; msg_timestamp := TsUndefined;
     msg_message := None; msg_pushName := None |}.


Definition connectedSock : Sock :=
  {| sock_user := Some "user"; sock_contacts := None; sock_messages := None |}.

(** The messages of a response, [None] when the body is not a message list. *)
Definition responseMessages (r : Response) : option (list FormattedMessage) :=
  match body r with
  | MessagesResult b => Some (mb_messages b)
  | _ => None
  end.

Definition responseWarning (r : Response) : option Warning :=
  match body r with
  | MessagesResult b => mb_warning b
  | _ => None
  end.

(** The listener events that write the ledger. *)
Inductive LedgerEvent : Type :=
| UpsertEvent (sessionName : string) (messages : list WAMessage)
| HistoryEvent (sessionName : string) (history : History).

Definition applyEvent (st : State) (ev : LedgerEvent) : State :=
  match ev with
  | UpsertEvent sessionName messages => onMessagesUpsert sessionName messages st
  | HistoryEvent sessionName history => fst (onMessagingHistorySet sessionName history st)
  end.



(** *** Sample inputs *)

(** The decimal numeral of a number below one thousand. *)
Definition numeral (n : nat) : string :=
  let digit d := String (ascii_of_nat (48 + d)) EmptyString in
  (if (100 <=? n)%nat then digit (n / 100)%nat else "") +:+
  (if (10 <=? n)%nat then digit ((n / 10) mod 10)%nat else "") +:+
  digit (n mod 10)%nat.

Definition sampleJid : string := "911234567890@s.whatsapp.net".

(** Message number [n] of the sample chat, sent at second [ts]. *)
Definition sampleMessage (n : nat) (ts : Z) : WAMessage :=
  plainMessage sampleJid ("MSG" +:+ numeral n) false (TsNumber (Num ts)).

(** A full array: messages 0 to 99 in arrival order.  Message 0 arrived
    first and carries the latest timestamp; the others carry 1001 to 1099. *)
Definition sampleLedger : list WAMessage :=
  sampleMessage 0 5000 ::
  map (fun n => sampleMessage n (1000 + Z.of_nat n)) (seq 1 99).


Definition sampleEvent : Feed * WAMessage := (HistoryChat, sampleMessage 500 1).

(** A registry state with one connected session and its caches. *)
Definition sampleState : State :=
  {| sockets := {[ "main" := connectedSock ]};
     qrCodes := {[ "main" := "iVBORw0KGgo" ]};
     sessionChats := {[ "main" := [(sampleJid, rawChat sampleJid 2)] ]};
     sessionMessages := {[ "main" := [(sampleJid, [sampleMessage 1 1001])] ]};
     timers := [] |}.

Definition closeUpdate (code : option Z) : ConnectionUpdate :=
  {| connection := Some Close; qr := None; statusCode := code |}.

(** The raw chat [{ id: chatId, name: name, unread: n }]. *)
Definition namedChat (chatId name : string) (n : Z) : Chat :=
  {| chat_id := Some chatId; chat_jid := None; chat_name := Some name;
     chat_notify := None; chat_pushName := None; chat_subject := None;
     chat_unreadCount := None; chat_count := None; chat_unread := Some n;
     chat_conversationTimestamp := TsUndefined; chat_pinned := false;
     chat_messages := None; chat_raw_messages := None |}.

(** The merged map after a record named "Unknown" and a record with a real
    name for the same chat. *)
Definition sampleMerged : JsMap.t FormattedChat :=
  match mergeAll connectedSock
          [namedChat sampleJid "Unknown" 1; namedChat sampleJid "Asha" 2] JsMap.empty with
  | Ok m => m
  | Throw _ => JsMap.empty
  end.

(** A socket whose contact table resolves the anonymous id [B@lid] to the
    phone [A]. *)
Definition resolvingSock : Sock :=
  {| sock_user := Some "user";
     sock_contacts := Some {[ "B@lid" := {| contact_name := None; contact_notify := None;
                                            contact_pushName := None;
                                            contact_phoneNumber := Some "A" |} ]};
     sock_messages := None |}.

(** The merged map is keyed by canonical id, once per id. *)
Definition mergedWf (m : JsMap.t FormattedChat) : Prop :=
  NoDup (JsMap.keys m) /\ Forall (fun kv => fc_id (snd kv) = fst kv) m.

(** The unread count held for a canonical id, 0 when there is no record. *)
Definition unreadAt (canonicalId : string) (m : JsMap.t FormattedChat) : Z :=
  match JsMap.get canonicalId m with
  | Some r => fc_unreadCount r
  | None => 0
  end.

(** The number spelt by a string of decimal digits, continuing from [acc]. *)
Fixpoint decimalFrom (acc : Z) (s : string) : Z :=
  match s with
  | EmptyString => acc
  | String c rest => decimalFrom (10 * acc + digitVal c) rest
  end.

Definition decimalValue (s : string) : Z := decimalFrom 0 s.

(** A message whose timestamp is the text [abc], and a ledger that holds a
    timestamped message followed by it. *)
Definition textTsMessage : WAMessage :=
  plainMessage sampleJid "MSGX" false (TsString "abc").

Definition textTsState : State :=
  {| sockets := {[ "main" := connectedSock ]};
     qrCodes := ∅;
     sessionChats := ∅;
     sessionMessages := {[ "main" := [(sampleJid, [sampleMessage 1 1001; textTsMessage])] ]};
     timers := [] |}.

(** A session whose ledger holds the full sample array. *)
Definition fullState : State :=
  {| sockets := {[ "main" := connectedSock ]};
     qrCodes := ∅;
     sessionChats := ∅;
     sessionMessages := {[ "main" := [(sampleJid, sampleLedger)] ]};
     timers := [] |}.

(** [Date.now()] of the samples, and two messages of the hour before it:
    the contact's message and, a thousand seconds later, the session's own
    reply. *)
Definition sampleNow : Z := 1700000000000.

Definition incoming : WAMessage :=
  plainMessage sampleJid "MSGB" false (TsNumber (Num 1699998000)).

Definition reply : WAMessage :=
  plainMessage sampleJid "MSGA" true (TsNumber (Num 1699999000)).

(** A connected session whose ledger holds the two in arrival order. *)
Definition conversationState : State :=
  {| sockets := {[ "main" := connectedSock ]};
     qrCodes := ∅;
     sessionChats := ∅;
     sessionMessages := {[ "main" := [(sampleJid, [incoming; reply])] ]};
     timers := [] |}.

(** A connected session with empty caches. *)
Definition idleState : State :=
  {| sockets := {[ "main" := connectedSock ]};
     qrCodes := ∅; sessionChats := ∅; sessionMessages := ∅; timers := [] |}.

(** A text message. *)
Definition textMessage (jid msgId : string) (fromMe : bool) (ts : JsTs) (text : string)
    : WAMessage :=
  {| msg_key := Some {| key_remoteJid := Some jid; key_id := Some msgId;
                        key_fromMe := fromMe |};
     msg_messageTimestamp := ts; msg_timestamp := TsUndefined;
     msg_message := Some {| conversation := Some text; extendedText := None;
                            imageMessage := None; videoMessage := None;
                            audioMessage := false; documentMessage := None;
                            stickerMessage := false;
                            content_messageTimestamp := TsUndefined |};
     msg_pushName := None |}.

(** Three messages embedded in a chat of the directory: two history-sync
    wrappers, the first with its seconds as text, and a bare stub. *)
Definition embedded1 : WAMessage :=
  textMessage sampleJid "EMB1" false (TsString "1699990000") "hello".
Definition embedded2 : WAMessage :=
  textMessage sampleJid "EMB2" true (TsNumber (Num 1699990060)) "hi".



(** The live fetch produced no message: it rejected, or resolved to nothing
    or to an empty array. *)
Definition yieldsNothing (load : LoadResult) : bool :=
  match load with
  | LoadRejects _ => true
  | LoadResolves (Some (_ :: _)) => false
  | LoadResolves _ => true
  end.

(** A directory whose chat embeds 101 wrapped messages, with an empty
    ledger. *)
Definition crowdedChat : Chat :=
  {| chat_id := Some sampleJid; chat_jid := None; chat_name := None;
     chat_notify := None; chat_pushName := None; chat_subject := None;
     chat_unreadCount := None; chat_count := None; chat_unread := None;
     chat_conversationTimestamp := TsUndefined; chat_pinned := false;
     chat_messages :=
       Some (map (fun n => EntryWrapped (sampleMessage n (1000 + Z.of_nat n)))
                 (seq 0 101));
     chat_raw_messages := None |}.

Definition crowdedState : State :=
  {| sockets := {[ "main" := connectedSock ]};
     qrCodes := ∅;
     sessionChats := {[ "main" := [(sampleJid, crowdedChat)] ]};
     sessionMessages := ∅;
     timers := [] |}.

(* ===================================================================== *)
(** ** Authentication, session status and session teardown *)
(* ===================================================================== *)

(** What the middleware does with a request: it hands it on ([next()]) or
    answers it. *)
Inductive AuthResult : Type :=
| AuthNext
| AuthRejected (code : Z) (error : string).

(** [authenticate]: [authHeader] is [req.headers.authorization] and
    [secretToken] is [SECRET_TOKEN]. *)
Definition authenticate (secretToken : string) (authHeader : option string)
    : AuthResult :=
  match authHeader with
  | Some h =>
      if negb (strTruthy (Some h)) || negb (String.prefix "Bearer " h)
      then AuthRejected 401 "Unauthorized: Missing or invalid token"
      else
        let token := substring 7 (String.length h - 7) h in
        if String.eqb token secretToken then AuthNext
        else AuthRejected 401 "Unauthorized: Invalid token"
  | None => AuthRejected 401 "Unauthorized: Missing or invalid token"
  end.

(** The answer of [GET /api/:session/status-session]: [CONNECTED] with the
    phone number, [connecting] or [disconnected]. *)
Inductive SessionStatus : Type :=
| StatusConnected (phone : string)
| StatusConnecting
| StatusDisconnected.

(** The handler of the status route.  The string of [sock_user] is
    [sock.user.id]; [credsExist] is [fs.existsSync(credsPath)]. *)
Definition statusSession (credsExist : bool) (sessionName : string) (st : State)
    : SessionStatus :=
  match sockets st !! sessionName with
  | Some sock =>
      match sock_user sock with
      | Some userId => StatusConnected (splitHead ":" userId)
      | None => StatusConnecting
      end
  | None =>
      match qrCodes st !! sessionName with
      | Some _ => StatusConnecting
      | None => if credsExist then StatusConnecting else StatusDisconnected
      end
  end.

(** The handler of [DELETE /api/:session/close-session] on the registries.
    [logout] is what [sock.logout()] does, [dirExists] is
    [fs.existsSync(sessionDir)] and [removeDir] is what [fs.rmSync] does.
    The result carries the registries afterwards and the exception that
    left the handler before it answered, if any; otherwise the answer is
    [{ success: true, message: 'Session closed' }]. *)
Definition closeSession (logout removeDir : Result unit) (dirExists : bool)
    (sessionName : string) (st : State) : State * option JsError :=
  let st1 :=
    match sockets st !! sessionName with
    | Some _ =>
        match logout with
        | Ok _ => setSockets st (delete sessionName (sockets st))
        | Throw _ => st
        end
    | None => st
    end in
  match (if dirExists then removeDir else Ok tt) with
  | Throw e => (st1, Some e)
  | Ok _ => (setQrCodes st1 (delete sessionName (qrCodes st1)), None)
  end.

(* ===================================================================== *)
(** ** The [chats.update] listener and the [getMessage] callback *)
(* ===================================================================== *)

(** [if (chat.id) chatMap.set(chat.id, chat)] *)
Definition updateChat (chatMap : JsMap.t Chat) (chat : Chat) : JsMap.t Chat :=
  match chat_id chat with
  | Some chatId => if strTruthy (Some chatId) then JsMap.set chatId chat chatMap else chatMap
  | None => chatMap
  end.

(** The listener of [chats.update]: the session's directory is created when
    absent and every chat with an id is stored under it. *)
Definition onChatsUpdate (sessionName : string) (chats : list Chat) (st : State)
    : State :=
  let chatMap := sessionDirectory sessionName st in
  setSessionChats st
    (<[sessionName := fold_left updateChat chats chatMap]> (sessionChats st)).

(** [{ conversation: 'Message' }] *)
Definition placeholderContent : MessageContent :=
  {| conversation := Some "Message"; extendedText := None; imageMessage := None;
     videoMessage := None; audioMessage := false; documentMessage := None;
     stickerMessage := false; content_messageTimestamp := TsUndefined |}.

(** The callback [getMessage] handed to the socket: the content of the first
    ledger message of the chat with the key's id, the placeholder when there
    is none.  [None] is the [undefined] content of a stored message. *)
Definition getMessage (sessionName : string) (key : option MessageKey) (st : State)
    : option MessageContent :=
  match key with
  | Some k =>
      match key_remoteJid k with
      | Some remoteJid =>
          if strTruthy (Some remoteJid) then
            match sessionMessages st !! sessionName with
            | Some messageStore =>
                match JsMap.get remoteJid messageStore with
                | Some chatMessages =>
                    match find (fun m => bool_decide (keyId m = key_id k)) chatMessages with
                    | Some found => msg_message found
                    | None => Some placeholderContent
                    end
                | None => Some placeholderContent
                end
            | None => Some placeholderContent
            end
          else Some placeholderContent
      | None => Some placeholderContent
      end
  | None => Some placeholderContent
  end.

(* ===================================================================== *)
(** ** The contact table of the fallback store *)
(* ===================================================================== *)

(** A contact as an event delivers it: its id and the fields it carries.
    A field that the object does not have is [None]. *)
Record ContactEvent : Type := {
  ce_id : string;
  ce_fields : Contact
}.

(** [{}] *)
Definition emptyContact : Contact :=
  {| contact_name := None; contact_notify := None; contact_pushName := None;
     contact_phoneNumber := None |}.

(** [Object.assign(target, source)]: every field that [source] has replaces
    the field of [target]. *)
Definition assignContact (target source : Contact) : Contact :=
  let pick (a b : option string) := match b with Some v => Some v | None => a end in
  {| contact_name := pick (contact_name target) (contact_name source);
     contact_notify := pick (contact_notify target) (contact_notify source);
     contact_pushName := pick (contact_pushName target) (contact_pushName source);
     contact_phoneNumber := pick (contact_phoneNumber target) (contact_phoneNumber source) |}.

(** The store's listener of [contacts.upsert]. *)
Definition contactsUpsert (contactsList : list ContactEvent)
    (contacts : gmap string Contact) : gmap string Contact :=
  fold_left (fun m contact =>
               <[ce_id contact :=
                   assignContact (default emptyContact (m !! ce_id contact))
                                 (ce_fields contact)]> m)
            contactsList contacts.

(** The store's listener of [contacts.update]: an unknown id is ignored. *)
Definition contactsUpdate (updates : list ContactEvent)
    (contacts : gmap string Contact) : gmap string Contact :=
  fold_left (fun m update =>
               match m !! ce_id update with
               | Some stored => <[ce_id update := assignContact stored (ce_fields update)]> m
               | None => m
               end)
            updates contacts.



(* ===================================================================== *)
(** ** Group participants: [GET /api/:session/group-info/:groupId] *)
(* ===================================================================== *)

(** A participant of the group metadata and the record built for it. *)
Record Participant : Type := {
  participant_id : string;
  participant_admin : option string
}.

Record ParticipantInfo : Type := {
  pi_id : string;
  pi_phone : option string;
  pi_name : option string;
  pi_admin : bool
}.

(** [x || null] on a value that is a string or [undefined]. *)
Definition orNull (x : option string) : option string :=
  if strTruthy x then x else None.

(** The phone number read off a participant id. *)
Definition participantPhone (participantId : string) : option string :=
  if includes participantId "@s.whatsapp.net"
  then Some (splitHead "@" (splitHead ":" participantId))
  else if includes participantId "@lid" then matchLid participantId
  else None.

(** The last truthy [pushName] of a chat's ledger array. *)
Definition lastPushName (messages : list WAMessage) : option string :=
  match find (fun m => strTruthy (msg_pushName m)) (rev messages) with
  | Some m => msg_pushName m
  | None => None
  end.

Section GroupInfo.
(** [contact.verifiedName] of the contact stored under a jid. *)
Variable verifiedName : string -> option string.

(** The helper [getContactName]. *)
Definition getContactName (sock : Sock) (jid : string) : option string :=
  match lookupContact sock jid with
  | Some c =>
      orNull (orOpt (orOpt (orOpt (contact_name c) (contact_notify c))
                           (contact_pushName c))
                    (verifiedName jid))
  | None => None
  end.

(** The body of the loop over the participants. *)
Definition participantInfo (sock : Sock) (sessionName : string) (st : State)
    (participant : Participant) : ParticipantInfo :=
  let participantId := participant_id participant in
  let phone := participantPhone participantId in
  let phoneJid :=
    match phone with
    | Some p => p +:+ "@s.whatsapp.net"
    | None => "null@s.whatsapp.net"
    end in
  let name0 := getContactName sock participantId in
  let name1 :=
    if negb (strTruthy name0) && includes participantId "@lid" && strTruthy phone
    then getContactName sock phoneJid
    else name0 in
  let name2 :=
    if negb (strTruthy name1) then
      match sessionMessages st !! sessionName with
      | Some messageStore =>
          let messages :=
            match JsMap.get participantId messageStore with
            | Some l => l
            | None => chatArray phoneJid messageStore
            end in
          match lastPushName messages with
          | Some n => Some n
          | None => name1
          end
      | None => name1
      end
    else name1 in
  let name3 :=
    if negb (strTruthy name2) && strTruthy phone
    then match phone with
         | Some p => Some ("+" +:+ p)
         | None => name2
         end
    else name2 in
  {| pi_id := participantId;
     pi_phone := phone;
     pi_name := name3;
     pi_admin :=
       bool_decide (participant_admin participant = Some "admin") ||
       bool_decide (participant_admin participant = Some "superadmin") |}.
End GroupInfo.

(* ===================================================================== *)
(** ** Sending: [POST /api/:session/send-message] *)
(* ===================================================================== *)

(** The fields of the request body. *)
Record SendRequest : Type := {
  req_phone : option string;
  req_message : option string;
  req_chatId : option string;
  req_chatJid : option string;
  req_isGroup : bool
}.

(** [s.replace(/[^\d]/g, '')] *)
Fixpoint digitsOnly (s : string) : string :=
  match s with
  | EmptyString => EmptyString
  | String c rest =>
      if isDigit c then String c (digitsOnly rest) else digitsOnly rest
  end.

(** Where the message goes: a jid taken from the request as it is, a jid
    built from a phone number, or an answer without sending. *)
Inductive Target : Type :=
| TargetJid (jid : string)
| TargetPhone (cleanPhone : string) (jid : string)
| TargetInvalidLength (digits : nat)
| TargetMissing.

(** The phone branch: the digits of the number, which must be ten to
    fifteen. *)
Definition phoneTarget (phone : option string) : Target :=
  match phone with
  | Some p =>
      if strTruthy (Some p) then
        let cleanPhone := removeFirst "@s.whatsapp.net" (digitsOnly p) in
        if ((String.length cleanPhone <? 10) || (15 <? String.length cleanPhone))%nat
        then TargetInvalidLength (String.length cleanPhone)
        else TargetPhone cleanPhone (cleanPhone +:+ "@s.whatsapp.net")
      else TargetMissing
  | None => TargetMissing
  end.

(** [targetJid] when [targetJid && targetJid.includes('@')], where
    [targetJid = chatJid || chatId]. *)
Definition directTarget (r : SendRequest) : option string :=
  match orOpt (req_chatJid r) (req_chatId r) with
  | Some t => if strTruthy (Some t) && includes t "@" then Some t else None
  | None => None
  end.

Definition sendTarget (r : SendRequest) : Target :=
  match directTarget r with
  | Some jid => TargetJid jid
  | None =>
      match req_chatId r with
      | Some chatId =>
          if req_isGroup r && strTruthy (Some chatId) then TargetJid chatId
          else phoneTarget (req_phone r)
      | None => phoneTarget (req_phone r)
      end
  end.

(** What [sock.onWhatsApp(jid)] does: it rejects, or resolves to a list
    whose first entry tells whether the number is registered ([false] also
    stands for an empty or missing list). *)
Inductive VerifyResult : Type :=
| VerifyRejects
| VerifyResolves (registered : bool).

(** What [sock.sendMessage(jid, { text })] does: it rejects with an error
    message, or resolves to the sent message or to nothing. *)
Inductive SendResult : Type :=
| SendRejects (message : string)
| SendResolves (result : option WAMessage).

Inductive SendBody : Type :=
| SendError (error : string)
| InvalidPhoneLength (digits : nat)
| NotRegistered (cleanPhone : string)
| Sent (messageId : option string) (jid : string).

(** The response and the calls made to [sock.sendMessage]. *)
Record SendOutcome : Type := {
  send_status : Z;
  send_body : SendBody;
  send_calls : list (string * string)
}.

(** The message of the 500 response. *)
Definition describeSendError (message : string) : string :=
  if includes message "not-authorized"
  then "Session not authorized. Please reconnect your WhatsApp session."
  else if includes message "rate limit"
  then "Rate limit exceeded. Please wait before sending more messages."
  else if includes message "not found" || includes message "404"
  then "Recipient not found on WhatsApp."
  else message.

(** The call of [sock.sendMessage] and the answer built from its result. *)
Definition deliver (send : string -> string -> SendResult) (jid message : string)
    : SendOutcome :=
  match send jid message with
  | SendRejects e =>
      {| send_status := 500; send_body := SendError (describeSendError e);
         send_calls := [(jid, message)] |}
  | SendResolves result =>
      match result with
      | Some sent =>
          match msg_key sent with
          | Some key =>
              {| send_status := 200; send_body := Sent (key_id key) jid;
                 send_calls := [(jid, message)] |}
          | None =>
              {| send_status := 500;
                 send_body := SendError
                   (describeSendError "Message send returned invalid response");
                 send_calls := [(jid, message)] |}
          end
      | None =>
          {| send_status := 500;
             send_body := SendError
               (describeSendError "Message send returned invalid response");
             send_calls := [(jid, message)] |}
      end
  end.

(** The handler of the send route. *)
Definition sendMessage (onWhatsApp : string -> VerifyResult)
    (send : string -> string -> SendResult) (sessionName : string)
    (r : SendRequest) (st : State) : SendOutcome :=
  match connected st sessionName with
  | None =>
      {| send_status := 400; send_body := SendError "Session not connected";
         send_calls := [] |}
  | Some _ =>
      match req_message r with
      | Some message =>
          if strTruthy (Some message) then
            match sendTarget r with
            | TargetJid jid => deliver send jid message
            | TargetPhone cleanPhone jid =>
                match onWhatsApp jid with
                | VerifyResolves false =>
                    {| send_status := 400; send_body := NotRegistered cleanPhone;
                       send_calls := [] |}
                | _ => deliver send jid message
                end
            | TargetInvalidLength n =>
                {| send_status := 400; send_body := InvalidPhoneLength n;
                   send_calls := [] |}
            | TargetMissing =>
                {| send_status := 400;
                   send_body := SendError
                     "Either phone or chatId (with isGroup) is required";
                   send_calls := [] |}
            end
          else
            {| send_status := 400; send_body := SendError "Message is required";
               send_calls := [] |}
      | None =>
          {| send_status := 400; send_body := SendError "Message is required";
             send_calls := [] |}
      end
  end.

(* ===================================================================== *)
(** ** Runs of the connection listener *)
(* ===================================================================== *)

Section LifecycleRuns.
Variable loggedOut : Z.
Variable qrBase64 : string -> Result string.

(** A run of connection updates: each one is delivered to the listener that
    [startSocket] registered for a session name and its socket. *)
Definition onConnectionUpdates (events : list (string * Sock * ConnectionUpdate))
    (st : State) : State :=
  fold_left (fun s e =>
               onConnectionUpdate loggedOut qrBase64 (fst (fst e)) (snd (fst e)) (snd e) s)
            events st.
End LifecycleRuns.

Definition openUpdate (code : option string) : ConnectionUpdate :=
  {| connection := Some Open; qr := code; statusCode := None |}.

(** A socket that has paired: [sock.user.id] is the phone number and the
    device. *)
Definition pairedSock : Sock :=
  {| sock_user := Some "911234567890:12@s.whatsapp.net"; sock_contacts := None;
     sock_messages := None |}.

(** A session that shows a pairing code and is not connected yet. *)
Definition pairingState : State :=
  {| sockets := {[ "main" := {| sock_user := None; sock_contacts := None;
                                sock_messages := None |} ]};
     qrCodes := {[ "main" := "iVBORw0KGgo" ]};
     sessionChats := ∅;
     sessionMessages := {[ "main" := [(sampleJid, [sampleMessage 1 1001])] ]};
     timers := [] |}.

(* ===================================================================== *)
(** ** Invariants of the ledger *)
(* ===================================================================== *)

(** A property of every chat array of a ledger, and of every ledger of the
    registry. *)
Definition storeAll (P : list WAMessage -> Prop) (store : JsMap.t (list WAMessage))
    : Prop :=
  forall jid l, JsMap.get jid store = Some l -> P l.

Definition ledgerAll (P : list WAMessage -> Prop) (st : State) : Prop :=
  forall sessionName store,
    sessionMessages st !! sessionName = Some store -> storeAll P store.

(** The ids of an array are pairwise distinct; a missing id counts as an id. *)
Definition uniqueIds (l : list WAMessage) : Prop := NoDup (map keyId l).

Definition ledgerUnique (st : State) : Prop := ledgerAll uniqueIds st.

(** The raw chat [{ id: chatId, name: name, unreadCount: n }] of a
    [chats.update] event. *)
Definition updatedChat (chatId name : string) (n : Z) : Chat :=
  {| chat_id := Some chatId; chat_jid := None; chat_name := Some name;
     chat_notify := None; chat_pushName := None; chat_subject := None;
     chat_unreadCount := Some n; chat_count := None; chat_unread := None;
     chat_conversationTimestamp := TsUndefined; chat_pinned := false;
     chat_messages := None; chat_raw_messages := None |}.

(* ===================================================================== *)
(** ** Vocabulary of the chat list *)
(* ===================================================================== *)

(** The time of a formatted chat, 0 when it has none. *)
Definition chatTime (f : FormattedChat) : Z :=
  match fc_lastMessageTime f with
  | Some t => t
  | None => 0
  end.

Definition hasTime (f : FormattedChat) : Prop := fc_lastMessageTime f <> None.

(** [a] is no later than [b]; no time at all is earlier than every time. *)
Definition notAfter (a b : option Z) : Prop :=
  forall t, a = Some t -> exists t', b = Some t' /\ t <= t'.

(** The raw chat [{ id: chatId, unread: n, conversationTimestamp: seconds }]. *)
Definition timedChat (chatId : string) (n seconds : Z) : Chat :=
  {| chat_id := Some chatId; chat_jid := None; chat_name := None;
     chat_notify := None; chat_pushName := None; chat_subject := None;
     chat_unreadCount := None; chat_count := None; chat_unread := Some n;
     chat_conversationTimestamp := TsNumber (Num seconds); chat_pinned := false;
     chat_messages := None; chat_raw_messages := None |}.

(* ===================================================================== *)
(** ** Vocabulary of the contact table and of sending *)
(* ===================================================================== *)



(** A contact event that names a contact without a phone number. *)
Definition nameEvent (id name : string) : ContactEvent :=
  {| ce_id := id;
     ce_fields := {| contact_name := Some name; contact_notify := None;
                     contact_pushName := None; contact_phoneNumber := None |} |}.


(** A request to send a text to a phone number. *)
Definition phoneRequest (phone message : string) : SendRequest :=
  {| req_phone := Some phone; req_message := Some message; req_chatId := None;
     req_chatJid := None; req_isGroup := false |}.

(** [sendMessage] resolving to a message with the given id. *)
Definition sendsWithId (msgId : string) (jid text : string) : SendResult :=
  SendResolves (Some (plainMessage jid msgId true TsUndefined)).

(** A timestamp that both copies of the server read the same way: a number
    other than 0 and NaN, a [Long], or seconds written in decimal. *)
Definition simpleTs (m : WAMessage) : bool :=
  match msg_messageTimestamp m with
  | TsNumber n => numTruthy n
  | TsString s => decimalString s
  | TsLong _ => true
  | TsUndefined => false
  end.

(** A connection update that reports the socket open. *)
Definition reopened : ConnectionUpdate :=
  {| connection := Some Open; qr := None; statusCode := None |}.

(* ===================================================================== *)
(** ** Starting a session: [POST /api/:session/start-session] *)
(* ===================================================================== *)






(* ===================================================================== *)
(** ** Lists, sorting and ordered maps *)
(* ===================================================================== *)

Section SortFacts.
Context {A : Type} (cmp : A -> A -> JsNum).

Lemma insertSorted_perm (x : A) (l : list A) :
  Permutation (insertSorted cmp x l) (x :: l).
Proof.
  induction l as [|e l IH]; simpl.
  - reflexivity.
  - destruct (numNeg (cmp x e)).
    + reflexivity.
    + rewrite IH. apply perm_swap.
Qed.

Lemma fold_insert_perm (l acc : list A) :
  Permutation (fold_left (fun a x => insertSorted cmp x a) l acc) (acc ++ l).
Proof.
  revert acc. induction l as [|x l IH]; intros acc; simpl.
  - rewrite app_nil_r. reflexivity.
  - rewrite IH, insertSorted_perm.
    change (x :: acc) with ([x] ++ acc).
    rewrite (Permutation_app_comm [x] acc), <- app_assoc. reflexivity.
Qed.

Lemma jsSort_perm (l : list A) : Permutation (jsSort cmp l) l.
Proof. unfold jsSort. rewrite fold_insert_perm. reflexivity. Qed.

Lemma jsSort_length (l : list A) : length (jsSort cmp l) = length l.
Proof. apply Permutation_length, jsSort_perm. Qed.

Lemma jsSort_nil : jsSort cmp [] = [].
Proof. reflexivity. Qed.

Lemma jsSort_singleton (x : A) : jsSort cmp [x] = [x].
Proof. reflexivity. Qed.

(** Sortedness for a comparator that orders by an integer key on the
    elements satisfying [P]. *)
Variable key : A -> Z.
Variable P : A -> Prop.
Hypothesis cmp_key :
  forall x e, P x -> P e -> numNeg (cmp x e) = (key x <? key e).

Lemma insertSorted_sorted (x : A) (l : list A) :
  P x -> Forall P l ->
  StronglySorted (fun a b => key a <= key b) l ->
  StronglySorted (fun a b => key a <= key b) (insertSorted cmp x l).
Proof using cmp_key.
  intros Px HP Hs. induction Hs as [|e l Hs IH He]; simpl.
  - constructor; [constructor | constructor].
  - inversion HP as [|? ? Pe HP']; subst.
    rewrite (cmp_key x e Px Pe).
    destruct (Z.ltb_spec (key x) (key e)) as [Hlt|Hge].
    + constructor.
      * constructor; assumption.
      * constructor; [lia|].
        eapply List.Forall_impl; [|exact He]. simpl. intros; lia.
    + constructor.
      * apply IH; assumption.
      * eapply Permutation_Forall.
        -- symmetry. apply insertSorted_perm.
        -- constructor; [lia | assumption].
Qed.

Lemma fold_insert_sorted (l acc : list A) :
  Forall P l -> Forall P acc ->
  StronglySorted (fun a b => key a <= key b) acc ->
  StronglySorted (fun a b => key a <= key b)
    (fold_left (fun a x => insertSorted cmp x a) l acc).
Proof using cmp_key.
  revert acc. induction l as [|x l IH]; intros acc Hl Hacc Hs; simpl.
  - assumption.
  - inversion Hl; subst. apply IH; [assumption| |].
    + eapply Permutation_Forall.
      * symmetry. apply insertSorted_perm.
      * constructor; assumption.
    + apply insertSorted_sorted; assumption.
Qed.

Lemma jsSort_sorted (l : list A) :
  Forall P l -> StronglySorted (fun a b => key a <= key b) (jsSort cmp l).
Proof using cmp_key.
  intros Hl. apply fold_insert_sorted; [assumption | constructor | constructor].
Qed.
End SortFacts.

(* ===================================================================== *)
(** ** The ledger: cap, eviction and idempotence *)
(* ===================================================================== *)

Lemma keyId_normalizeTimestamp (m : WAMessage) :
  keyId (normalizeTimestamp m) = keyId m.
Proof.
  unfold normalizeTimestamp.
  destruct (msg_messageTimestamp m); try reflexivity.
  destruct (tsTruthy _); reflexivity.
Qed.

Lemma keyId_storedForm (e : Feed * WAMessage) : keyId (storedForm e) = keyId (snd e).
Proof.
  unfold storedForm. destruct (fst e); try reflexivity.
  apply keyId_normalizeTimestamp.
Qed.

Lemma idExists_In (stored : list WAMessage) (i : option string) :
  idExists stored i = true <-> In i (map keyId stored).
Proof.
  unfold idExists. rewrite existsb_exists, in_map_iff. split.
  - intros [m [Hin Hd]]. apply bool_decide_eq_true in Hd. eauto.
  - intros [m [Heq Hin]]. exists m. split; [assumption|].
    apply bool_decide_eq_true. assumption.
Qed.

Lemma idExists_false (stored : list WAMessage) (i : option string) :
  idExists stored i = false <-> ~ In i (map keyId stored).
Proof.
  rewrite <- idExists_In. destruct (idExists stored i); split; congruence.
Qed.


Lemma tl_app_nonempty {A : Type} (l k : list A) : l <> [] -> tl (l ++ k) = tl l ++ k.
Proof. destruct l; [congruence | reflexivity]. Qed.

Lemma pushCapped_below (stored : list WAMessage) (m : WAMessage) :
  (length stored < 100)%nat -> pushCapped stored m = stored ++ [m].
Proof.
  intros H. unfold pushCapped, ledgerCap. rewrite length_app. simpl.
  destruct (Nat.ltb_spec 100 (length stored + 1)); [lia | reflexivity].
Qed.

Lemma pushCapped_full (stored : list WAMessage) (m : WAMessage) :
  (100 <= length stored)%nat -> pushCapped stored m = tl stored ++ [m].
Proof.
  intros H. unfold pushCapped, ledgerCap. rewrite length_app. simpl.
  destruct (Nat.ltb_spec 100 (length stored + 1)); [|lia].
  apply tl_app_nonempty. destruct stored; [simpl in H; lia | congruence].
Qed.


Lemma pushCapped_snoc (stored : list WAMessage) (m : WAMessage) :
  pushCapped stored m = stored ++ [m] \/ pushCapped stored m = tl stored ++ [m].
Proof.
  destruct (Nat.lt_ge_cases (length stored) 100) as [Hlt|Hge].
  - left. apply pushCapped_below. assumption.
  - right. apply pushCapped_full. assumption.
Qed.

Lemma appendVia_present (stored : list WAMessage) (e : Feed * WAMessage) :
  idExists stored (keyId (snd e)) = true -> appendVia stored e = stored.
Proof.
  intros H. unfold appendVia, ledgerAppend, ledgerAppendNormalized.
  destruct (fst e); rewrite H; reflexivity.
Qed.

Lemma appendVia_fresh (stored : list WAMessage) (e : Feed * WAMessage) :
  idExists stored (keyId (snd e)) = false ->
  appendVia stored e = pushCapped stored (storedForm e).
Proof.
  intros H. unfold appendVia, ledgerAppend, ledgerAppendNormalized, storedForm.
  destruct (fst e); rewrite H; reflexivity.
Qed.






Lemma appendVia_holds_id (stored : list WAMessage) (e : Feed * WAMessage) :
  idExists (appendVia stored e) (keyId (snd e)) = true.
Proof.
  destruct (idExists stored (keyId (snd e))) eqn:E.
  - rewrite appendVia_present; assumption.
  - rewrite appendVia_fresh by assumption. apply idExists_In.
    destruct (pushCapped_snoc stored (storedForm e)) as [-> | ->];
      rewrite map_app, in_app_iff; right; left; apply keyId_storedForm.
Qed.

Lemma NoDup_tl {A : Type} (l : list A) : NoDup l -> NoDup (tl l).
Proof. destruct l; simpl; [auto|]. intros H. inversion H; assumption. Qed.

Lemma appendVia_NoDup (stored : list WAMessage) (e : Feed * WAMessage) :
  NoDup (map keyId stored) -> NoDup (map keyId (appendVia stored e)).
Proof.
  intros Hnd. destruct (idExists stored (keyId (snd e))) eqn:E.
  - rewrite appendVia_present; assumption.
  - rewrite appendVia_fresh by assumption.
    assert (Hall : NoDup (map keyId (stored ++ [storedForm e]))).
    { rewrite map_app. simpl. apply NoDup_app. split; [assumption|]. split.
      - intros x Hx Hx'. apply list_elem_of_In in Hx, Hx'.
        destruct Hx' as [<- | []]. rewrite keyId_storedForm in Hx.
        apply idExists_false in E. contradiction.
      - apply NoDup_singleton. }
    destruct (pushCapped_snoc stored (storedForm e)) as [-> | ->]; [assumption|].
    destruct stored as [|a stored]; [assumption|].
    simpl in *. inversion Hall; assumption.
Qed.

Lemma countId_one (i : option string) (l : list WAMessage) :
  NoDup (map keyId l) -> In i (map keyId l) -> countId i l = 1%nat.
Proof.
  unfold countId. induction l as [|m l IH]; simpl; intros Hnd Hin; [contradiction|].
  inversion Hnd as [|? ? Hnotin Hnd']; subst.
  destruct (bool_decide (keyId m = i)) eqn:E.
  - apply bool_decide_eq_true in E. subst i. simpl. f_equal.
    apply length_zero_iff_nil.
    destruct (List.filter _ l) as [|x f] eqn:Hf; [reflexivity|].
    assert (Hx : In x (List.filter (fun m0 => bool_decide (keyId m0 = keyId m)) l))
      by (rewrite Hf; left; reflexivity).
    apply filter_In in Hx. destruct Hx as [Hx Hd].
    apply bool_decide_eq_true in Hd.
    exfalso. apply Hnotin. apply list_elem_of_In. rewrite <- Hd.
    apply in_map. assumption.
  - apply bool_decide_eq_false in E. destruct Hin as [Heq|Hin]; [contradiction|].
    apply IH; assumption.
Qed.

(** *** Ordered maps *)

Section JsMapFacts.
Context {V : Type}.
Implicit Types (m : JsMap.t V) (k : string) (v : V).

Lemma get_set_eq k v m : JsMap.get k (JsMap.set k v m) = Some v.
Proof.
  induction m as [|[k' v'] m IH]; simpl.
  - rewrite String.eqb_refl. reflexivity.
  - destruct (String.eqb k k') eqn:E; simpl.
    + rewrite String.eqb_refl. reflexivity.
    + rewrite E. exact IH.
Qed.

Lemma get_set_ne k k' v m : k <> k' -> JsMap.get k' (JsMap.set k v m) = JsMap.get k' m.
Proof.
  intros Hne. induction m as [|[k0 v0] m IH]; simpl.
  - destruct (String.eqb_spec k' k); [congruence | reflexivity].
  - destruct (String.eqb_spec k k0) as [->|Hk]; simpl.
    + destruct (String.eqb_spec k' k0); [congruence | reflexivity].
    + destruct (String.eqb_spec k' k0); [reflexivity | exact IH].
Qed.

Lemma get_set k k' v m :
  JsMap.get k' (JsMap.set k v m) = if String.eqb k k' then Some v else JsMap.get k' m.
Proof.
  destruct (String.eqb_spec k k') as [->|Hne].
  - apply get_set_eq.
  - apply get_set_ne. assumption.
Qed.

Lemma has_get k m : JsMap.has k m = true <-> exists v, JsMap.get k m = Some v.
Proof.
  unfold JsMap.has. destruct (JsMap.get k m); split; eauto; try congruence.
  intros [v Hv]. congruence.
Qed.

Lemma get_In k v m : JsMap.get k m = Some v -> In (k, v) m.
Proof.
  induction m as [|[k' v'] m IH]; simpl; [congruence|].
  destruct (String.eqb_spec k k') as [->|Hne].
  - intros [= ->]. left. reflexivity.
  - intros H. right. apply IH. assumption.
Qed.

Lemma In_get k v m : NoDup (JsMap.keys m) -> In (k, v) m -> JsMap.get k m = Some v.
Proof.
  unfold JsMap.keys. induction m as [|[k' v'] m IH]; simpl; [contradiction|].
  intros Hnd Hin. inversion Hnd as [|? ? Hnotin Hnd']; subst.
  destruct Hin as [[= -> ->]|Hin].
  - rewrite String.eqb_refl. reflexivity.
  - destruct (String.eqb_spec k k') as [->|Hne].
    + exfalso. apply Hnotin. apply list_elem_of_In.
      change k' with (fst (k', v)). apply in_map. assumption.
    + apply IH; assumption.
Qed.

Lemma keys_set k v m :
  JsMap.keys (JsMap.set k v m)
  = if JsMap.has k m then JsMap.keys m else JsMap.keys m ++ [k].
Proof.
  unfold JsMap.keys, JsMap.has. induction m as [|[k' v'] m IH]; simpl.
  - reflexivity.
  - destruct (String.eqb_spec k k') as [->|Hne]; simpl.
    + reflexivity.
    + rewrite IH. destruct (JsMap.get k m); reflexivity.
Qed.
End JsMapFacts.

Lemma get_ensureChat (jid jid' : string) (store : JsMap.t (list WAMessage)) :
  JsMap.get jid' (ensureChat jid store)
  = if String.eqb jid jid' then Some (chatArray jid store) else JsMap.get jid' store.
Proof.
  unfold ensureChat, chatArray, JsMap.has.
  destruct (JsMap.get jid store) as [l|] eqn:E.
  - destruct (String.eqb_spec jid jid') as [<-|Hne]; [assumption | reflexivity].
  - rewrite get_set. reflexivity.
Qed.

Lemma chatArray_ensureChat (jid : string) (store : JsMap.t (list WAMessage)) :
  chatArray jid (ensureChat jid store) = chatArray jid store.
Proof.
  unfold chatArray at 1. rewrite get_ensureChat, String.eqb_refl. reflexivity.
Qed.

(** What each listener does to the array of the chat it writes. *)
Lemma storeUpsert_chatArray (store : JsMap.t (list WAMessage)) (chatId : string)
    (m : WAMessage) :
  chatArray chatId (storeUpsert store chatId m)
  = appendVia (chatArray chatId store) (LiveUpsert, m).
Proof.
  unfold storeUpsert. unfold chatArray at 1. rewrite get_set_eq.
  rewrite chatArray_ensureChat. reflexivity.
Qed.

















Lemma historyMessage_chatArray (store : JsMap.t (list WAMessage)) (m : WAMessage)
    (k : MessageKey) (jid : string) :
  msg_key m = Some k -> key_remoteJid k = Some jid ->
  strTruthy (Some jid) = true -> strTruthy (key_id k) = true ->
  chatArray jid (historyMessage store m)
  = appendVia (chatArray jid store) (HistoryRoot, m).
Proof.
  intros Hk Hj Hjt Hit. unfold historyMessage. rewrite Hk, Hj, Hjt, Hit. simpl.
  unfold chatArray at 1. rewrite get_set_eq, chatArray_ensureChat. reflexivity.
Qed.

Lemma historyEntry_chatArray (chatId : string) (store : JsMap.t (list WAMessage))
    (w : RawEntry) (m : WAMessage) (k : MessageKey) :
  unwrap w = Ok (Some m) -> msg_key m = Some k ->
  strTruthy (Some (orStr (key_remoteJid k) chatId)) = true ->
  strTruthy (key_id k) = true ->
  exists store' w',
    historyEntry chatId store w = Ok (store', w') /\
    chatArray (orStr (key_remoteJid k) chatId) store'
    = appendVia (chatArray (orStr (key_remoteJid k) chatId) store) (HistoryChat, m).
Proof.
  intros Hw Hk Hjt Hit. unfold historyEntry. rewrite Hw. simpl. rewrite Hk.
  unfold strTruthy in Hjt. rewrite Hjt, Hit. simpl.
  unfold appendVia, ledgerAppendNormalized. simpl.
  replace (keyId m) with (key_id k) by (unfold keyId; rewrite Hk; reflexivity).
  rewrite chatArray_ensureChat.
  destruct (idExists _ _) eqn:E; eexists; eexists; (split; [reflexivity|]).
  - apply chatArray_ensureChat.
  - unfold chatArray at 1. rewrite get_set_eq. reflexivity.
Qed.


Lemma set_same {V : Type} (k : string) (v : V) (m : JsMap.t V) :
  JsMap.get k m = Some v -> JsMap.set k v m = m.
Proof.
  induction m as [|[k' v'] m IH]; simpl; [discriminate|].
  destruct (String.eqb_spec k k') as [->|Hne].
  - intros [= ->]. reflexivity.
  - intros H. rewrite IH by assumption. reflexivity.
Qed.

(** A live message whose id the chat's array already holds leaves the whole
    ledger of the session as it is. *)
Lemma storeUpsert_present (store : JsMap.t (list WAMessage)) (chatId : string)
    (m : WAMessage) :
  idExists (chatArray chatId store) (keyId m) = true ->
  storeUpsert store chatId m = store.
Proof.
  intros H. unfold storeUpsert.
  assert (Hhas : exists l, JsMap.get chatId store = Some l).
  { unfold chatArray in H. destruct (JsMap.get chatId store); [eauto | discriminate]. }
  destruct Hhas as [l Hget].
  assert (He : ensureChat chatId store = store).
  { unfold ensureChat, JsMap.has. rewrite Hget. reflexivity. }
  rewrite He. unfold ledgerAppend. rewrite H. apply set_same.
  unfold chatArray. rewrite Hget. reflexivity.
Qed.

(** C3.  Appending is idempotent by message id: an append whose id is
    already in the chat's array leaves the array, and the session's whole
    ledger, as it is; so a second append with the same id changes nothing,
    the id is held by exactly one entry, and from an empty array the result
    is the single first message. *)
Theorem ledger_append_idempotent (store : JsMap.t (list WAMessage)) (chatId : string)
    (stored : list WAMessage) (e e' : Feed * WAMessage) :
  keyId (snd e') = keyId (snd e) ->
  chatArray chatId store = stored ->
  (idExists stored (keyId (snd e')) = true ->
   appendVia stored e' = stored /\ storeUpsert store chatId (snd e') = store) /\
  appendVia (appendVia stored e) e' = appendVia stored e /\
  (NoDup (map keyId stored) ->
   countId (keyId (snd e)) (appendVia (appendVia stored e) e') = 1%nat) /\
  appendVia (appendVia [] e) e' = [storedForm e].
Proof.
  intros Hsame Hstore.
  assert (Htwice : appendVia (appendVia stored e) e' = appendVia stored e).
  { apply appendVia_present. rewrite Hsame. apply appendVia_holds_id. }
  split; [|split; [|split]].
  - intros Hex. split; [apply appendVia_present; assumption|].
    apply storeUpsert_present. rewrite Hstore. assumption.
  - exact Htwice.
  - intros Hnd. rewrite Htwice. apply countId_one.
    + apply appendVia_NoDup. assumption.
    + apply idExists_In, appendVia_holds_id.
  - rewrite appendVia_present.
    + rewrite appendVia_fresh by reflexivity. reflexivity.
    + rewrite Hsame. apply appendVia_holds_id.
Qed.


Lemma ledger_append_idempotent_witness :
  (appendVia sampleLedger (LiveUpsert, sampleMessage 7 1) = sampleLedger /\
   storeUpsert [(sampleJid, sampleLedger)] sampleJid (sampleMessage 7 1)
   = [(sampleJid, sampleLedger)]) /\
  appendVia (appendVia sampleLedger sampleEvent) (LiveUpsert, sampleMessage 500 77)
  = appendVia sampleLedger sampleEvent /\
  countId (keyId (sampleMessage 500 1))
    (appendVia (appendVia sampleLedger sampleEvent) (LiveUpsert, sampleMessage 500 77))
  = 1%nat /\
  appendVia (appendVia [] sampleEvent) (LiveUpsert, sampleMessage 500 77)
  = [storedForm sampleEvent].
Proof.
  split.
  - pose proof (ledger_append_idempotent [(sampleJid, sampleLedger)] sampleJid
                  sampleLedger (LiveUpsert, sampleMessage 7 1)
                  (LiveUpsert, sampleMessage 7 1) eq_refl eq_refl) as [H1 _].
    apply H1. vm_compute. reflexivity.
  - pose proof (ledger_append_idempotent [(sampleJid, sampleLedger)] sampleJid
                  sampleLedger sampleEvent
                  (LiveUpsert, sampleMessage 500 77) eq_refl eq_refl) as [_ [H2 [H3 H4]]].
    split; [exact H2|]. split; [|exact H4].
    apply H3. apply (bool_decide_unpack _). vm_compute. reflexivity.
Defined.

(* ===================================================================== *)
(** ** The close transition *)
(* ===================================================================== *)

Section LifecycleFacts.
Variable loggedOut : Z.
Variable qrBase64 : string -> Result string.

Lemma storeQr_frame (sessionName : string) (update : ConnectionUpdate) (st : State) :
  let st1 := storeQr qrBase64 sessionName update st in
  sockets st1 = sockets st /\ sessionChats st1 = sessionChats st /\
  sessionMessages st1 = sessionMessages st /\ timers st1 = timers st /\
  forall other, other <> sessionName -> qrCodes st1 !! other = qrCodes st !! other.
Proof.
  unfold storeQr. destruct (qr update) as [code|]; [|auto 6].
  destruct (strTruthy (Some code)); [|auto 6].
  destruct (qrBase64 code); [|auto 6]. simpl.
  repeat split; try reflexivity.
  intros other Hne. apply lookup_insert_ne. congruence.
Qed.

(** C7.  On a close event the session's socket, pending QR code and chat
    directory are removed and the message ledger is left as it is.  When
    the reason is "logged out" no timer is armed; for any other reason, or
    none, exactly one timer is added, restarting the same session name
    after 3000 ms.  The entries of other sessions are untouched. *)
Theorem close_transition (sessionName : string) (sock : Sock)
    (update : ConnectionUpdate) (st : State) :
  connection update = Some Close ->
  let st' := onConnectionUpdate loggedOut qrBase64 sessionName sock update st in
  sockets st' !! sessionName = None /\
  qrCodes st' !! sessionName = None /\
  sessionChats st' !! sessionName = None /\
  sessionMessages st' = sessionMessages st /\
  (statusCode update = Some loggedOut -> timers st' = timers st) /\
  (statusCode update <> Some loggedOut ->
   timers st' = timers st ++ [(sessionName, 3000)]) /\
  (forall other, other <> sessionName ->
     sockets st' !! other = sockets st !! other /\
     qrCodes st' !! other = qrCodes st !! other /\
     sessionChats st' !! other = sessionChats st !! other).
Proof.
  intros Hclose. unfold onConnectionUpdate. rewrite Hclose.
  destruct (storeQr_frame sessionName update st) as [Hs [Hc [Hm [Ht Hq]]]].
  set (st1 := storeQr qrBase64 sessionName update st) in *.
  assert (Hcases :
    (statusCode update = Some loggedOut /\ shouldReconnect loggedOut (statusCode update) = false)
    \/ (statusCode update <> Some loggedOut /\ shouldReconnect loggedOut (statusCode update) = true)).
  { unfold shouldReconnect. destruct (statusCode update) as [c|].
    - destruct (Z.eqb_spec c loggedOut) as [->|Hne]; [left | right]; split;
        try reflexivity; congruence.
    - right. split; [congruence | reflexivity]. }
  unfold onClose.
  destruct Hcases as [[Hcode ->] | [Hcode ->]]; simpl;
    rewrite ?lookup_delete_eq, Hm, Ht;
    (repeat split; try reflexivity; try congruence);
    rewrite lookup_delete_ne by congruence;
    rewrite ?Hs, ?Hc, ?Hq by assumption; reflexivity.
Qed.
End LifecycleFacts.

Lemma close_transition_witness :
  let loggedOut := 401 in
  let render := fun _ : string => Ok "iVBORw0KGgo" in
  let st1 := onConnectionUpdate loggedOut render "main" connectedSock
               (closeUpdate (Some 401)) sampleState in
  let st2 := onConnectionUpdate loggedOut render "main" connectedSock
               (closeUpdate (Some 428)) sampleState in
  (sockets st1 !! "main" = None /\ qrCodes st1 !! "main" = None /\
   sessionChats st1 !! "main" = None /\
   sessionMessages st1 = sessionMessages sampleState /\ timers st1 = []) /\
  (sockets st2 !! "main" = None /\ qrCodes st2 !! "main" = None /\
   sessionChats st2 !! "main" = None /\
   sessionMessages st2 = sessionMessages sampleState /\
   timers st2 = [("main", 3000)]).
Proof.
  intros loggedOut render st1 st2. split.
  - destruct (close_transition loggedOut render "main" connectedSock
                (closeUpdate (Some 401)) sampleState eq_refl)
      as [H1 [H2 [H3 [H4 [H5 _]]]]].
    exact (conj H1 (conj H2 (conj H3 (conj H4 (H5 eq_refl))))).
  - destruct (close_transition loggedOut render "main" connectedSock
                (closeUpdate (Some 428)) sampleState eq_refl)
      as [H1 [H2 [H3 [H4 [_ [H6 _]]]]]].
    refine (conj H1 (conj H2 (conj H3 (conj H4 (H6 _))))). discriminate.
Defined.

(* ===================================================================== *)
(** ** Chat reconciliation *)
(* ===================================================================== *)

Lemma mergeAll_fold (sock : Sock) (chats : list Chat) (m m' : JsMap.t FormattedChat) :
  mergeAll sock chats m = Ok m' ->
  m' = fold_left mergeInto (formattedOf sock chats) m.
Proof.
  revert m. induction chats as [|chat chats IH]; intros m H; simpl in *.
  - congruence.
  - destruct (formatChat sock chat) as [[f|]|e]; simpl in H.
    + apply IH. exact H.
    + apply IH. exact H.
    + discriminate.
Qed.

Lemma get_mergeInto (k : string) (m : JsMap.t FormattedChat) (f : FormattedChat) :
  JsMap.get k (mergeInto m f)
  = if String.eqb (fc_id f) k
    then Some (match JsMap.get k m with
               | Some existing => mergeChat existing f
               | None => f
               end)
    else JsMap.get k m.
Proof.
  unfold mergeInto. destruct (String.eqb_spec (fc_id f) k) as [<-|Hne].
  - destruct (JsMap.get (fc_id f) m); apply get_set_eq.
  - destruct (JsMap.get (fc_id f) m); apply get_set_ne; assumption.
Qed.

Lemma mergeChat_name (existing f : FormattedChat) :
  fc_name (mergeChat existing f)
  = if String.eqb (fc_name existing) "Unknown" && negb (String.eqb (fc_name f) "Unknown")
    then fc_name f else fc_name existing.
Proof. reflexivity. Qed.

Lemma mergeInto_keeps_name (k : string) (m : JsMap.t FormattedChat)
    (f r : FormattedChat) :
  JsMap.get k m = Some r -> fc_name r <> "Unknown" ->
  exists r', JsMap.get k (mergeInto m f) = Some r' /\ fc_name r' = fc_name r.
Proof.
  intros Hget Hname. rewrite get_mergeInto, Hget.
  destruct (String.eqb (fc_id f) k).
  - eexists. split; [reflexivity|]. rewrite mergeChat_name.
    apply String.eqb_neq in Hname. rewrite Hname. reflexivity.
  - eauto.
Qed.

Lemma fold_mergeInto_keeps_name (fs : list FormattedChat) (k : string)
    (m : JsMap.t FormattedChat) (r : FormattedChat) :
  JsMap.get k m = Some r -> fc_name r <> "Unknown" ->
  exists r', JsMap.get k (fold_left mergeInto fs m) = Some r' /\ fc_name r' = fc_name r.
Proof.
  revert m r. induction fs as [|f fs IH]; intros m r Hget Hname; simpl.
  - eauto.
  - destruct (mergeInto_keeps_name k m f r Hget Hname) as [r1 [Hget1 Hname1]].
    destruct (IH _ r1 Hget1) as [r2 [Hget2 Hname2]]; [congruence|].
    exists r2. split; [assumption | congruence].
Qed.

(** C8.  A merge replaces the record's name only when that name is exactly
    "Unknown" and the incoming name is not, and then by the incoming name.
    So a record whose name is not "Unknown" keeps it through every later
    merge of the pass. *)
Theorem name_if_better (sock : Sock) (existing f : FormattedChat) (chats : list Chat)
    (merged merged' : JsMap.t FormattedChat) (k : string) (r : FormattedChat) :
  JsMap.get k merged = Some r ->
  fc_name r <> "Unknown" ->
  mergeAll sock chats merged = Ok merged' ->
  (fc_name (mergeChat existing f) <> fc_name existing ->
   fc_name existing = "Unknown" /\ fc_name f <> "Unknown") /\
  (fc_name existing = "Unknown" -> fc_name f <> "Unknown" ->
   fc_name (mergeChat existing f) = fc_name f) /\
  (exists r', JsMap.get k merged' = Some r' /\ fc_name r' = fc_name r).
Proof.
  intros Hget Hname Hall. split; [|split].
  - rewrite mergeChat_name.
    destruct (String.eqb_spec (fc_name existing) "Unknown") as [He|He]; simpl;
      [|congruence].
    destruct (String.eqb_spec (fc_name f) "Unknown") as [Hf|Hf]; simpl;
      [congruence | auto].
  - intros He Hf. rewrite mergeChat_name.
    apply String.eqb_eq in He. apply String.eqb_neq in Hf. rewrite He, Hf. reflexivity.
  - rewrite (mergeAll_fold _ _ _ _ Hall).
    apply fold_mergeInto_keeps_name; assumption.
Qed.

Lemma name_if_better_witness :
  exists r' merged',
    mergeAll connectedSock [namedChat sampleJid "Unknown" 4] sampleMerged = Ok merged' /\
    JsMap.get sampleJid merged' = Some r' /\ fc_name r' = "Asha".
Proof.
  destruct (name_if_better connectedSock
              {| fc_id := sampleJid; fc_originalId := sampleJid; fc_name := "Asha";
                 fc_type := Individual; fc_unreadCount := 3; fc_lastMessageTime := None;
                 fc_pinned := false; fc_raw := namedChat sampleJid "Unknown" 1 |}
              {| fc_id := sampleJid; fc_originalId := sampleJid; fc_name := "Unknown";
                 fc_type := Individual; fc_unreadCount := 4; fc_lastMessageTime := None;
                 fc_pinned := false; fc_raw := namedChat sampleJid "Unknown" 4 |}
              [namedChat sampleJid "Unknown" 4] sampleMerged
              [(sampleJid,
                {| fc_id := sampleJid; fc_originalId := sampleJid; fc_name := "Asha";
                   fc_type := Individual; fc_unreadCount := 7; fc_lastMessageTime := None;
                   fc_pinned := false; fc_raw := namedChat sampleJid "Unknown" 1 |})]
              sampleJid
              {| fc_id := sampleJid; fc_originalId := sampleJid; fc_name := "Asha";
                 fc_type := Individual; fc_unreadCount := 3; fc_lastMessageTime := None;
                 fc_pinned := false; fc_raw := namedChat sampleJid "Unknown" 1 |})
    as [_ [_ [r' [Hget Hname]]]].
  - vm_compute. reflexivity.
  - vm_compute. discriminate.
  - vm_compute. reflexivity.
  - exists r'. eexists. split; [vm_compute; reflexivity|]. split; [exact Hget | exact Hname].
Defined.

(** *** Suffixes of a concatenation *)

Lemma length_append (a s : string) :
  String.length (a +:+ s) = (String.length a + String.length s)%nat.
Proof. induction a as [|c a IH]; simpl; [reflexivity | rewrite IH; reflexivity]. Qed.

Lemma substring_append_skip (a s : string) (n m : nat) :
  substring (String.length a + n) m (a +:+ s) = substring n m s.
Proof. induction a as [|c a IH]; simpl; [reflexivity | exact IH]. Qed.

Lemma endsWith_append (a s t : string) :
  (String.length t <= String.length s)%nat ->
  endsWith (a +:+ s) t = endsWith s t.
Proof.
  intros Hle. unfold endsWith. rewrite length_append.
  replace (String.length a + String.length s - String.length t)%nat
    with (String.length a + (String.length s - String.length t))%nat by lia.
  rewrite substring_append_skip.
  destruct (Nat.leb_spec (String.length t) (String.length s)); [|lia].
  destruct (Nat.leb_spec (String.length t) (String.length a + String.length s)); [|lia].
  reflexivity.
Qed.

Lemma append_truthy (a s : string) :
  s <> "" -> strTruthy (Some (a +:+ s)) = true.
Proof.
  intros Hs. unfold strTruthy. apply negb_true_iff, String.eqb_neq.
  intros H. apply (f_equal String.length) in H. rewrite length_append in H.
  destruct s; [congruence | simpl in H; lia].
Qed.

Lemma substring_full (s : string) : substring 0 (String.length s) s = s.
Proof. induction s as [|c s IH]; simpl; [reflexivity | f_equal; exact IH]. Qed.

Lemma substring_split (s : string) (n : nat) :
  (n <= String.length s)%nat ->
  s = substring 0 n s +:+ substring n (String.length s - n) s.
Proof.
  revert n. induction s as [|c s IH]; intros n Hn.
  - destruct n; reflexivity.
  - destruct n as [|n].
    + rewrite Nat.sub_0_r, substring_full. reflexivity.
    + simpl.
      change (String c s
              = String c (substring 0 n s +:+ substring n (String.length s - n) s)).
      f_equal. apply IH. simpl in Hn. lia.
Qed.

Lemma endsWith_decompose (s t : string) :
  endsWith s t = true -> exists p, s = p +:+ t.
Proof.
  unfold endsWith. intros H. apply andb_true_iff in H. destruct H as [Hle Heq].
  apply Nat.leb_le in Hle. apply String.eqb_eq in Heq.
  exists (substring 0 (String.length s - String.length t) s).
  pose proof (substring_split s (String.length s - String.length t)) as Hsplit.
  replace (String.length s - (String.length s - String.length t))%nat
    with (String.length t) in Hsplit by lia.
  rewrite Heq in Hsplit. apply Hsplit. lia.
Qed.

Lemma endsWith_append_false (a s t u : string) :
  (String.length u <= String.length s)%nat ->
  (String.length u <= String.length t)%nat ->
  endsWith s u = false -> endsWith t u = true ->
  endsWith (a +:+ s) t = false.
Proof.
  intros Hs Ht Hsu Htu.
  destruct (endsWith (a +:+ s) t) eqn:E; [|reflexivity].
  apply endsWith_decompose in E. destruct E as [p Hp].
  assert (H1 : endsWith (a +:+ s) u = false) by (rewrite endsWith_append; assumption).
  rewrite Hp, endsWith_append in H1 by assumption. congruence.
Qed.

Lemma formatChat_phone (sock : Sock) (A : string) (n : Z) :
  isSystemChat (A +:+ "@s.whatsapp.net") = false ->
  exists name,
    formatChat sock (rawChat (A +:+ "@s.whatsapp.net") n)
    = Ok (Some {| fc_id := A +:+ "@s.whatsapp.net";
                  fc_originalId := A +:+ "@s.whatsapp.net";
                  fc_name := name; fc_type := Individual; fc_unreadCount := n;
                  fc_lastMessageTime := None; fc_pinned := false;
                  fc_raw := rawChat (A +:+ "@s.whatsapp.net") n |}).
Proof.
  intros Hsys. unfold formatChat. cbn [rawChat chat_id chat_jid].
  unfold orOpt. rewrite (append_truthy A "@s.whatsapp.net") by discriminate.
  rewrite (append_truthy A "@s.whatsapp.net") by discriminate.
  cbn [negb]. rewrite Hsys. unfold classify.
  rewrite (endsWith_append A "@s.whatsapp.net" "@g.us") by (simpl; lia).
  rewrite (endsWith_append A "@s.whatsapp.net" "@s.whatsapp.net") by (simpl; lia).
  change (endsWith "@s.whatsapp.net" "@g.us") with false.
  change (endsWith "@s.whatsapp.net" "@s.whatsapp.net") with true.
  cbn iota. eexists. reflexivity.
Qed.

Lemma formatChat_lid (sock : Sock) (A B : string) (c : Contact) (n : Z) :
  isSystemChat (B +:+ "@lid") = false ->
  lookupContact sock (B +:+ "@lid") = Some c ->
  contact_phoneNumber c = Some A -> A <> "" ->
  exists name,
    formatChat sock (rawChat (B +:+ "@lid") n)
    = Ok (Some {| fc_id := A +:+ "@s.whatsapp.net";
                  fc_originalId := B +:+ "@lid";
                  fc_name := name; fc_type := Individual; fc_unreadCount := n;
                  fc_lastMessageTime := None; fc_pinned := false;
                  fc_raw := rawChat (B +:+ "@lid") n |}).
Proof.
  intros Hsys Hc Hphone HA. unfold formatChat. cbn [rawChat chat_id chat_jid].
  unfold orOpt. rewrite !(append_truthy B "@lid") by discriminate.
  cbn [negb]. rewrite Hsys. unfold classify.
  rewrite (endsWith_append_false B "@lid" "@g.us" "s")
    by (try reflexivity; simpl; lia).
  rewrite (endsWith_append_false B "@lid" "@s.whatsapp.net" "t")
    by (try reflexivity; simpl; lia).
  rewrite (endsWith_append B "@lid" "@lid") by (simpl; lia).
  change (endsWith "@lid" "@lid") with true.
  cbn iota. rewrite Hc, Hphone.
  assert (Ht : strTruthy (Some A) = true).
  { unfold strTruthy. apply negb_true_iff, String.eqb_neq. assumption. }
  rewrite Ht. eexists. reflexivity.
Qed.

Lemma Forall_set {V : Type} (P : string * V -> Prop) (k : string) (v : V)
    (m : JsMap.t V) :
  Forall P m -> P (k, v) -> Forall P (JsMap.set k v m).
Proof.
  intros Hm Hkv. induction Hm as [|[k' v'] m Hx Hm IH]; simpl.
  - constructor; [assumption | constructor].
  - destruct (String.eqb k k'); constructor; assumption.
Qed.

Lemma get_None_keys {V : Type} (k : string) (m : JsMap.t V) :
  JsMap.get k m = None -> ~ In k (JsMap.keys m).
Proof.
  unfold JsMap.keys. induction m as [|[k' v'] m IH]; simpl; [tauto|].
  destruct (String.eqb_spec k k') as [->|Hne]; [discriminate|].
  intros Hget [Heq|Hin]; [congruence | exact (IH Hget Hin)].
Qed.

Lemma mergeChat_id (existing f : FormattedChat) :
  fc_id (mergeChat existing f) = fc_id existing.
Proof. reflexivity. Qed.

Lemma mergeInto_wf (m : JsMap.t FormattedChat) (f : FormattedChat) :
  mergedWf m -> mergedWf (mergeInto m f).
Proof.
  intros [Hnd Hids]. unfold mergeInto, mergedWf.
  destruct (JsMap.get (fc_id f) m) as [existing|] eqn:E.
  - rewrite keys_set. unfold JsMap.has. rewrite E. split; [assumption|].
    apply Forall_set; [assumption|]. simpl.
    apply get_In in E. rewrite Forall_forall in Hids.
    apply list_elem_of_In in E. exact (Hids _ E).
  - rewrite keys_set. unfold JsMap.has. rewrite E. split.
    + apply NoDup_app. split; [assumption|]. split; [|apply NoDup_singleton].
      intros x Hx Hx'. apply list_elem_of_In in Hx, Hx'.
      destruct Hx' as [<-|[]]. exact (get_None_keys _ _ E Hx).
    + apply Forall_set; [assumption | reflexivity].
Qed.

Lemma fold_mergeInto_wf (fs : list FormattedChat) (m : JsMap.t FormattedChat) :
  mergedWf m -> mergedWf (fold_left mergeInto fs m).
Proof.
  revert m. induction fs as [|f fs IH]; intros m Hm; simpl; [assumption|].
  apply IH, mergeInto_wf, Hm.
Qed.

Lemma unreadAt_mergeInto (k : string) (m : JsMap.t FormattedChat) (f : FormattedChat) :
  unreadAt k (mergeInto m f)
  = unreadAt k m + (if String.eqb (fc_id f) k then fc_unreadCount f else 0).
Proof.
  unfold unreadAt. rewrite get_mergeInto.
  destruct (String.eqb (fc_id f) k); [|lia].
  destruct (JsMap.get k m); simpl; lia.
Qed.

Lemma unreadAt_fold (fs : list FormattedChat) (k : string) (m : JsMap.t FormattedChat) :
  unreadAt k (fold_left mergeInto fs m) = unreadAt k m + unreadTotal k fs.
Proof.
  revert m. induction fs as [|f fs IH]; intros m; simpl; [lia|].
  rewrite IH, unreadAt_mergeInto. lia.
Qed.

Lemma mergeInto_present (k : string) (m : JsMap.t FormattedChat) (f : FormattedChat) :
  (exists r, JsMap.get k m = Some r) \/ fc_id f = k ->
  exists r, JsMap.get k (mergeInto m f) = Some r.
Proof.
  intros H. rewrite get_mergeInto.
  destruct (String.eqb_spec (fc_id f) k) as [Heq|Hne]; [eauto|].
  destruct H as [H|H]; [exact H | contradiction].
Qed.

Lemma fold_mergeInto_present (fs : list FormattedChat) (k : string)
    (m : JsMap.t FormattedChat) :
  (exists r, JsMap.get k m = Some r) \/ In k (map fc_id fs) ->
  exists r, JsMap.get k (fold_left mergeInto fs m) = Some r.
Proof.
  revert m. induction fs as [|f fs IH]; intros m H; simpl in *.
  - destruct H as [H|[]]. exact H.
  - apply IH. destruct H as [H|[H|H]].
    + left. apply mergeInto_present. left. exact H.
    + left. apply mergeInto_present. right. exact H.
    + right. exact H.
Qed.

Lemma values_ids (m : JsMap.t FormattedChat) :
  mergedWf m -> map fc_id (JsMap.values m) = JsMap.keys m.
Proof.
  intros [_ Hids]. unfold JsMap.values, JsMap.keys. rewrite map_map.
  induction Hids as [|[k v] m Hkv Hids IH]; simpl; [reflexivity|].
  simpl in Hkv. rewrite Hkv, IH. reflexivity.
Qed.

Lemma In_values (m : JsMap.t FormattedChat) (r : FormattedChat) :
  mergedWf m -> In r (JsMap.values m) ->
  JsMap.get (fc_id r) m = Some r.
Proof.
  intros [Hnd Hids] Hin. unfold JsMap.values in Hin.
  apply in_map_iff in Hin. destruct Hin as [[k v] [Hv Hin]]. simpl in Hv. subst v.
  rewrite Forall_forall in Hids.
  pose proof (Hids _ (proj2 (list_elem_of_In _ _) Hin)) as Hk. simpl in Hk.
  rewrite Hk. apply In_get; assumption.
Qed.

Lemma mergedWf_empty : mergedWf JsMap.empty.
Proof. split; constructor. Qed.

Lemma mergeInto_pair (f g : FormattedChat) :
  fc_id g = fc_id f ->
  fold_left mergeInto [f; g] JsMap.empty = [(fc_id f, mergeChat f g)].
Proof.
  intros H. simpl. unfold mergeInto. simpl. rewrite H.
  rewrite String.eqb_refl. simpl. rewrite ?String.eqb_refl. reflexivity.
Qed.

Lemma mergeAll_pair (sock : Sock) (x y : Chat) (f g : FormattedChat) :
  formatChat sock x = Ok (Some f) -> formatChat sock y = Ok (Some g) ->
  fc_id g = fc_id f ->
  mergeAll sock [x; y] JsMap.empty = Ok [(fc_id f, mergeChat f g)].
Proof.
  intros Hx Hy Hid. rewrite <- (mergeInto_pair f g Hid).
  simpl. rewrite Hx. simpl. rewrite Hy. reflexivity.
Qed.

(** C1.  With a contact table that resolves [B@lid] to the phone [A], the
    batch of [{id: A@s.whatsapp.net, unread: 2}] and [{id: B@lid, unread: 3}],
    in either order, is reconciled to exactly one record, whose id is
    [A@s.whatsapp.net] and whose unread count is 5.  For every batch that is
    reconciled, the records have pairwise distinct canonical ids, every raw
    chat that is not skipped is represented by the record of its canonical
    id, and the unread count of a record is the sum of the unread counts of
    the raw chats with that canonical id. *)
Theorem reconcile_merges (localeCompare : string -> string -> Z) (sock : Sock)
    (A B : string) (c : Contact) (chats : list Chat) (out : list FormattedChat) :
  isSystemChat (A +:+ "@s.whatsapp.net") = false ->
  isSystemChat (B +:+ "@lid") = false ->
  lookupContact sock (B +:+ "@lid") = Some c ->
  contact_phoneNumber c = Some A ->
  A <> "" ->
  reconcile localeCompare sock chats = Ok out ->
  (exists r,
     reconcile localeCompare sock
       [rawChat (A +:+ "@s.whatsapp.net") 2; rawChat (B +:+ "@lid") 3] = Ok [r] /\
     fc_id r = A +:+ "@s.whatsapp.net" /\ fc_unreadCount r = 5) /\
  (exists r,
     reconcile localeCompare sock
       [rawChat (B +:+ "@lid") 3; rawChat (A +:+ "@s.whatsapp.net") 2] = Ok [r] /\
     fc_id r = A +:+ "@s.whatsapp.net" /\ fc_unreadCount r = 5) /\
  NoDup (map fc_id out) /\
  (forall r, In r out ->
     fc_unreadCount r = unreadTotal (fc_id r) (formattedOf sock chats)) /\
  (forall f, In f (formattedOf sock chats) ->
     exists r, In r out /\ fc_id r = fc_id f).
Proof.
  intros HsysA HsysB Hc Hphone HA Hout.
  destruct (formatChat_phone sock A 2 HsysA) as [nameA HfA].
  destruct (formatChat_lid sock A B c 3 HsysB Hc Hphone HA) as [nameB HfB].
  unfold reconcile in Hout.
  destruct (mergeAll sock chats JsMap.empty) as [merged|e] eqn:Hall; [|discriminate].
  simpl in Hout. injection Hout as <-.
  apply mergeAll_fold in Hall.
  assert (Hwf : mergedWf merged) by (subst merged; apply fold_mergeInto_wf, mergedWf_empty).
  pose proof (jsSort_perm (compareChats localeCompare) (JsMap.values merged)) as Hperm.
  split; [|split; [|split; [|split]]].
  - unfold reconcile. rewrite (mergeAll_pair sock _ _ _ _ HfA HfB eq_refl).
    eexists. split; [reflexivity|]. split; reflexivity.
  - unfold reconcile. rewrite (mergeAll_pair sock _ _ _ _ HfB HfA eq_refl).
    eexists. split; [reflexivity|]. split; reflexivity.
  - pose proof (Permutation_map fc_id Hperm) as Hp. rewrite Hp.
    rewrite values_ids by assumption. apply Hwf.
  - intros r Hr. apply (Permutation_in _ Hperm) in Hr.
    pose proof (In_values merged r Hwf Hr) as Hget.
    pose proof (unreadAt_fold (formattedOf sock chats) (fc_id r) JsMap.empty) as Hsum.
    rewrite <- Hall in Hsum. unfold unreadAt in Hsum at 1. rewrite Hget in Hsum.
    rewrite Hsum. reflexivity.
  - intros f Hf.
    destruct (fold_mergeInto_present (formattedOf sock chats) (fc_id f) JsMap.empty)
      as [r Hget].
    { right. apply in_map. assumption. }
    rewrite <- Hall in Hget. exists r. split.
    + apply (Permutation_in _ (Permutation_sym Hperm)).
      unfold JsMap.values. apply in_map_iff. exists (fc_id f, r).
      split; [reflexivity | apply get_In; assumption].
    + destruct Hwf as [_ Hids]. rewrite Forall_forall in Hids.
      apply get_In in Hget. apply list_elem_of_In in Hget. exact (Hids _ Hget).
Qed.

Lemma reconcile_merges_witness :
  exists r,
    reconcile (fun _ _ => 0) resolvingSock [rawChat "A@s.whatsapp.net" 2; rawChat "B@lid" 3]
    = Ok [r] /\
    fc_id r = "A@s.whatsapp.net" /\ fc_unreadCount r = 5.
Proof.
  destruct (reconcile_merges (fun _ _ => 0) resolvingSock "A" "B"
              {| contact_name := None; contact_notify := None;
                 contact_pushName := None; contact_phoneNumber := Some "A" |}
              [rawChat "A@s.whatsapp.net" 2; rawChat "B@lid" 3]
              [{| fc_id := "A@s.whatsapp.net"; fc_originalId := "A@s.whatsapp.net";
                  fc_name := "A@s.whatsapp.net"; fc_type := Individual;
                  fc_unreadCount := 5; fc_lastMessageTime := None; fc_pinned := false;
                  fc_raw := rawChat "A@s.whatsapp.net" 2 |}])
    as [H _].
  - vm_compute. reflexivity.
  - vm_compute. reflexivity.
  - vm_compute. reflexivity.
  - reflexivity.
  - discriminate.
  - vm_compute. reflexivity.
  - exact H.
Defined.

(* ===================================================================== *)
(** ** Reading the ledger *)
(* ===================================================================== *)

Lemma compareTs_finite (x e : WAMessage) :
  finiteTs x -> finiteTs e ->
  numNeg (compareTs x e) = (tsValue x <? tsValue e).
Proof.
  unfold finiteTs, compareTs, tsValue. intros [zx [-> _]] [ze [-> _]].
  simpl. destruct (Z.ltb_spec (zx - ze) 0), (Z.ltb_spec zx ze); try reflexivity; lia.
Qed.

Lemma read_sorted (l : list WAMessage) :
  Forall finiteTs l -> sortedByTs (jsSort compareTs l).
Proof. apply (jsSort_sorted compareTs tsValue finiteTs compareTs_finite). Qed.

Lemma idExists_perm (l l' : list WAMessage) (i : option string) :
  Permutation l l' -> idExists l i = idExists l' i.
Proof.
  intros Hp. destruct (idExists l' i) eqn:E.
  - apply idExists_In. apply idExists_In in E.
    eapply Permutation_in; [|exact E]. apply Permutation_map. symmetry. exact Hp.
  - apply idExists_false. apply idExists_false in E. intros Hin. apply E.
    eapply Permutation_in; [|exact Hin]. apply Permutation_map. exact Hp.
Qed.

(** The timestamp normalisation on the values the feeds deliver. *)
Lemma getTs_number (jid msgId : string) (fromMe : bool) (z : Z) :
  z <> 0 -> getTs (plainMessage jid msgId fromMe (TsNumber (Num z))) = Num z.
Proof.
  intros Hz. unfold getTs. simpl.
  destruct (Z.eqb_spec z 0); [contradiction | reflexivity].
Qed.

Lemma getTs_missing (jid msgId : string) (fromMe : bool) :
  getTs (plainMessage jid msgId fromMe TsUndefined) = Num 0.
Proof. reflexivity. Qed.

Lemma readDigits_all (s : string) (acc : Z) :
  allDigits s = true -> readDigits s (Some acc) = (Some (decimalFrom acc s), EmptyString).
Proof.
  revert acc. induction s as [|c s IH]; intros acc H; simpl in *.
  - reflexivity.
  - apply andb_true_iff in H. destruct H as [Hc Hs]. rewrite Hc. apply IH. assumption.
Qed.

Lemma isDigit_not_white (c : ascii) : isDigit c = true -> isWhite c = false.
Proof.
  unfold isDigit, isWhite. intros H. apply andb_true_iff in H. destruct H as [H1 H2].
  apply Nat.leb_le in H1. apply Nat.leb_le in H2.
  destruct (Nat.eqb_spec (nat_of_ascii c) 32); [lia|].
  destruct (Nat.leb_spec (nat_of_ascii c) 13); [lia|].
  rewrite andb_false_r. reflexivity.
Qed.

Lemma isDigit_not_sign (c : ascii) (rest : string) :
  isDigit c = true -> readSign (String c rest) = (false, String c rest).
Proof.
  intros H. unfold readSign.
  destruct c as [[] [] [] [] [] [] [] []]; try reflexivity; discriminate.
Qed.

Lemma StringToNumber_decimal (s : string) :
  decimalString s = true -> StringToNumber s = Num (decimalValue s).
Proof.
  unfold decimalString. intros H.
  apply andb_true_iff in H. destruct H as [H _].
  apply andb_true_iff in H. destruct H as [Hne Hall].
  destruct s as [|c s]; [discriminate|]. simpl in Hall.
  apply andb_true_iff in Hall. destruct Hall as [Hc Hs].
  unfold StringToNumber. cbn [dropWhite]. rewrite (isDigit_not_white c Hc).
  cbn [String.eqb]. rewrite (isDigit_not_sign c s Hc).
  cbn [readDigits]. rewrite Hc. cbn [orZero].
  rewrite (readDigits_all s _ Hs). reflexivity.
Qed.

Lemma getTs_decimal (jid msgId : string) (fromMe : bool) (s : string) :
  decimalString s = true ->
  getTs (plainMessage jid msgId fromMe (TsString s)) = Num (decimalValue s).
Proof.
  intros H. unfold getTs. simpl.
  assert (Hne : negb (String.eqb s "") = true).
  { unfold decimalString in H. apply andb_true_iff in H. destruct H as [H _].
    apply andb_true_iff in H. apply H. }
  rewrite Hne. apply StringToNumber_decimal. assumption.
Qed.

Lemma sessionLedger_insert (sessionName : string) (st : State)
    (store : JsMap.t (list WAMessage)) (v : gmap string (JsMap.t (list WAMessage))) :
  sessionLedger sessionName (setSessionMessages st (<[sessionName := store]> v)) = store.
Proof. unfold sessionLedger. simpl. rewrite lookup_insert_eq. reflexivity. Qed.

Lemma sorted_head_least (evicted : WAMessage) (rest old : list WAMessage) :
  sortedByTs (evicted :: rest) -> Permutation (evicted :: rest) old ->
  Forall (fun m => tsValue evicted <= tsValue m) old.
Proof.
  intros Hs Hp. eapply Permutation_Forall; [exact Hp|].
  inversion Hs; subst. constructor; [lia | assumption].
Qed.

(** C10.  A read that finds a non-empty array for the chat replaces that
    array in the ledger by its sort: the stored order becomes the order of
    the normalised timestamps (for timestamps that are numbers), and an
    append of a new id to the full array then drops the entry with the least
    timestamp, the head of the sorted array. *)
Theorem read_reorders_ledger (sessionName jid storedJid : string) (minCount : Z)
    (st : State) (messageMap : JsMap.t (list WAMessage)) (old : list WAMessage)
    (msg : WAMessage) :
  sessionMessages st !! sessionName = Some messageMap ->
  locateMessages jid messageMap = Ok (Some storedJid) ->
  chatArray storedJid messageMap = old ->
  old <> [] ->
  exists found st',
    getMessagesForChat sessionName jid minCount st = Ok (found, st') /\
    chatArray storedJid (sessionLedger sessionName st') = jsSort compareTs old /\
    Permutation (jsSort compareTs old) old /\
    (Forall finiteTs old ->
     sortedByTs (jsSort compareTs old) /\
     (length old = 100%nat -> idExists old (keyId msg) = false ->
      exists evicted rest,
        jsSort compareTs old = evicted :: rest /\
        ledgerAppend (chatArray storedJid (sessionLedger sessionName st')) msg
        = rest ++ [msg] /\
        Forall (fun m => tsValue evicted <= tsValue m) old)).
Proof.
  intros Hmap Hloc Hold Hne. unfold getMessagesForChat. rewrite Hmap, Hloc.
  cbn [mbind Result_bind]. rewrite Hold.
  destruct old as [|m0 old']; [congruence|].
  eexists. eexists. split; [reflexivity|].
  assert (Hread : chatArray storedJid
            (sessionLedger sessionName
               (setSessionMessages st
                  (<[sessionName := JsMap.set storedJid (jsSort compareTs (m0 :: old')) messageMap]>
                     (sessionMessages st))))
          = jsSort compareTs (m0 :: old')).
  { rewrite sessionLedger_insert. unfold chatArray.
    rewrite get_set_eq. reflexivity. }
  split; [exact Hread|]. split; [apply jsSort_perm|].
  intros Hfin. pose proof (read_sorted _ Hfin) as Hsorted.
  split; [exact Hsorted|].
  intros Hlen Hfresh. rewrite Hread.
  destruct (jsSort compareTs (m0 :: old')) as [|evicted rest] eqn:Hs.
  - pose proof (jsSort_length compareTs (m0 :: old')) as Hl. rewrite Hs in Hl.
    simpl in Hl. lia.
  - exists evicted, rest. split; [reflexivity|]. split.
    + unfold ledgerAppend.
      rewrite (idExists_perm (evicted :: rest) (m0 :: old')), Hfresh
        by (rewrite <- Hs; apply jsSort_perm).
      rewrite pushCapped_full; [reflexivity|].
      rewrite <- Hs, jsSort_length. lia.
    + apply (sorted_head_least evicted rest); [assumption|].
      rewrite <- Hs. apply jsSort_perm.
Qed.

Lemma sampleMessage_finite (n : nat) (ts : Z) :
  0 < ts <= maxSafeInteger -> finiteTs (sampleMessage n ts).
Proof.
  intros Hts. unfold finiteTs, sampleMessage. exists ts.
  rewrite getTs_number by lia. split; [reflexivity | lia].
Qed.

Lemma sampleLedger_finite : Forall finiteTs sampleLedger.
Proof.
  unfold sampleLedger. constructor.
  - apply sampleMessage_finite. unfold maxSafeInteger. lia.
  - apply List.Forall_map. apply Forall_forall. intros n Hn.
    apply list_elem_of_In, in_seq in Hn.
    apply sampleMessage_finite. unfold maxSafeInteger. lia.
Qed.

Lemma read_reorders_ledger_witness :
  exists found st' evicted rest,
    getMessagesForChat "main" sampleJid 10 fullState = Ok (found, st') /\
    jsSort compareTs sampleLedger = evicted :: rest /\
    ledgerAppend (chatArray sampleJid (sessionLedger "main" st')) (sampleMessage 500 1)
    = rest ++ [sampleMessage 500 1] /\
    keyId evicted = Some "MSG1" /\
    keyId (hd (sampleMessage 500 1) sampleLedger) = Some "MSG0".
Proof.
  destruct (read_reorders_ledger "main" sampleJid sampleJid 10 fullState
              [(sampleJid, sampleLedger)] sampleLedger (sampleMessage 500 1))
    as [found [st' [Hget [Hread [Hperm Hfin]]]]].
  - reflexivity.
  - reflexivity.
  - reflexivity.
  - discriminate.
  - destruct Hfin as [Hsorted Hevict].
    + apply sampleLedger_finite.
    + destruct Hevict as [evicted [rest [Hs [Happ Hleast]]]].
      * reflexivity.
      * vm_compute. reflexivity.
      * exists found, st', evicted, rest.
        split; [exact Hget|]. split; [exact Hs|]. split; [exact Happ|].
        split; [|reflexivity].
        assert (He : evicted = hd evicted (jsSort compareTs sampleLedger))
          by (rewrite Hs; reflexivity).
        rewrite He. vm_compute. reflexivity.
Defined.

(** C4 (divergence).  The reader's comparator does not normalise a
    non-numeric timestamp to 0: for a message whose timestamp is the text
    [abc], stored as delivered by the live feed, [getTs] and the second
    copy's conversion are NaN, every comparison with it is NaN, and a read
    returns it after the message timestamped 1001 that arrived before it.
    The chat-embedded history feed, which stores [parseInt] of the text, does
    lead to 0. *)
Theorem text_timestamp_is_NaN :
  getTs textTsMessage = NaN /\
  ServerCopy.tsOf textTsMessage = NaN /\
  compareTs textTsMessage (sampleMessage 1 1001) = NaN /\
  (exists st',
     getMessagesForChat "main" sampleJid 10 textTsState
     = Ok ([sampleMessage 1 1001; textTsMessage], st')) /\
  jsSort ServerCopy.compareTs [sampleMessage 1 1001; textTsMessage]
  = [sampleMessage 1 1001; textTsMessage] /\
  getTs (normalizeTimestamp textTsMessage) = Num 0.
Proof.
  split; [reflexivity|]. split; [reflexivity|]. split; [reflexivity|].
  split; [eexists; vm_compute; reflexivity|].
  split; reflexivity.
Qed.

(* ===================================================================== *)
(** ** The retrieval chain *)
(* ===================================================================== *)

Lemma finalMessages_length (requestedLimit : Z) (formatted : list FormattedMessage) :
  (length (finalMessages requestedLimit formatted) <= 20)%nat.
Proof.
  unfold finalMessages, sliceTo. rewrite length_rev, length_firstn.
  unfold finalLimit, minMessages. lia.
Qed.

(** Whatever the request, the response carries at most 20 messages. *)
Lemma response_at_most_20 (sessionName jid : string) (parsedLimit : JsNum) (now : Z)
    (load : LoadResult) (st : State) (msgs : list FormattedMessage) :
  responseMessages (response (getMessages sessionName jid parsedLimit now load st))
  = Some msgs ->
  (length msgs <= 20)%nat.
Proof.
  unfold getMessages. destruct (connected st sessionName) as [sock|]; [|discriminate].
  destruct (retrieve _ _ _ _ _ _ _) as [[[[messages formatted]|e] st'] fetches];
    simpl; intros [= <-].
  - apply finalMessages_length.
  - simpl. lia.
Qed.

(** The response is the reverse of the sorted, truncated list. *)
Lemma response_is_reversed_slice (sessionName jid : string) (parsedLimit : JsNum)
    (now : Z) (load : LoadResult) (st : State) (sock : Sock)
    (messages : list (option WAMessage)) (formatted : list FormattedMessage)
    (st' : State) (fetches : list (string * Z)) :
  connected st sessionName = Some sock ->
  retrieve sock sessionName jid (requestedLimitOf parsedLimit) now load st
  = (Ok (messages, formatted), st', fetches) ->
  responseMessages (response (getMessages sessionName jid parsedLimit now load st))
  = Some (rev (sliceTo (finalLimit (requestedLimitOf parsedLimit) (length formatted))
                       (jsSort compareFormatted formatted))).
Proof.
  intros Hc Hr. unfold getMessages. rewrite Hc, Hr. reflexivity.
Qed.

(** C6 (divergence).  The response is not always oldest-first.  With the
    contact's message and the session's later reply both within the last 24
    hours, the sort puts the possibly unread message first and the reversal
    then puts the later reply before the earlier message.  (The response never
    carries more than 20 messages: [response_at_most_20].) *)
Theorem reply_precedes_earlier_message :
  exists first second,
    responseMessages
      (response (getMessages "main" sampleJid (Num 1000) sampleNow
                   (LoadRejects TypeError) conversationState))
    = Some [first; second] /\
    fm_id first = Some "MSGA" /\ fm_timestamp first = Some 1699999000000 /\
    fm_id second = Some "MSGB" /\ fm_timestamp second = Some 1699998000000.
Proof.
  eexists. eexists. split; [vm_compute; reflexivity|].
  repeat split; reflexivity.
Qed.

Lemma finalMessages_nil (requestedLimit : Z) : finalMessages requestedLimit [] = [].
Proof. unfold finalMessages, sliceTo. simpl. rewrite firstn_nil. reflexivity. Qed.

Lemma retrieve_fetch_nothing (sock : Sock) (sessionName jid : string)
    (requestedLimit now : Z) (load : LoadResult) (st st' : State)
    (r : Result (list (option WAMessage) * list FormattedMessage))
    (fetches : list (string * Z)) :
  retrieve sock sessionName jid requestedLimit now load st = (r, st', fetches) ->
  fetches <> [] -> yieldsNothing load = true ->
  r = Ok ([], []).
Proof.
  unfold retrieve. intros H Hf Hl.
  destruct (getMessagesForChat _ _ _ _) as [[found st1]|e];
    [|injection H as <- <- <-; congruence].
  destruct (match found with [] => _ | _ => _ end) as [[messages1|e1] st2];
    [|cbn beta iota in H; injection H as <- <- <-; congruence].
  cbn beta iota in H.
  destruct (match messages1 with [] => _ | _ => _ end) as [|m2 messages2];
    [|destruct (formatAll _ _ _); injection H as <- <- <-; congruence].
  assert (Hlive : liveFetch sessionName jid load st2 = ([], st2)).
  { unfold liveFetch. destruct load as [e|[[|m l]|]]; try reflexivity; discriminate. }
  rewrite Hlive in H. simpl in H. injection H as <- <- <-. reflexivity.
Qed.

(** The endpoint has no error status past the connected-session check: the
    response is HTTP 200.  When an exception reaches the handler's catch, and
    when the live fetch is attempted and rejects or returns nothing, the
    messages list is empty and the warning is set. *)
Theorem retrieval_failure_is_200 (sessionName jid : string) (parsedLimit : JsNum)
    (now : Z) (load : LoadResult) (st : State) (sock : Sock) :
  connected st sessionName = Some sock ->
  let out := getMessages sessionName jid parsedLimit now load st in
  status (response out) = 200 /\
  (forall e st' fetches,
     retrieve sock sessionName jid (requestedLimitOf parsedLimit) now load st
     = (Throw e, st', fetches) ->
     responseMessages (response out) = Some [] /\
     responseWarning (response out) = Some (ErrorLoadingMessages e)) /\
  (liveFetches out <> [] -> yieldsNothing load = true ->
   responseMessages (response out) = Some [] /\
   responseWarning (response out) = Some NoMessagesAvailable).
Proof.
  intros Hc. unfold getMessages. rewrite Hc.
  destruct (retrieve sock sessionName jid (requestedLimitOf parsedLimit) now load st)
    as [[r st'] fetches] eqn:Hr.
  split; [|split].
  - destruct r as [[messages formatted]|e]; reflexivity.
  - intros e st0 fetches0 [= -> -> ->]. split; reflexivity.
  - intros Hf Hl.
    assert (Hfetches : fetches <> []) by (destruct r as [[? ?]|?]; simpl in Hf; exact Hf).
    rewrite (retrieve_fetch_nothing _ _ _ _ _ _ _ _ _ _ Hr Hfetches Hl).
    unfold responseMessages, responseWarning. simpl.
    rewrite finalMessages_nil. split; reflexivity.
Qed.

Example retrieval_failure_is_200_sample :
  (let out := getMessages "main" "%" NaN sampleNow (LoadRejects TypeError)
                conversationState in
   status (response out) = 200 /\
   responseMessages (response out) = Some [] /\
   responseWarning (response out) = Some (ErrorLoadingMessages URIError)) /\
  (let out := getMessages "main" sampleJid NaN sampleNow (LoadRejects TypeError)
                idleState in
   status (response out) = 200 /\
   responseMessages (response out) = Some [] /\
   responseWarning (response out) = Some NoMessagesAvailable).
Proof.
  split.
  - destruct (retrieval_failure_is_200 "main" "%" NaN sampleNow (LoadRejects TypeError)
                conversationState connectedSock eq_refl) as [H1 [H2 _]].
    destruct (H2 URIError conversationState []) as [H3 H4]; [vm_compute; reflexivity|].
    exact (conj H1 (conj H3 H4)).
  - destruct (retrieval_failure_is_200 "main" sampleJid NaN sampleNow
                (LoadRejects TypeError) idleState connectedSock eq_refl) as [H1 [_ H2]].
    destruct H2 as [H3 H4]; [vm_compute; discriminate | reflexivity |].
    exact (conj H1 (conj H3 H4)).
Defined.










(* ===================================================================== *)
(** ** The listeners and the handlers on the registries *)
(* ===================================================================== *)

(** A live message goes through [appendVia] on the array of its chat. *)
Lemma upsertMessage_chatArray (sessionName chatId : string) (st : State)
    (m : WAMessage) (k : MessageKey) :
  msg_key m = Some k -> key_remoteJid k = Some chatId -> chatId <> "" ->
  chatArray chatId (sessionLedger sessionName (upsertMessage sessionName st m))
  = appendVia (chatArray chatId (sessionLedger sessionName st)) (LiveUpsert, m).
Proof.
  intros Hk Hj Hne. unfold upsertMessage. rewrite Hk, Hj.
  assert (Ht : strTruthy (Some chatId) = true).
  { unfold strTruthy. apply negb_true_iff, String.eqb_neq. assumption. }
  rewrite Ht. unfold sessionLedger at 1. cbn [sessionMessages setSessionChats setSessionMessages].
  rewrite lookup_insert_eq. cbn [default from_option id].
  apply storeUpsert_chatArray.
Qed.

(** The chats handler answers a connected session with the reconciled list
    of the directory's chats. *)
Lemma getChats_reconciled (localeCompare : string -> string -> Z)
    (sessionName : string) (fallbackChats : list Chat) (st : State) (sock : Sock)
    (chatMap : JsMap.t Chat) (chat : Chat) (rest : list Chat)
    (out : list FormattedChat) :
  connected st sessionName = Some sock ->
  sessionChats st !! sessionName = Some chatMap ->
  JsMap.values chatMap = chat :: rest ->
  reconcile localeCompare sock (chat :: rest) = Ok out ->
  getChats localeCompare sessionName fallbackChats st
  = {| status := 200; body := ChatsBody out (length out) |}.
Proof.
  intros Hc Hm Hv Hr. unfold getChats. rewrite Hc, Hm, Hv, Hr. reflexivity.
Qed.

(** The write-back of the retrieval chain is not one of the capped appends:
    a chat that embeds 101 messages leaves 101 entries in the ledger. *)
Example write_back_has_no_cap :
  length (chatArray sampleJid
            (sessionLedger "main"
               (after (getMessages "main" sampleJid NaN sampleNow
                         (LoadRejects TypeError) crowdedState))))
  = 101%nat.
Proof. vm_compute. reflexivity. Qed.

(** An embedded element that is itself a message with a content payload is
    not extracted: [msgWrapper.message] is then the content, which has no
    key. *)
Example bare_message_with_content_skipped :
  extractRaw [EntryBare embedded1; EntryWrapped embedded2]
  = ([normalizeTimestamp embedded2], [EntryBare embedded1; EntryWrapped embedded2], None).
Proof. reflexivity. Qed.

(* ===================================================================== *)
(** ** Authentication *)
(* ===================================================================== *)

Lemma prefix_append (p s : string) : String.prefix p (p +:+ s) = true.
Proof.
  induction p as [|c p IH]; simpl.
  - destruct s; reflexivity.
  - destruct (ascii_dec c c) as [_|Hne]; [exact IH | congruence].
Qed.

Lemma prefix_decompose (p s : string) :
  String.prefix p s = true ->
  s = p +:+ substring (String.length p) (String.length s - String.length p) s.
Proof.
  revert s. induction p as [|c p IH]; intros s H.
  - simpl. rewrite Nat.sub_0_r, substring_full. reflexivity.
  - destruct s as [|d s]; simpl in H; [discriminate|].
    destruct (ascii_dec c d) as [->|_]; [|discriminate].
    change (String d s
            = String d (p +:+ substring (String.length p)
                                (String.length s - String.length p) s)).
    f_equal. apply IH. exact H.
Qed.

(** X1.  The middleware lets a request through exactly when its
    authorization header is the text "Bearer " followed by the secret token;
    every other request, a missing header included, is answered 401. *)
Theorem authenticate_exact (secretToken : string) (authHeader : option string) :
  (authenticate secretToken authHeader = AuthNext <->
   authHeader = Some ("Bearer " +:+ secretToken)) /\
  (authenticate secretToken authHeader = AuthNext \/
   exists error, authenticate secretToken authHeader = AuthRejected 401 error).
Proof.
  split.
  - split.
    + unfold authenticate. destruct authHeader as [h|]; [|discriminate].
      destruct (strTruthy (Some h)); [|discriminate].
      destruct (String.prefix "Bearer " h) eqn:Hp; [|discriminate].
      cbn [negb orb].
      destruct (String.eqb _ secretToken) eqn:Ht; [|discriminate].
      intros _. apply String.eqb_eq in Ht.
      apply prefix_decompose in Hp. cbn [String.length] in Hp.
      rewrite Ht in Hp. rewrite Hp. reflexivity.
    + intros ->. unfold authenticate.
      rewrite prefix_append.
      replace (strTruthy (Some ("Bearer " +:+ secretToken))) with true by reflexivity.
      cbn [negb orb].
      rewrite length_append. cbn [String.length].
      replace (7 + String.length secretToken - 7)%nat
        with (String.length secretToken) by lia.
      pose proof (substring_append_skip "Bearer " secretToken 0
                    (String.length secretToken)) as Hs.
      cbn [String.length] in Hs. rewrite Nat.add_0_r in Hs.
      rewrite Hs, substring_full, String.eqb_refl. reflexivity.
  - unfold authenticate. destruct authHeader as [h|]; [|right; eauto].
    destruct (negb (strTruthy (Some h)) || negb (String.prefix "Bearer " h));
      [right; eauto|].
    destruct (String.eqb _ secretToken); [left; reflexivity | right; eauto].
Qed.

(* ===================================================================== *)
(** ** Connection lifecycle, session status and teardown *)
(* ===================================================================== *)

Section LifecycleMore.
Variable loggedOut : Z.
Variable qrBase64 : string -> Result string.

Lemma onConnectionUpdate_ledger (sessionName : string) (sock : Sock)
    (update : ConnectionUpdate) (st : State) :
  sessionMessages (onConnectionUpdate loggedOut qrBase64 sessionName sock update st)
  = sessionMessages st.
Proof.
  unfold onConnectionUpdate.
  destruct (storeQr_frame qrBase64 sessionName update st) as [_ [_ [Hm _]]].
  set (st1 := storeQr qrBase64 sessionName update st) in *.
  destruct (connection update) as [[| |]|]; try exact Hm.
  - destruct (sockets st1 !! sessionName); exact Hm.
  - unfold onClose. destruct (shouldReconnect loggedOut (statusCode update)); exact Hm.
Qed.

(** X2.  An open event registers the listener's socket under the session
    name and removes the session's pairing code, also when the same update
    carries a new pairing code; the status route then answers CONNECTED
    with the part of the user id before the first colon.  The chat
    directory, the message ledger, the timers and the entries of other
    sessions are left as they are. *)
Theorem open_transition (sessionName userId : string) (sock : Sock)
    (update : ConnectionUpdate) (credsExist : bool) (st : State) :
  connection update = Some Open ->
  sock_user sock = Some userId ->
  let st' := onConnectionUpdate loggedOut qrBase64 sessionName sock update st in
  sockets st' !! sessionName = Some sock /\
  qrCodes st' !! sessionName = None /\
  statusSession credsExist sessionName st' = StatusConnected (splitHead ":" userId) /\
  sessionChats st' = sessionChats st /\
  sessionMessages st' = sessionMessages st /\
  timers st' = timers st /\
  (forall other, other <> sessionName ->
     sockets st' !! other = sockets st !! other /\
     qrCodes st' !! other = qrCodes st !! other).
Proof.
  intros Hopen Huser st'.
  assert (Hm : sessionMessages st' = sessionMessages st)
    by apply onConnectionUpdate_ledger.
  subst st'. revert Hm. unfold onConnectionUpdate. rewrite Hopen.
  destruct (storeQr_frame qrBase64 sessionName update st)
    as [Hs [Hc [_ [Ht Hq]]]].
  set (st1 := storeQr qrBase64 sessionName update st) in *.
  intros Hm. unfold statusSession. simpl in *.
  rewrite lookup_insert_eq, lookup_delete_eq, Huser.
  repeat split; try assumption.
  - rewrite lookup_insert_ne by congruence. rewrite Hs. reflexivity.
  - rewrite lookup_delete_ne by congruence. apply Hq. assumption.
Qed.

(** X3.  No run of connection updates, for whatever sessions, sockets and
    status codes, changes the message ledger of any session: what the
    listeners cached survives every disconnect and reconnect. *)
Theorem connection_updates_keep_ledger
    (events : list (string * Sock * ConnectionUpdate)) (st : State) :
  sessionMessages (onConnectionUpdates loggedOut qrBase64 events st) = sessionMessages st.
Proof.
  unfold onConnectionUpdates. revert st.
  induction events as [|e events IH]; intros st; [reflexivity|].
  simpl. rewrite IH. apply onConnectionUpdate_ledger.
Qed.

(** X4.  After a close event the status route no longer answers CONNECTED
    for the session, whatever the update carried besides: it answers
    connecting when the credentials file exists and disconnected when it
    does not. *)
Theorem status_after_close (sessionName : string) (sock : Sock)
    (update : ConnectionUpdate) (credsExist : bool) (st : State) :
  connection update = Some Close ->
  statusSession credsExist sessionName
    (onConnectionUpdate loggedOut qrBase64 sessionName sock update st)
  = if credsExist then StatusConnecting else StatusDisconnected.
Proof.
  intros Hclose. unfold onConnectionUpdate. rewrite Hclose.
  set (st1 := storeQr qrBase64 sessionName update st).
  unfold statusSession, onClose.
  destruct (shouldReconnect loggedOut (statusCode update)); simpl;
    rewrite !lookup_delete_eq; reflexivity.
Qed.
End LifecycleMore.

Lemma open_transition_witness :
  let st' := onConnectionUpdate 401 (fun _ : string => Ok "iVBORw0KGgo") "main"
               pairedSock (openUpdate (Some "2@pairing")) pairingState in
  sockets st' !! "main" = Some pairedSock /\
  qrCodes st' !! "main" = None /\
  statusSession false "main" st' = StatusConnected "911234567890" /\
  sessionMessages st' = sessionMessages pairingState.
Proof.
  intros st'.
  destruct (open_transition 401 (fun _ : string => Ok "iVBORw0KGgo") "main"
              "911234567890:12@s.whatsapp.net" pairedSock
              (openUpdate (Some "2@pairing")) false pairingState eq_refl eq_refl)
    as [H1 [H2 [H3 [_ [H5 _]]]]].
  exact (conj H1 (conj H2 (conj H3 H5))).
Defined.

Lemma status_after_close_witness :
  statusSession false "main"
    (onConnectionUpdate 401 (fun _ : string => Ok "iVBORw0KGgo") "main"
       connectedSock (closeUpdate (Some 428)) sampleState)
  = StatusDisconnected.
Proof.
  exact (status_after_close 401 (fun _ : string => Ok "iVBORw0KGgo") "main"
           connectedSock (closeUpdate (Some 428)) false sampleState eq_refl).
Defined.


(** X6.  Closing a session through the close route whose logout succeeds
    and whose directory is removed leaves no socket and no pairing code for
    the name, so the status route answers disconnected once the credentials
    are gone; the cached chats and messages of the session stay. *)
Theorem close_session_disconnects (dirExists : bool) (sessionName : string) (st : State) :
  let st' := fst (closeSession (Ok tt) (Ok tt) dirExists sessionName st) in
  snd (closeSession (Ok tt) (Ok tt) dirExists sessionName st) = None /\
  statusSession false sessionName st' = StatusDisconnected /\
  sessionChats st' = sessionChats st /\
  sessionMessages st' = sessionMessages st /\
  timers st' = timers st.
Proof.
  unfold closeSession, statusSession.
  destruct dirExists; destruct (sockets st !! sessionName) eqn:Hs; simpl;
    rewrite ?lookup_delete_eq, ?Hs; auto.
Qed.

(** X7.  When [sock.logout()] rejects, the close route still answers
    success, but the socket stays registered: a connected session keeps
    the status CONNECTED, and its caches are untouched. *)
Theorem close_session_failed_logout (e : JsError) (dirExists : bool)
    (sessionName userId : string) (sock : Sock) (credsExist : bool) (st : State) :
  sockets st !! sessionName = Some sock ->
  sock_user sock = Some userId ->
  let r := closeSession (Throw e) (Ok tt) dirExists sessionName st in
  snd r = None /\
  sockets (fst r) !! sessionName = Some sock /\
  statusSession credsExist sessionName (fst r) = StatusConnected (splitHead ":" userId) /\
  sessionMessages (fst r) = sessionMessages st.
Proof.
  intros Hs Hu. unfold closeSession, statusSession. rewrite Hs.
  destruct dirExists; simpl; rewrite Hs, Hu; auto.
Qed.

Lemma close_session_failed_logout_witness :
  let r := closeSession (Throw (Rejected "Connection Closed")) (Ok tt) true "main"
             sampleState in
  snd r = None /\
  sockets (fst r) !! "main" = Some connectedSock /\
  statusSession true "main" (fst r) = StatusConnected "user" /\
  sessionMessages (fst r) = sessionMessages sampleState.
Proof.
  exact (close_session_failed_logout (Rejected "Connection Closed") true "main"
           "user" connectedSock true sampleState eq_refl eq_refl).
Defined.

(* ===================================================================== *)
(** ** The chat directory and the [getMessage] callback *)
(* ===================================================================== *)

Lemma fold_updateChat_absent (chats : list Chat) (chatId : string) (m : JsMap.t Chat) :
  Forall (fun c => chat_id c <> Some chatId) chats ->
  JsMap.get chatId (fold_left updateChat chats m) = JsMap.get chatId m.
Proof.
  revert m. induction chats as [|c chats IH]; intros m Hall; [reflexivity|].
  inversion Hall as [|? ? Hc Hrest]; subst. simpl. rewrite IH by assumption.
  unfold updateChat. destruct (chat_id c) as [i|]; [|reflexivity].
  destruct (strTruthy (Some i)); [|reflexivity].
  apply get_set_ne. congruence.
Qed.

Lemma sessionDirectory_insert (sessionName : string) (st : State)
    (chatMap : JsMap.t Chat) :
  sessionDirectory sessionName
    (setSessionChats st (<[sessionName := chatMap]> (sessionChats st))) = chatMap.
Proof. unfold sessionDirectory. simpl. rewrite lookup_insert_eq. reflexivity. Qed.

(** X8.  A [chats.update] event stores each chat object as delivered under
    its id: after the event the directory holds, for an id, the last chat of
    the batch with that id, replacing whatever was stored; an id that the
    batch does not mention keeps its entry, and the message ledger is
    untouched. *)
Theorem chats_update_last_wins (sessionName chatId : string)
    (before after : list Chat) (chat : Chat) (st : State) :
  chat_id chat = Some chatId -> chatId <> "" ->
  Forall (fun c => chat_id c <> Some chatId) after ->
  let st' := onChatsUpdate sessionName (before ++ chat :: after) st in
  JsMap.get chatId (sessionDirectory sessionName st') = Some chat /\
  (forall other, Forall (fun c => chat_id c <> Some other) (before ++ chat :: after) ->
     JsMap.get other (sessionDirectory sessionName st')
     = JsMap.get other (sessionDirectory sessionName st)) /\
  sessionMessages st' = sessionMessages st.
Proof.
  intros Hid Hne Hafter st'. subst st'. unfold onChatsUpdate.
  rewrite sessionDirectory_insert. split; [|split].
  - rewrite fold_left_app. simpl. rewrite fold_updateChat_absent by assumption.
    unfold updateChat. rewrite Hid.
    replace (strTruthy (Some chatId)) with true
      by (symmetry; apply negb_true_iff, String.eqb_neq; assumption).
    apply get_set_eq.
  - intros other Hall. apply fold_updateChat_absent. assumption.
  - reflexivity.
Qed.

Lemma chats_update_last_wins_witness :
  let st' := onChatsUpdate "main"
               [updatedChat sampleJid "Asha" 4; updatedChat sampleJid "Asha" 0]
               sampleState in
  JsMap.get sampleJid (sessionDirectory "main" st') = Some (updatedChat sampleJid "Asha" 0) /\
  sessionMessages st' = sessionMessages sampleState.
Proof.
  intros st'.
  destruct (chats_update_last_wins "main" sampleJid [updatedChat sampleJid "Asha" 4] []
              (updatedChat sampleJid "Asha" 0) sampleState eq_refl)
    as [H1 [_ H3]].
  - discriminate.
  - constructor.
  - exact (conj H1 H3).
Defined.

Lemma find_app_none {A : Type} (f : A -> bool) (l k : list A) :
  find f l = None -> find f (l ++ k) = find f k.
Proof.
  induction l as [|a l IH]; simpl; [reflexivity|].
  destruct (f a); [discriminate | exact IH].
Qed.

Lemma find_tl_none {A : Type} (f : A -> bool) (l : list A) :
  find f l = None -> find f (tl l) = None.
Proof. destruct l as [|a l]; simpl; [auto|]. destruct (f a); [discriminate | auto]. Qed.

Lemma idExists_find (stored : list WAMessage) (i : option string) :
  idExists stored i = false <-> find (fun m => bool_decide (keyId m = i)) stored = None.
Proof.
  unfold idExists. induction stored as [|m stored IH]; simpl; [tauto|].
  destruct (bool_decide (keyId m = i)); simpl; [split; discriminate | exact IH].
Qed.

Lemma getMessage_chatArray (sessionName jid : string) (k : MessageKey) (st : State)
    (l : list WAMessage) :
  key_remoteJid k = Some jid -> jid <> "" ->
  JsMap.get jid (sessionLedger sessionName st) = Some l ->
  getMessage sessionName (Some k) st
  = match find (fun m => bool_decide (keyId m = key_id k)) l with
    | Some found => msg_message found
    | None => Some placeholderContent
    end.
Proof.
  intros Hj Hne Hget. unfold getMessage. rewrite Hj.
  replace (strTruthy (Some jid)) with true
    by (symmetry; apply negb_true_iff, String.eqb_neq; assumption).
  unfold sessionLedger in Hget.
  destruct (sessionMessages st !! sessionName) as [store|]; simpl in Hget;
    [|discriminate].
  rewrite Hget. reflexivity.
Qed.

Lemma upsertMessage_get (sessionName chatId : string) (st : State)
    (m : WAMessage) (k : MessageKey) :
  msg_key m = Some k -> key_remoteJid k = Some chatId -> chatId <> "" ->
  JsMap.get chatId (sessionLedger sessionName (upsertMessage sessionName st m))
  = Some (appendVia (chatArray chatId (sessionLedger sessionName st)) (LiveUpsert, m)).
Proof.
  intros Hk Hj Hne. unfold upsertMessage. rewrite Hk, Hj.
  replace (strTruthy (Some chatId)) with true
    by (symmetry; apply negb_true_iff, String.eqb_neq; assumption).
  unfold sessionLedger at 1.
  cbn [sessionMessages setSessionChats setSessionMessages].
  rewrite lookup_insert_eq. cbn [default from_option id].
  unfold storeUpsert. rewrite get_set_eq, chatArray_ensureChat. reflexivity.
Qed.

(** X9.  The message that the upsert listener has just stored is what the
    [getMessage] callback hands back for its key: the content of the
    message when its id was new to the chat, and the content of the copy
    stored first when the id was already there ([undefined] when that
    message has no content).  The callback does not fall back to its
    placeholder in either case. *)
Theorem getMessage_after_upsert (sessionName chatId : string) (st : State)
    (m : WAMessage) (k : MessageKey) :
  msg_key m = Some k -> key_remoteJid k = Some chatId -> chatId <> "" ->
  let stored := chatArray chatId (sessionLedger sessionName st) in
  getMessage sessionName (Some k) (upsertMessage sessionName st m)
  = match find (fun x => bool_decide (keyId x = key_id k)) stored with
    | Some first => msg_message first
    | None => msg_message m
    end.
Proof.
  intros Hk Hj Hne stored.
  rewrite (getMessage_chatArray sessionName chatId k _ _ Hj Hne
             (upsertMessage_get sessionName chatId st m k Hk Hj Hne)).
  fold stored.
  assert (Hid : keyId m = key_id k) by (unfold keyId; rewrite Hk; reflexivity).
  destruct (find (fun x => bool_decide (keyId x = key_id k)) stored) as [first|] eqn:Hf.
  - assert (He : idExists stored (keyId (snd (LiveUpsert, m))) = true).
    { simpl. rewrite Hid. destruct (idExists stored (key_id k)) eqn:E; [reflexivity|].
      apply idExists_find in E. congruence. }
    rewrite appendVia_present by exact He. rewrite Hf. reflexivity.
  - assert (He : idExists stored (keyId (snd (LiveUpsert, m))) = false).
    { simpl. rewrite Hid. apply idExists_find. assumption. }
    rewrite appendVia_fresh by exact He.
    change (storedForm (LiveUpsert, m)) with m.
    assert (Hm : bool_decide (keyId m = key_id k) = true)
      by (apply bool_decide_eq_true; assumption).
    destruct (pushCapped_snoc stored m) as [-> | ->].
    + rewrite find_app_none by assumption. simpl. rewrite Hm. reflexivity.
    + rewrite find_app_none by (apply find_tl_none; assumption).
      simpl. rewrite Hm. reflexivity.
Qed.

Lemma getMessage_after_upsert_witness :
  getMessage "main" (msg_key embedded2)
    (upsertMessage "main" sampleState embedded2)
  = msg_message embedded2.
Proof.
  exact (getMessage_after_upsert "main" sampleJid sampleState embedded2
           {| key_remoteJid := Some sampleJid; key_id := Some "EMB2"; key_fromMe := true |}
           eq_refl eq_refl ltac:(discriminate)).
Defined.

(* ===================================================================== *)
(** ** Invariants of the ledger under every writer *)
(* ===================================================================== *)

Section ArrayInvariant.
Variable P : list WAMessage -> Prop.
Hypothesis P_nil : P [].
Hypothesis P_append : forall l e, P l -> P (appendVia l e).

Lemma storeAll_set (store : JsMap.t (list WAMessage)) (jid : string)
    (l : list WAMessage) :
  storeAll P store -> P l -> storeAll P (JsMap.set jid l store).
Proof.
  intros Hb Hl jid' l'. rewrite get_set.
  destruct (String.eqb jid jid'); [intros [= <-]; assumption | apply Hb].
Qed.

Lemma storeAll_ensureChat (store : JsMap.t (list WAMessage)) (jid : string) :
  storeAll P store -> storeAll P (ensureChat jid store).
Proof using P_nil.
  intros Hb. unfold ensureChat. destruct (JsMap.has jid store); [assumption|].
  apply storeAll_set; assumption.
Qed.

Lemma chatArray_all (store : JsMap.t (list WAMessage)) (jid : string) :
  storeAll P store -> P (chatArray jid store).
Proof using P_nil.
  intros Hb. unfold chatArray. destruct (JsMap.get jid store) eqn:E.
  - eapply Hb; eassumption.
  - exact P_nil.
Qed.

Lemma storeUpsert_all (store : JsMap.t (list WAMessage)) (chatId : string)
    (m : WAMessage) :
  storeAll P store -> storeAll P (storeUpsert store chatId m).
Proof using P_nil P_append.
  intros Hb. unfold storeUpsert.
  apply storeAll_set; [apply storeAll_ensureChat; assumption|].
  apply (P_append _ (LiveUpsert, m)).
  apply chatArray_all, storeAll_ensureChat. assumption.
Qed.

Lemma historyMessage_all (store : JsMap.t (list WAMessage)) (m : WAMessage) :
  storeAll P store -> storeAll P (historyMessage store m).
Proof using P_nil P_append.
  intros Hb. unfold historyMessage.
  destruct (msg_key m) as [k|]; [|assumption].
  destruct (key_remoteJid k) as [jid|]; [|assumption].
  destruct (_ || _); [assumption|].
  apply storeAll_set; [apply storeAll_ensureChat; assumption|].
  apply (P_append _ (HistoryRoot, m)).
  apply chatArray_all, storeAll_ensureChat. assumption.
Qed.

Lemma historyEntry_all (chatId : string) (store store' : JsMap.t (list WAMessage))
    (w w' : RawEntry) :
  historyEntry chatId store w = Ok (store', w') ->
  storeAll P store -> storeAll P store'.
Proof using P_nil P_append.
  unfold historyEntry. intros H Hb.
  destruct (unwrap w) as [[msg|]|e]; simpl in H;
    [|injection H as <- <-; assumption | discriminate].
  destruct (msg_key msg) as [k|] eqn:Hk; [|injection H as <- <-; assumption].
  destruct (_ || _); [injection H as <- <-; assumption|].
  destruct (idExists _ _) eqn:E.
  - injection H as <- <-. apply storeAll_ensureChat. assumption.
  - injection H as <- <-.
    apply storeAll_set; [apply storeAll_ensureChat; assumption|].
    set (stored := chatArray _ _) in *.
    assert (Hfresh : idExists stored (keyId (snd (HistoryChat, msg))) = false).
    { simpl. unfold keyId. rewrite Hk. exact E. }
    pose proof (appendVia_fresh stored (HistoryChat, msg) Hfresh) as Heq.
    change (storedForm (HistoryChat, msg)) with (normalizeTimestamp msg) in Heq.
    rewrite <- Heq. apply P_append.
    apply chatArray_all, storeAll_ensureChat. assumption.
Qed.

Lemma historyEntries_all (chatId : string) (ws : list RawEntry)
    (store : JsMap.t (list WAMessage)) :
  storeAll P store -> storeAll P (fst (fst (historyEntries chatId store ws))).
Proof using P_nil P_append.
  revert store. induction ws as [|w ws IH]; intros store Hb; simpl; [assumption|].
  destruct (historyEntry chatId store w) as [[store1 w1]|e] eqn:E; [|assumption].
  specialize (IH store1 (historyEntry_all _ _ _ _ _ E Hb)).
  destruct (historyEntries chatId store1 ws) as [[store2 rest2] err]. exact IH.
Qed.

Lemma historyChats_all (chats : list Chat) (chatMap : JsMap.t Chat)
    (store : JsMap.t (list WAMessage)) :
  storeAll P store -> storeAll P (snd (fst (historyChats chatMap store chats))).
Proof using P_nil P_append.
  revert chatMap store. induction chats as [|chat chats IH]; intros chatMap store Hb;
    simpl; [assumption|].
  destruct (chat_id chat) as [chatId|]; [|apply IH; assumption].
  destruct (negb _); [|apply IH; assumption].
  pose proof (historyEntries_all chatId (embeddedMessages chat) store Hb) as H1.
  destruct (historyEntries chatId store (embeddedMessages chat)) as [[store1 ws] err].
  simpl in H1. destruct err; [assumption | apply IH; assumption].
Qed.

Lemma fold_historyMessage_all (messages : list WAMessage)
    (store : JsMap.t (list WAMessage)) :
  storeAll P store -> storeAll P (fold_left historyMessage messages store).
Proof using P_nil P_append.
  revert store. induction messages as [|m ms IH]; intros store Hb; simpl; [assumption|].
  apply IH, historyMessage_all, Hb.
Qed.

Lemma sessionLedger_all (sessionName : string) (st : State) :
  ledgerAll P st -> storeAll P (sessionLedger sessionName st).
Proof.
  intros Hb. unfold sessionLedger.
  destruct (sessionMessages st !! sessionName) as [store|] eqn:E; simpl.
  - eapply Hb. eassumption.
  - intros jid l. simpl. congruence.
Qed.

Lemma ledgerAll_insert (sessionName : string)
    (store : JsMap.t (list WAMessage)) (v : gmap string (JsMap.t (list WAMessage))) :
  (forall s x, v !! s = Some x -> storeAll P x) -> storeAll P store ->
  forall s x, <[sessionName := store]> v !! s = Some x -> storeAll P x.
Proof.
  intros Hv Hs s x. rewrite lookup_insert. case_decide.
  - intros [= <-]. assumption.
  - apply Hv.
Qed.

Lemma upsertMessage_all (sessionName : string) (st : State) (m : WAMessage) :
  ledgerAll P st -> ledgerAll P (upsertMessage sessionName st m).
Proof using P_nil P_append.
  intros Hb. unfold upsertMessage.
  destruct (msg_key m) as [k|]; [|assumption].
  destruct (key_remoteJid k) as [chatId|]; [|assumption].
  destruct (strTruthy (Some chatId)); [|assumption].
  unfold ledgerAll. simpl.
  apply ledgerAll_insert; [exact Hb|].
  apply storeUpsert_all, sessionLedger_all, Hb.
Qed.

Lemma onMessagesUpsert_all (sessionName : string) (messages : list WAMessage)
    (st : State) :
  ledgerAll P st -> ledgerAll P (onMessagesUpsert sessionName messages st).
Proof using P_nil P_append.
  unfold onMessagesUpsert. revert st.
  induction messages as [|m ms IH]; intros st Hb; simpl; [assumption|].
  apply IH, upsertMessage_all, Hb.
Qed.

Lemma onMessagingHistorySet_all (sessionName : string) (history : History)
    (st : State) :
  ledgerAll P st -> ledgerAll P (fst (onMessagingHistorySet sessionName history st)).
Proof using P_nil P_append.
  intros Hb. unfold onMessagingHistorySet.
  pose proof (sessionLedger_all sessionName st Hb) as Hs.
  assert (H1 : storeAll P (snd (fst
            match history_chats history with
            | Some chats => historyChats (sessionDirectory sessionName st)
                              (sessionLedger sessionName st) chats
            | None => (sessionDirectory sessionName st, sessionLedger sessionName st, None)
            end))).
  { destruct (history_chats history); [apply historyChats_all; assumption | assumption]. }
  destruct (match history_chats history with Some _ => _ | None => _ end)
    as [[chatMap1 store1] err].
  simpl in H1. unfold ledgerAll. simpl.
  apply ledgerAll_insert; [exact Hb|].
  destruct err; [assumption|].
  destruct (history_messages history); [|assumption].
  apply fold_historyMessage_all. assumption.
Qed.

Lemma applyEvent_all (ev : LedgerEvent) (st : State) :
  ledgerAll P st -> ledgerAll P (applyEvent st ev).
Proof using P_nil P_append.
  intros Hb. destruct ev; simpl.
  - apply onMessagesUpsert_all. assumption.
  - apply onMessagingHistorySet_all. assumption.
Qed.
End ArrayInvariant.

Lemma uniqueIds_perm (l l' : list WAMessage) :
  Permutation l l' -> uniqueIds l -> uniqueIds l'.
Proof.
  unfold uniqueIds. intros Hp Hnd.
  pose proof (Permutation_map keyId Hp) as Hm. rewrite <- Hm. exact Hnd.
Qed.

Lemma uniqueIds_skipn (n : nat) (l : list WAMessage) :
  uniqueIds l -> uniqueIds (skipn n l).
Proof.
  unfold uniqueIds. revert l. induction n as [|n IH]; intros l Hnd; [exact Hnd|].
  destruct l as [|a l]; [exact Hnd|]. simpl. apply IH.
  simpl in Hnd. inversion Hnd; assumption.
Qed.

Lemma writeBack_unique (messages stored : list WAMessage) :
  uniqueIds stored -> uniqueIds (writeBack stored messages).
Proof.
  unfold writeBack. revert stored.
  induction messages as [|m ms IH]; intros stored Hnd; simpl; [exact Hnd|].
  apply IH. destruct (idExists stored (keyId m)) eqn:E; [exact Hnd|].
  unfold uniqueIds. rewrite map_app. simpl. apply NoDup_app.
  split; [exact Hnd|]. split.
  - intros x Hx Hx'. apply list_elem_of_In in Hx, Hx'.
    destruct Hx' as [<- | []]. apply idExists_false in E. contradiction.
  - apply NoDup_singleton.
Qed.

Lemma getMessagesForChat_unique (sessionName jid : string) (minCount : Z)
    (st st' : State) (found : list WAMessage) :
  ledgerUnique st ->
  getMessagesForChat sessionName jid minCount st = Ok (found, st') ->
  ledgerUnique st' /\ uniqueIds found.
Proof.
  intros Hu. unfold getMessagesForChat.
  assert (Hnil : uniqueIds []) by constructor.
  destruct (sessionMessages st !! sessionName) as [messageMap|] eqn:Hm;
    [|intros [= <- <-]; auto].
  destruct (locateMessages jid messageMap) as [[storedJid|]|e]; simpl;
    [|intros [= <- <-]; auto | discriminate].
  destruct (chatArray storedJid messageMap) as [|a l] eqn:Ha;
    [intros [= <- <-]; auto|].
  intros [= <- <-].
  assert (Hsorted : uniqueIds (jsSort compareTs (a :: l))).
  { apply (uniqueIds_perm (a :: l)); [symmetry; apply jsSort_perm|].
    rewrite <- Ha. apply chatArray_all; [constructor|]. eapply Hu. eassumption. }
  split.
  - unfold ledgerUnique, ledgerAll. simpl.
    apply ledgerAll_insert; [exact Hu|].
    apply storeAll_set; [eapply Hu; eassumption | exact Hsorted].
  - apply uniqueIds_skipn. exact Hsorted.
Qed.

Lemma rawFallback_unique (sessionName jid : string) (st : State) :
  ledgerUnique st -> ledgerUnique (snd (rawFallback sessionName jid st)).
Proof.
  intros Hu. unfold rawFallback.
  destruct (sessionChats st !! sessionName) as [chatMap|]; [|exact Hu].
  destruct (JsMap.get jid chatMap) as [chat|]; [|exact Hu].
  destruct (embeddedMessages chat) as [|w ws]; [exact Hu|].
  destruct (extractRaw (w :: ws)) as [[messages ws'] err].
  destruct err as [e|]; [exact Hu|].
  unfold ledgerUnique, ledgerAll. simpl.
  apply ledgerAll_insert; [exact Hu|].
  assert (Hs : storeAll uniqueIds (ensureChat jid
            (sessionLedger sessionName
               (setSessionChats st
                  (<[sessionName := JsMap.set jid (setEmbeddedMessages chat ws') chatMap]>
                     (sessionChats st)))))).
  { apply storeAll_ensureChat; [constructor|].
    apply sessionLedger_all. exact Hu. }
  apply storeAll_set; [exact Hs|].
  apply writeBack_unique. apply chatArray_all; [constructor | exact Hs].
Qed.

Lemma liveFetch_state (sessionName jid : string) (load : LoadResult) (st : State) :
  snd (liveFetch sessionName jid load st) = st.
Proof.
  unfold liveFetch. destruct load as [e|[[|m rest]|]]; reflexivity.
Qed.

Lemma retrieve_unique (sock : Sock) (sessionName jid : string) (requestedLimit now : Z)
    (load : LoadResult) (st : State) :
  ledgerUnique st ->
  ledgerUnique (snd (fst (retrieve sock sessionName jid requestedLimit now load st))).
Proof.
  intros Hu. unfold retrieve.
  destruct (getMessagesForChat sessionName jid (Z.max minMessages requestedLimit) st)
    as [[found st1]|e] eqn:Hg; [|exact Hu].
  destruct (getMessagesForChat_unique _ _ _ _ _ _ Hu Hg) as [Hu1 _].
  assert (Hu2 : ledgerUnique (snd
            match found with
            | [] => rawFallback sessionName jid st1
            | _ :: _ => (Ok found, st1)
            end)).
  { destruct found; [apply rawFallback_unique; exact Hu1 | exact Hu1]. }
  destruct (match found with [] => _ | _ :: _ => _ end) as [r st2].
  simpl in Hu2. destruct r as [messages1|e]; [|exact Hu2].
  set (messages2 := match messages1 with [] => _ | _ :: _ => _ end).
  assert (Hu3 : ledgerUnique (snd (fst
            match messages2 with
            | [] =>
                let '(loaded, st') := liveFetch sessionName jid load st2 in
                (loaded, st', [(jid, smallLimit)])
            | _ :: _ => (map Some messages2, st2, [])
            end))).
  { destruct messages2; [|exact Hu2].
    pose proof (liveFetch_state sessionName jid load st2) as Hl.
    destruct (liveFetch sessionName jid load st2) as [loaded st'].
    simpl in *. subst st'. exact Hu2. }
  destruct (match messages2 with [] => _ | _ :: _ => _ end) as [[messages3 st3] fetches].
  simpl in Hu3. destruct (formatAll now jid messages3); exact Hu3.
Qed.

Lemma sampleState_unique : ledgerUnique sampleState.
Proof.
  intros sessionName store Hs.
  change (sessionMessages sampleState)
    with ({[ "main" := [(sampleJid, [sampleMessage 1 1001])] ]}
          : gmap string (JsMap.t (list WAMessage))) in Hs.
  apply lookup_singleton_Some in Hs.
  destruct Hs as [_ <-]. intros jid l. simpl.
  destruct (String.eqb jid sampleJid); [|discriminate].
  intros [= <-]. repeat constructor. intros H. inversion H.
Qed.

(** X10.  Message ids stay pairwise distinct within every chat array of the
    ledger under everything that writes it: the upsert and history
    listeners, a read by [getMessagesForChat] (which also returns distinct
    ids) and a request to the message route with its write-back. *)
Theorem ledger_ids_stay_unique (st : State) :
  ledgerUnique st ->
  (forall ev, ledgerUnique (applyEvent st ev)) /\
  (forall sessionName chats, ledgerUnique (onChatsUpdate sessionName chats st)) /\
  (forall sessionName jid minCount found st',
     getMessagesForChat sessionName jid minCount st = Ok (found, st') ->
     ledgerUnique st' /\ uniqueIds found) /\
  (forall sessionName jid parsedLimit now load,
     ledgerUnique (after (getMessages sessionName jid parsedLimit now load st))).
Proof.
  intros Hu. split; [|split; [|split]].
  - intros ev. apply applyEvent_all; [constructor | | exact Hu].
    intros l e. apply appendVia_NoDup.
  - intros sessionName chats. exact Hu.
  - intros sessionName jid minCount found st'. apply getMessagesForChat_unique. exact Hu.
  - intros sessionName jid parsedLimit now load. unfold getMessages.
    destruct (connected st sessionName) as [sock|]; [|exact Hu].
    pose proof (retrieve_unique sock sessionName jid (requestedLimitOf parsedLimit)
                  now load st Hu) as Hr.
    destruct (retrieve sock sessionName jid (requestedLimitOf parsedLimit) now load st)
      as [[[[messages formatted]|e] st'] fetches]; exact Hr.
Qed.

Lemma ledger_ids_stay_unique_witness :
  ledgerUnique
    (applyEvent sampleState
       (UpsertEvent "main" [sampleMessage 1 1001; sampleMessage 2 1002])) /\
  ledgerUnique (after (getMessages "main" sampleJid (Num 10) sampleNow
                         (LoadResolves None) sampleState)).
Proof.
  destruct (ledger_ids_stay_unique sampleState sampleState_unique) as [H1 [_ [_ H4]]].
  exact (conj (H1 _) (H4 _ _ _ _ _)).
Defined.

(* ===================================================================== *)
(** ** More on reading a chat's ledger *)
(* ===================================================================== *)

Lemma StronglySorted_app_le {A : Type} (R : A -> A -> Prop) (a b : list A) :
  StronglySorted R (a ++ b) -> forall x y, In x a -> In y b -> R x y.
Proof.
  induction a as [|h a IH]; intros Hs x y Hx Hy; [contradiction|].
  simpl in Hs. inversion Hs as [|? ? Hrest Hall]; subst.
  destruct Hx as [<-|Hx].
  - rewrite List.Forall_forall in Hall. apply Hall. apply in_or_app. right. exact Hy.
  - apply IH; assumption.
Qed.

(** X11.  A read that locates a non-empty array returns the tail of the
    sorted array that holds [max(minCount, unread)] messages, all of them
    when the array is shorter and none when that number is not positive;
    [unread] is the unread count of the directory entry stored under the
    requested id.  For numeric timestamps no message left out is newer than
    a message returned. *)
Theorem read_returns_newest (sessionName jid storedJid : string) (minCount : Z)
    (st : State) (messageMap : JsMap.t (list WAMessage)) (old : list WAMessage) :
  sessionMessages st !! sessionName = Some messageMap ->
  locateMessages jid messageMap = Ok (Some storedJid) ->
  chatArray storedJid messageMap = old ->
  old <> [] ->
  let need := Z.max minCount (unreadOf (JsMap.get jid (sessionDirectory sessionName st))) in
  exists found st' older,
    getMessagesForChat sessionName jid minCount st = Ok (found, st') /\
    jsSort compareTs old = older ++ found /\
    Z.of_nat (length found) = Z.max 0 (Z.min (Z.of_nat (length old)) need) /\
    (Forall finiteTs old ->
     forall o f, In o older -> In f found -> tsValue o <= tsValue f).
Proof.
  intros Hmap Hloc Hold Hne need. unfold getMessagesForChat. rewrite Hmap, Hloc.
  cbn [mbind Result_bind]. rewrite Hold.
  destruct old as [|m0 old']; [congruence|].
  assert (Hchat : match sessionChats st !! sessionName with
                  | Some chatMap => JsMap.get jid chatMap
                  | None => None
                  end = JsMap.get jid (sessionDirectory sessionName st)).
  { unfold sessionDirectory. destruct (sessionChats st !! sessionName); reflexivity. }
  rewrite Hchat. fold need.
  set (start := Z.to_nat (Z.max 0 (Z.of_nat (length (m0 :: old')) - need))).
  exists (sliceFrom start (jsSort compareTs (m0 :: old'))).
  eexists. exists (firstn start (jsSort compareTs (m0 :: old'))).
  split; [reflexivity|]. unfold sliceFrom. split; [|split].
  - symmetry. apply firstn_skipn.
  - rewrite length_skipn, jsSort_length. subst start. lia.
  - intros Hfin o f Ho Hf.
    pose proof (read_sorted _ Hfin) as Hsorted. unfold sortedByTs in Hsorted.
    rewrite <- (firstn_skipn start (jsSort compareTs (m0 :: old'))) in Hsorted.
    exact (StronglySorted_app_le _ _ _ Hsorted o f Ho Hf).
Qed.

Lemma read_returns_newest_witness :
  exists found st' older,
    getMessagesForChat "main" sampleJid 1 sampleState = Ok (found, st') /\
    jsSort compareTs [sampleMessage 1 1001] = older ++ found /\
    Z.of_nat (length found) = 1.
Proof.
  destruct (read_returns_newest "main" sampleJid sampleJid 1 sampleState
              [(sampleJid, [sampleMessage 1 1001])] [sampleMessage 1 1001]
              eq_refl eq_refl eq_refl ltac:(discriminate))
    as [found [st' [older [H1 [H2 [H3 _]]]]]].
  exists found, st', older. exact (conj H1 (conj H2 H3)).
Defined.

Section SortIdempotent.
Context {A : Type} (cmp : A -> A -> JsNum) (key : A -> Z) (P : A -> Prop).
Hypothesis cmp_key : forall x e, P x -> P e -> numNeg (cmp x e) = (key x <? key e).

Lemma insertSorted_last (x : A) (l : list A) :
  P x -> Forall P l -> Forall (fun e => key e <= key x) l ->
  insertSorted cmp x l = l ++ [x].
Proof using cmp_key.
  intros Hx. induction l as [|e l IH]; intros HP Hle; [reflexivity|].
  inversion HP; inversion Hle; subst. simpl.
  rewrite cmp_key by assumption.
  destruct (Z.ltb_spec (key x) (key e)); [lia|].
  f_equal. apply IH; assumption.
Qed.

Lemma fold_insert_sorted_id (l acc : list A) :
  Forall P (acc ++ l) ->
  StronglySorted (fun a b => key a <= key b) (acc ++ l) ->
  fold_left (fun a x => insertSorted cmp x a) l acc = acc ++ l.
Proof using cmp_key.
  revert acc. induction l as [|x l IH]; intros acc HP Hs.
  - simpl. rewrite app_nil_r. reflexivity.
  - assert (Heq : acc ++ x :: l = (acc ++ [x]) ++ l)
      by (rewrite <- List.app_assoc; reflexivity).
    simpl. rewrite insertSorted_last.
    + rewrite Heq. apply IH; rewrite <- Heq; assumption.
    + rewrite List.Forall_forall in HP. apply HP. apply in_or_app. right. left. reflexivity.
    + apply Forall_app in HP. destruct HP as [HP _]. exact HP.
    + rewrite List.Forall_forall. intros e He.
      apply (StronglySorted_app_le _ acc (x :: l) Hs e x He). left. reflexivity.
Qed.

Lemma jsSort_sorted_id (l : list A) :
  Forall P l -> StronglySorted (fun a b => key a <= key b) l -> jsSort cmp l = l.
Proof using cmp_key.
  intros HP Hs. unfold jsSort. apply (fold_insert_sorted_id l []); assumption.
Qed.
End SortIdempotent.

Lemma locateMessages_after_sort (jid storedJid : string)
    (messageMap : JsMap.t (list WAMessage)) (a : WAMessage) (l sorted : list WAMessage) :
  locateMessages jid messageMap = Ok (Some storedJid) ->
  chatArray storedJid messageMap = a :: l ->
  sorted <> [] ->
  locateMessages jid (JsMap.set storedJid sorted messageMap) = Ok (Some storedJid).
Proof.
  intros Hloc Harr Hne. unfold locateMessages in *.
  assert (Hget : JsMap.get storedJid messageMap = Some (a :: l)).
  { unfold chatArray in Harr. destruct (JsMap.get storedJid messageMap); congruence. }
  destruct (String.eqb_spec storedJid jid) as [->|Hdiff].
  - rewrite get_set_eq. destruct sorted; [congruence | reflexivity].
  - rewrite get_set_ne by assumption.
    assert (Hkeys : JsMap.keys (JsMap.set storedJid sorted messageMap)
                    = JsMap.keys messageMap).
    { rewrite keys_set. unfold JsMap.has. rewrite Hget. reflexivity. }
    rewrite Hkeys.
    destruct (JsMap.get jid messageMap) as [[|x r]|]; exact Hloc.
Qed.

(** X12.  Reading is idempotent on numeric timestamps: a second read of the
    same chat with the same count returns the same messages and leaves the
    registries as the first read left them. *)
Theorem read_is_idempotent (sessionName jid : string) (minCount : Z)
    (st st' : State) (found : list WAMessage) :
  (forall storedJid l,
     JsMap.get storedJid (sessionLedger sessionName st) = Some l -> Forall finiteTs l) ->
  getMessagesForChat sessionName jid minCount st = Ok (found, st') ->
  getMessagesForChat sessionName jid minCount st' = Ok (found, st').
Proof.
  intros Hfin H. pose proof H as H0. unfold getMessagesForChat in H.
  unfold sessionLedger in Hfin.
  destruct (sessionMessages st !! sessionName) as [messageMap|] eqn:Hmap;
    [|injection H as <- <-; exact H0].
  destruct (locateMessages jid messageMap) as [[storedJid|]|e] eqn:Hloc;
    cbn [mbind Result_bind] in H;
    [|injection H as <- <-; exact H0 | discriminate].
  destruct (chatArray storedJid messageMap) as [|a l] eqn:Harr;
    [injection H as <- <-; exact H0|].
  clear H0.
  assert (Hget : JsMap.get storedJid messageMap = Some (a :: l)).
  { unfold chatArray in Harr. destruct (JsMap.get storedJid messageMap); congruence. }
  assert (Hf : Forall finiteTs (a :: l)) by (eapply Hfin; simpl; exact Hget).
  set (sorted := jsSort compareTs (a :: l)) in *.
  assert (Hlen : length sorted = length (a :: l)) by apply jsSort_length.
  assert (Hne : sorted <> []) by (intros E; rewrite E in Hlen; discriminate).
  assert (Hfs : Forall finiteTs sorted).
  { eapply Permutation_Forall; [|exact Hf]. symmetry. apply jsSort_perm. }
  assert (Hid : jsSort compareTs sorted = sorted).
  { apply (jsSort_sorted_id compareTs tsValue finiteTs compareTs_finite);
      [exact Hfs | apply read_sorted; exact Hf]. }
  injection H as <- <-. unfold getMessagesForChat.
  cbn [sessionMessages sessionChats setSessionMessages].
  rewrite lookup_insert_eq.
  rewrite (locateMessages_after_sort jid storedJid messageMap a l sorted Hloc Harr Hne).
  cbn [mbind Result_bind].
  unfold chatArray at 1. rewrite get_set_eq.
  destruct sorted as [|s0 srest] eqn:Hs; [congruence|].
  rewrite Hid, Hlen. f_equal. f_equal.
  unfold setSessionMessages. cbn [sockets qrCodes sessionChats timers].
  f_equal. rewrite insert_insert_eq. f_equal.
  apply set_same. apply get_set_eq.
Qed.

Lemma incoming_reply_finite : Forall finiteTs [incoming; reply].
Proof.
  repeat constructor; eexists; (split; [reflexivity | unfold maxSafeInteger; lia]).
Qed.

Lemma conversationState_finite (storedJid : string) (l : list WAMessage) :
  JsMap.get storedJid (sessionLedger "main" conversationState) = Some l ->
  Forall finiteTs l.
Proof.
  change (sessionLedger "main" conversationState)
    with [(sampleJid, [incoming; reply])].
  unfold JsMap.get. destruct (String.eqb storedJid sampleJid); [|discriminate].
  intros [= <-]. exact incoming_reply_finite.
Qed.

Lemma read_is_idempotent_witness :
  match getMessagesForChat "main" sampleJid 10 conversationState with
  | Ok (found, st') => getMessagesForChat "main" sampleJid 10 st' = Ok (found, st')
  | Throw _ => False
  end.
Proof.
  destruct (getMessagesForChat "main" sampleJid 10 conversationState)
    as [[found st']|e] eqn:H.
  - exact (read_is_idempotent "main" sampleJid 10 conversationState st' found
             conversationState_finite H).
  - vm_compute in H. discriminate.
Defined.

Lemma includes_cons_false (c : ascii) (rest sub : string) :
  includes (String c rest) sub = false -> includes rest sub = false.
Proof. simpl. intros H. apply orb_false_iff in H. tauto. Qed.

Lemma decode_plain (s : string) :
  includes s "%" = false -> decodeURIComponent s = Ok s.
Proof.
  unfold decodeURIComponent. induction s as [|c s IH]; intros H; [reflexivity|].
  pose proof (includes_cons_false _ _ _ H) as Hrest.
  simpl in H. apply orb_false_iff in H. destruct H as [Hp _].
  simpl. destruct (Ascii.eqb_spec c "%") as [->|Hc].
  - simpl in Hp. destruct s; discriminate.
  - rewrite (IH Hrest). reflexivity.
Qed.

Lemma findStoredJid_plain (jid : string) (storedJids : list string) :
  includes jid "%" = false ->
  Forall (fun k => includes k "%" = false) storedJids ->
  findStoredJid jid storedJids = Ok None \/ findStoredJid jid storedJids = Ok (Some jid).
Proof.
  intros Hj Hall. induction Hall as [|k ks Hk _ IH]; [left; reflexivity|].
  simpl. destruct (String.eqb_spec k jid) as [->|Hne]; [right; reflexivity|].
  rewrite (decode_plain jid Hj). cbn [mbind Result_bind].
  destruct (String.eqb_spec k jid) as [|_]; [contradiction|].
  rewrite (decode_plain k Hk). cbn [mbind Result_bind].
  destruct (String.eqb_spec k jid) as [|_]; [contradiction|]. exact IH.
Qed.

(** X13.  When neither the requested id nor any stored chat id contains a
    percent sign, a read never throws, and it finds messages only under
    exactly the requested id: a chat whose own array is missing or empty
    reads as empty and leaves the registries as they are. *)
Theorem read_plain_ids (sessionName jid : string) (minCount : Z) (st : State) :
  includes jid "%" = false ->
  Forall (fun k => includes k "%" = false) (JsMap.keys (sessionLedger sessionName st)) ->
  exists found st',
    getMessagesForChat sessionName jid minCount st = Ok (found, st') /\
    (chatArray jid (sessionLedger sessionName st) = [] -> found = [] /\ st' = st).
Proof.
  intros Hj Hall. unfold getMessagesForChat, sessionLedger in *.
  destruct (sessionMessages st !! sessionName) as [messageMap|]; simpl in *;
    [|eexists; eexists; split; [reflexivity | auto]].
  assert (Hloc : locateMessages jid messageMap = Ok None \/
                 locateMessages jid messageMap = Ok (Some jid)).
  { unfold locateMessages.
    destruct (JsMap.get jid messageMap) as [[|x r]|];
      auto using findStoredJid_plain. }
  destruct Hloc as [-> | ->]; cbn [mbind Result_bind].
  - eexists. eexists. split; [reflexivity | auto].
  - destruct (chatArray jid messageMap) as [|a l].
    + eexists. eexists. split; [reflexivity | auto].
    + eexists. eexists. split; [reflexivity | discriminate].
Qed.

Lemma read_plain_ids_witness :
  exists found st',
    getMessagesForChat "main" "919999999999@s.whatsapp.net" 10 sampleState
    = Ok (found, st') /\
    (chatArray "919999999999@s.whatsapp.net" (sessionLedger "main" sampleState) = [] ->
     found = [] /\ st' = sampleState).
Proof.
  apply (read_plain_ids "main" "919999999999@s.whatsapp.net" 10 sampleState).
  - reflexivity.
  - repeat constructor.
Defined.

(** X14.  A requested id that does not decode (a stray percent sign) makes
    the read throw as soon as the exact lookup misses and the ledger holds
    another chat; the message route then answers HTTP 200 with an empty
    list and the error as its warning, without trying the chat's embedded
    messages, the store or a live fetch, and without changing the
    registries. *)
Theorem read_malformed_id (sessionName jid : string) (parsedLimit : JsNum) (now : Z)
    (load : LoadResult) (st : State) (sock : Sock) (e : JsError)
    (messageMap : JsMap.t (list WAMessage)) :
  connected st sessionName = Some sock ->
  sessionMessages st !! sessionName = Some messageMap ->
  JsMap.get jid messageMap = None ->
  messageMap <> [] ->
  decodeURIComponent jid = Throw e ->
  let out := getMessages sessionName jid parsedLimit now load st in
  status (response out) = 200 /\
  responseMessages (response out) = Some [] /\
  responseWarning (response out) = Some (ErrorLoadingMessages e) /\
  after out = st /\ liveFetches out = [].
Proof.
  intros Hc Hmap Hget Hne Hdec out. subst out.
  assert (Hread : forall minCount,
            getMessagesForChat sessionName jid minCount st = Throw e).
  { intros minCount. unfold getMessagesForChat. rewrite Hmap.
    unfold locateMessages. rewrite Hget.
    destruct messageMap as [|[k v] rest]; [congruence|].
    simpl. simpl in Hget. rewrite String.eqb_sym.
    destruct (String.eqb jid k); [discriminate|].
    rewrite Hdec. reflexivity. }
  unfold getMessages. rewrite Hc. unfold retrieve. rewrite Hread.
  repeat split.
Qed.

Lemma read_malformed_id_witness :
  let out := getMessages "main" "100%" (Num 10) sampleNow (LoadResolves None)
               sampleState in
  status (response out) = 200 /\
  responseMessages (response out) = Some [] /\
  responseWarning (response out) = Some (ErrorLoadingMessages URIError) /\
  after out = sampleState /\ liveFetches out = [].
Proof.
  apply (read_malformed_id "main" "100%" (Num 10) sampleNow (LoadResolves None)
           sampleState connectedSock URIError [(sampleJid, [sampleMessage 1 1001])]);
    first [reflexivity | discriminate].
Defined.

(* ===================================================================== *)
(** ** Order and times of the reconciled chat list *)
(* ===================================================================== *)

Section ChatOrder.
Variable localeCompare : string -> string -> Z.

Lemma compareChats_timed (x e : FormattedChat) :
  hasTime x -> hasTime e ->
  numNeg (compareChats localeCompare x e) = (- chatTime x <? - chatTime e).
Proof.
  unfold hasTime, compareChats, chatTime.
  destruct (fc_lastMessageTime x) as [tx|]; [|congruence].
  destruct (fc_lastMessageTime e) as [te|]; [|congruence].
  intros _ _. simpl.
  destruct (Z.ltb_spec (te - tx) 0), (Z.ltb_spec (- tx) (- te)); (reflexivity || lia).
Qed.

Lemma insertSorted_timed (x : FormattedChat) (ts us : list FormattedChat) :
  hasTime x -> Forall hasTime ts -> Forall (fun f => fc_lastMessageTime f = None) us ->
  insertSorted (compareChats localeCompare) x (ts ++ us)
  = insertSorted (compareChats localeCompare) x ts ++ us.
Proof.
  intros Hx Hts Hus. induction Hts as [|e ts He Hts IH]; simpl.
  - destruct Hus as [|u us Hu Hus]; [reflexivity|]. simpl.
    unfold compareChats. rewrite Hu. unfold hasTime in Hx.
    destruct (fc_lastMessageTime x); [reflexivity | congruence].
  - destruct (numNeg (compareChats localeCompare x e)); [reflexivity|].
    rewrite IH. reflexivity.
Qed.

Lemma insertSorted_untimed (x : FormattedChat) (ts us : list FormattedChat) :
  fc_lastMessageTime x = None -> Forall hasTime ts ->
  insertSorted (compareChats localeCompare) x (ts ++ us)
  = ts ++ insertSorted (compareChats localeCompare) x us.
Proof.
  intros Hx Hts. induction Hts as [|e ts He Hts IH]; simpl; [reflexivity|].
  unfold compareChats at 1. rewrite Hx. unfold hasTime in He.
  destruct (fc_lastMessageTime e); [|congruence]. simpl. rewrite IH. reflexivity.
Qed.

Lemma fold_insert_order (l ts us : list FormattedChat) :
  Forall hasTime ts -> Forall (fun f => fc_lastMessageTime f = None) us ->
  StronglySorted (fun a b => - chatTime a <= - chatTime b) ts ->
  exists ts' us',
    fold_left (fun a x => insertSorted (compareChats localeCompare) x a) l (ts ++ us)
    = ts' ++ us' /\
    Forall hasTime ts' /\ Forall (fun f => fc_lastMessageTime f = None) us' /\
    StronglySorted (fun a b => - chatTime a <= - chatTime b) ts'.
Proof.
  revert ts us. induction l as [|x l IH]; intros ts us Hts Hus Hs; simpl.
  - exists ts, us. auto.
  - destruct (fc_lastMessageTime x) as [t|] eqn:Hx.
    + assert (Hxt : hasTime x) by (unfold hasTime; congruence).
      rewrite insertSorted_timed by assumption. apply IH.
      * eapply Permutation_Forall;
          [symmetry; apply insertSorted_perm | constructor; assumption].
      * assumption.
      * apply (insertSorted_sorted (compareChats localeCompare)
                 (fun f => - chatTime f) hasTime compareChats_timed); assumption.
    + rewrite insertSorted_untimed by assumption. apply IH; try assumption.
      eapply Permutation_Forall;
        [symmetry; apply insertSorted_perm | constructor; assumption].
Qed.

(** X15.  The reconciled list has the chats with a last-message time first,
    newest first, followed by the chats without one, whatever the collation
    that orders the names. *)
Theorem reconcile_order (sock : Sock) (chats : list Chat) (out : list FormattedChat) :
  reconcile localeCompare sock chats = Ok out ->
  exists timed untimed,
    out = timed ++ untimed /\
    Forall hasTime timed /\
    Forall (fun f => fc_lastMessageTime f = None) untimed /\
    StronglySorted (fun a b => chatTime b <= chatTime a) timed.
Proof.
  unfold reconcile. intros H.
  destruct (mergeAll sock chats JsMap.empty) as [merged|e]; [|discriminate].
  simpl in H. injection H as <-. unfold jsSort.
  destruct (fold_insert_order (JsMap.values merged) [] [])
    as [ts [us [Heq [Hts [Hus Hs]]]]]; try constructor.
  exists ts, us. simpl in Heq. repeat split; try assumption.
  clear - Hs. induction Hs as [|a l Hs IH Hall]; constructor; [assumption|].
  eapply List.Forall_impl; [|exact Hall]. simpl. intros b Hb. lia.
Qed.
End ChatOrder.

Lemma reconcile_order_witness :
  exists timed untimed,
    reconcile (fun _ _ => 0) connectedSock
      [rawChat "120363000000000001@g.us" 0; timedChat sampleJid 1 1699990000]
    = Ok (timed ++ untimed) /\
    Forall hasTime timed /\
    Forall (fun f => fc_lastMessageTime f = None) untimed.
Proof.
  destruct (reconcile (fun _ _ => 0) connectedSock
              [rawChat "120363000000000001@g.us" 0; timedChat sampleJid 1 1699990000])
    as [out|e] eqn:H.
  - destruct (reconcile_order (fun _ _ => 0) connectedSock _ out H)
      as [timed [untimed [-> [H1 [H2 _]]]]].
    exists timed, untimed. auto.
  - vm_compute in H. discriminate.
Defined.

Lemma notAfter_refl (a : option Z) : notAfter a a.
Proof. intros t ->. exists t. split; [reflexivity | lia]. Qed.

Lemma notAfter_trans (a b c : option Z) : notAfter a b -> notAfter b c -> notAfter a c.
Proof.
  intros Hab Hbc t Ha. destruct (Hab t Ha) as [t' [Hb Hle]].
  destruct (Hbc t' Hb) as [t'' [Hc Hle']]. exists t''. split; [assumption | lia].
Qed.

Lemma mergeChat_time (existing f : FormattedChat) :
  (fc_lastMessageTime (mergeChat existing f) = fc_lastMessageTime existing /\
   fc_raw (mergeChat existing f) = fc_raw existing /\
   notAfter (fc_lastMessageTime f) (fc_lastMessageTime existing)) \/
  (fc_lastMessageTime (mergeChat existing f) = fc_lastMessageTime f /\
   fc_raw (mergeChat existing f) = fc_raw f /\
   notAfter (fc_lastMessageTime existing) (fc_lastMessageTime f)).
Proof.
  unfold mergeChat, notAfter. simpl.
  destruct (fc_lastMessageTime f) as [t|]; destruct (fc_lastMessageTime existing) as [t0|].
  - destruct (Z.ltb_spec t0 t).
    + right. repeat split. intros ? [= <-]. exists t. split; [reflexivity | lia].
    + left. repeat split. intros ? [= <-]. exists t0. split; [reflexivity | lia].
  - right. repeat split. discriminate.
  - left. repeat split. discriminate.
  - left. repeat split. discriminate.
Qed.

Lemma mergeInto_latest (m : JsMap.t FormattedChat) (done : list FormattedChat)
    (f : FormattedChat) :
  (forall g, In g done -> exists r, JsMap.get (fc_id g) m = Some r) ->
  (forall k r, JsMap.get k m = Some r ->
     (exists g, In g done /\ fc_id g = k /\
                fc_lastMessageTime g = fc_lastMessageTime r /\ fc_raw g = fc_raw r) /\
     (forall g, In g done -> fc_id g = k ->
        notAfter (fc_lastMessageTime g) (fc_lastMessageTime r))) ->
  (forall g, In g (done ++ [f]) -> exists r, JsMap.get (fc_id g) (mergeInto m f) = Some r) /\
  (forall k r, JsMap.get k (mergeInto m f) = Some r ->
    (exists g, In g (done ++ [f]) /\ fc_id g = k /\
               fc_lastMessageTime g = fc_lastMessageTime r /\ fc_raw g = fc_raw r) /\
    (forall g, In g (done ++ [f]) -> fc_id g = k ->
       notAfter (fc_lastMessageTime g) (fc_lastMessageTime r))).
Proof.
  intros Hpres Hinv. split.
  - intros g Hg. apply in_app_iff in Hg. apply mergeInto_present.
    destruct Hg as [Hg|[<-|[]]]; [left; apply Hpres; assumption | right; reflexivity].
  - intros k r. rewrite get_mergeInto.
    destruct (String.eqb_spec (fc_id f) k) as [Hk|Hk].
    + destruct (JsMap.get k m) as [existing|] eqn:Hget.
      * intros [= <-].
        destruct (Hinv k existing Hget) as [[g [Hg [Hgk [Hgt Hgr]]]] Hall].
        destruct (mergeChat_time existing f) as [[Ht [Hr Hle]] | [Ht [Hr Hle]]];
          rewrite Ht, ?Hr; split.
        -- exists g. rewrite in_app_iff. auto.
        -- intros g' Hg' Hk'. apply in_app_iff in Hg'.
           destruct Hg' as [Hg'|[<-|[]]]; [apply Hall; assumption | exact Hle].
        -- exists f. rewrite in_app_iff. simpl. auto.
        -- intros g' Hg' Hk'. apply in_app_iff in Hg'.
           destruct Hg' as [Hg'|[<-|[]]]; [|apply notAfter_refl].
           eapply notAfter_trans; [apply Hall; assumption | exact Hle].
      * intros [= <-]. split.
        -- exists f. rewrite in_app_iff. simpl. auto.
        -- intros g' Hg' Hk'. apply in_app_iff in Hg'.
           destruct Hg' as [Hg'|[<-|[]]]; [|apply notAfter_refl].
           destruct (Hpres g' Hg') as [r0 Hr0]. rewrite Hk' in Hr0. congruence.
    + intros Hget. destruct (Hinv k r Hget) as [[g [Hg [Hgk [Hgt Hgr]]]] Hall]. split.
      * exists g. rewrite in_app_iff. auto.
      * intros g' Hg' Hk'. apply in_app_iff in Hg'.
        destruct Hg' as [Hg'|[<-|[]]]; [apply Hall; assumption | contradiction].
Qed.

Lemma fold_mergeInto_latest (fs : list FormattedChat) (m : JsMap.t FormattedChat)
    (done : list FormattedChat) :
  (forall g, In g done -> exists r, JsMap.get (fc_id g) m = Some r) ->
  (forall k r, JsMap.get k m = Some r ->
     (exists g, In g done /\ fc_id g = k /\
                fc_lastMessageTime g = fc_lastMessageTime r /\ fc_raw g = fc_raw r) /\
     (forall g, In g done -> fc_id g = k ->
        notAfter (fc_lastMessageTime g) (fc_lastMessageTime r))) ->
  forall k r, JsMap.get k (fold_left mergeInto fs m) = Some r ->
    (exists g, In g (done ++ fs) /\ fc_id g = k /\
               fc_lastMessageTime g = fc_lastMessageTime r /\ fc_raw g = fc_raw r) /\
    (forall g, In g (done ++ fs) -> fc_id g = k ->
       notAfter (fc_lastMessageTime g) (fc_lastMessageTime r)).
Proof.
  revert m done. induction fs as [|f fs IH]; intros m done Hpres Hinv; simpl.
  - rewrite app_nil_r. exact Hinv.
  - destruct (mergeInto_latest m done f Hpres Hinv) as [Hpres' Hinv'].
    intros k r Hget.
    replace (done ++ f :: fs) with ((done ++ [f]) ++ fs)
      by (rewrite <- List.app_assoc; reflexivity).
    exact (IH _ _ Hpres' Hinv' k r Hget).
Qed.

(** X16.  The time of a reconciled record is the latest time among the raw
    chats merged into it: one of those chats carries exactly the record's
    time and raw payload, and none of them carries a later time. *)
Theorem reconcile_latest_time (localeCompare : string -> string -> Z) (sock : Sock)
    (chats : list Chat) (out : list FormattedChat) (r : FormattedChat) :
  reconcile localeCompare sock chats = Ok out ->
  In r out ->
  (exists f, In f (formattedOf sock chats) /\ fc_id f = fc_id r /\
             fc_lastMessageTime f = fc_lastMessageTime r /\ fc_raw f = fc_raw r) /\
  (forall f, In f (formattedOf sock chats) -> fc_id f = fc_id r ->
     notAfter (fc_lastMessageTime f) (fc_lastMessageTime r)).
Proof.
  unfold reconcile. intros H Hr.
  destruct (mergeAll sock chats JsMap.empty) as [merged|e] eqn:Hall; [|discriminate].
  simpl in H. injection H as <-.
  apply mergeAll_fold in Hall.
  assert (Hwf : mergedWf merged) by (subst merged; apply fold_mergeInto_wf, mergedWf_empty).
  apply (Permutation_in _ (jsSort_perm _ _)) in Hr.
  pose proof (In_values merged r Hwf Hr) as Hget. rewrite Hall in Hget.
  apply (fold_mergeInto_latest (formattedOf sock chats) JsMap.empty [] ); try exact Hget.
  - intros g [].
  - intros k r0. discriminate.
Qed.

Lemma reconcile_latest_time_witness :
  let chats := [timedChat "A@s.whatsapp.net" 2 1699990000;
                timedChat "B@lid" 3 1699999000] in
  match reconcile (fun _ _ => 0) resolvingSock chats with
  | Ok [r] =>
      (exists f, In f (formattedOf resolvingSock chats) /\ fc_id f = fc_id r /\
                 fc_lastMessageTime f = fc_lastMessageTime r /\ fc_raw f = fc_raw r) /\
      (forall f, In f (formattedOf resolvingSock chats) -> fc_id f = fc_id r ->
         notAfter (fc_lastMessageTime f) (fc_lastMessageTime r))
  | _ => False
  end.
Proof.
  intros chats.
  destruct (reconcile (fun _ _ => 0) resolvingSock chats) as [out|e] eqn:H;
    [|vm_compute in H; discriminate].
  destruct out as [|r [|r' out]]; try (vm_compute in H; discriminate).
  exact (reconcile_latest_time (fun _ _ => 0) resolvingSock chats [r] r H
           (or_introl eq_refl)).
Defined.

(* ===================================================================== *)
(** ** Ids of the reconciled chat list *)
(* ===================================================================== *)

Lemma classify_shape (sock : Sock) (chat : Chat) (chatId canonicalId name : string)
    (chatType : ChatType) :
  classify sock chat chatId = Some (canonicalId, chatType, name) ->
  (endsWith canonicalId "@g.us" = true /\ chatType = Group /\ canonicalId = chatId) \/
  (endsWith canonicalId "@s.whatsapp.net" = true /\ chatType = Individual) \/
  (endsWith canonicalId "@lid" = true /\ chatType = Individual /\ canonicalId = chatId).
Proof.
  unfold classify.
  assert (Hs : forall p, endsWith (p +:+ "@s.whatsapp.net") "@s.whatsapp.net" = true).
  { intros p. rewrite endsWith_append by (simpl; lia). reflexivity. }
  destruct (endsWith chatId "@g.us") eqn:Hg; [intros [= <- <- _]; auto|].
  destruct (endsWith chatId "@s.whatsapp.net") eqn:Hp; [intros [= <- <- _]; auto|].
  destruct (endsWith chatId "@lid") eqn:Hl; [|discriminate].
  destruct (match lookupContact sock chatId with
            | Some c => if strTruthy (contact_phoneNumber c)
                        then contact_phoneNumber c else None
            | None => None
            end) as [phone|].
  - intros [= <- <- _]. auto.
  - destruct (matchLid chatId) as [digits|].
    + destruct (_ && _); intros [= <- <- _]; auto 6.
    + intros [= <- <- _]. auto 6.
Qed.

Lemma formatChat_shape (sock : Sock) (chat : Chat) (f : FormattedChat) :
  formatChat sock chat = Ok (Some f) ->
  isSystemChat (fc_originalId f) = false /\
  ((endsWith (fc_id f) "@g.us" = true /\ fc_type f = Group /\ fc_id f = fc_originalId f) \/
   (endsWith (fc_id f) "@s.whatsapp.net" = true /\ fc_type f = Individual) \/
   (endsWith (fc_id f) "@lid" = true /\ fc_type f = Individual /\
    fc_id f = fc_originalId f)).
Proof.
  unfold formatChat.
  destruct (orOpt (chat_id chat) (chat_jid chat)) as [chatId|]; [|discriminate].
  destruct (negb (strTruthy (Some chatId))); [discriminate|].
  destruct (isSystemChat chatId) eqn:Hsys; [discriminate|].
  destruct (classify sock chat chatId) as [[[canonicalId chatType] name]|] eqn:Hc;
    [|discriminate].
  destruct (lastMessageTimeOf chat) as [t|e]; [|discriminate].
  simpl. intros [= <-]. simpl. split; [exact Hsys|].
  exact (classify_shape _ _ _ _ _ _ Hc).
Qed.

Lemma formattedOf_In (sock : Sock) (chats : list Chat) (f : FormattedChat) :
  In f (formattedOf sock chats) ->
  exists chat, In chat chats /\ formatChat sock chat = Ok (Some f).
Proof.
  induction chats as [|chat chats IH]; simpl; [contradiction|].
  destruct (formatChat sock chat) as [[g|]|e] eqn:Hf.
  - intros [<-|Hin]; [eauto|]. destruct (IH Hin) as [c [Hc Hfc]]. eauto.
  - intros Hin. destruct (IH Hin) as [c [Hc Hfc]]. eauto.
  - intros Hin. destruct (IH Hin) as [c [Hc Hfc]]. eauto.
Qed.

(** X17.  Every record of the reconciled list stands for a chat of the
    batch that is not a broadcast or system chat, and its id ends in
    [@g.us] for a group, in [@s.whatsapp.net] or [@lid] for an individual;
    a group and an unresolved anonymous chat keep the id they came with. *)
Theorem reconcile_id_shape (localeCompare : string -> string -> Z) (sock : Sock)
    (chats : list Chat) (out : list FormattedChat) (r : FormattedChat) :
  reconcile localeCompare sock chats = Ok out ->
  In r out ->
  (exists chat, In chat chats /\
                orOpt (chat_id chat) (chat_jid chat) = Some (fc_originalId r)) /\
  isSystemChat (fc_originalId r) = false /\
  ((endsWith (fc_id r) "@g.us" = true /\ fc_type r = Group /\ fc_id r = fc_originalId r) \/
   (endsWith (fc_id r) "@s.whatsapp.net" = true /\ fc_type r = Individual) \/
   (endsWith (fc_id r) "@lid" = true /\ fc_type r = Individual /\
    fc_id r = fc_originalId r)).
Proof.
  unfold reconcile. intros H Hr.
  destruct (mergeAll sock chats JsMap.empty) as [merged|e] eqn:Hall; [|discriminate].
  simpl in H. injection H as <-.
  apply mergeAll_fold in Hall.
  apply (Permutation_in _ (jsSort_perm _ _)) in Hr.
  unfold JsMap.values in Hr. apply in_map_iff in Hr.
  destruct Hr as [[k r0] [Heq Hin]]. simpl in Heq. subst r0.
  assert (Hgen : forall fs m,
            (forall k r, In (k, r) m ->
               exists f, In f (formattedOf sock chats) /\ fc_id f = fc_id r /\
                         fc_originalId f = fc_originalId r /\ fc_type f = fc_type r) ->
            (forall f, In f fs -> In f (formattedOf sock chats)) ->
            forall k r, In (k, r) (fold_left mergeInto fs m) ->
              exists f, In f (formattedOf sock chats) /\ fc_id f = fc_id r /\
                        fc_originalId f = fc_originalId r /\ fc_type f = fc_type r).
  { induction fs as [|f fs IH]; intros m Hm Hfs k0 r0; simpl; [apply Hm|].
    apply IH; [|intros g Hg; apply Hfs; right; exact Hg].
    intros k1 r1 Hin1. unfold mergeInto in Hin1.
    assert (Hset : forall v, In (k1, r1) (JsMap.set (fc_id f) v m) ->
                             r1 = v \/ In (k1, r1) m).
    { intros v. clear. induction m as [|[k' v'] m IHm]; simpl.
      - intros [[= _ <-]|[]]. auto.
      - destruct (String.eqb (fc_id f) k'); simpl.
        + intros [[= _ <-]|Hin]; auto.
        + intros [Heq|Hin]; [auto|]. destruct (IHm Hin); auto. }
    destruct (JsMap.get (fc_id f) m) as [existing|] eqn:Hget.
    - destruct (Hset _ Hin1) as [->|Hold]; [|exact (Hm _ _ Hold)].
      apply get_In in Hget. exact (Hm _ _ Hget).
    - destruct (Hset _ Hin1) as [->|Hold]; [|exact (Hm _ _ Hold)].
      exists f. split; [apply Hfs; left; reflexivity | auto]. }
  destruct (Hgen (formattedOf sock chats) JsMap.empty) with (k := k) (r := r)
    as [f [Hf [Hid [Horig Hty]]]].
  - intros ? ? [].
  - auto.
  - rewrite <- Hall. exact Hin.
  - destruct (formattedOf_In _ _ _ Hf) as [chat [Hchat Hfc]].
    destruct (formatChat_shape _ _ _ Hfc) as [Hsys Hshape].
    rewrite <- Hid, <- Horig, <- Hty. split; [|split; assumption].
    exists chat. split; [assumption|].
    unfold formatChat in Hfc.
    destruct (orOpt (chat_id chat) (chat_jid chat)) as [chatId|]; [|discriminate].
    destruct (negb (strTruthy (Some chatId))); [discriminate|].
    destruct (isSystemChat chatId); [discriminate|].
    destruct (classify sock chat chatId) as [[[? ?] ?]|]; [|discriminate].
    destruct (lastMessageTimeOf chat); [|discriminate].
    simpl in Hfc. injection Hfc as <-. reflexivity.
Qed.

Lemma reconcile_id_shape_witness :
  let chats := [rawChat "status@broadcast" 1; rawChat "B@lid" 3;
                rawChat "120363000000000001@g.us" 0] in
  match reconcile (fun _ _ => 0) resolvingSock chats with
  | Ok (r :: _) =>
      isSystemChat (fc_originalId r) = false /\
      ((endsWith (fc_id r) "@g.us" = true /\ fc_type r = Group /\
        fc_id r = fc_originalId r) \/
       (endsWith (fc_id r) "@s.whatsapp.net" = true /\ fc_type r = Individual) \/
       (endsWith (fc_id r) "@lid" = true /\ fc_type r = Individual /\
        fc_id r = fc_originalId r))
  | _ => False
  end.
Proof.
  intros chats.
  destruct (reconcile (fun _ _ => 0) resolvingSock chats) as [out|e] eqn:H;
    [|vm_compute in H; discriminate].
  destruct out as [|r out]; [vm_compute in H; discriminate|].
  exact (proj2 (reconcile_id_shape (fun _ _ => 0) resolvingSock chats (r :: out) r H
                  (or_introl eq_refl))).
Defined.

Lemma substring_prefix (a s : string) : substring 0 (String.length a) (a +:+ s) = a.
Proof.
  induction a as [|c a IH]; simpl.
  - destruct s; reflexivity.
  - rewrite IH. reflexivity.
Qed.

Lemma matchLid_digits (d : string) :
  allDigits d = true -> d <> "" -> matchLid (d +:+ "@lid") = Some d.
Proof.
  intros Hd Hne. unfold matchLid.
  rewrite (endsWith_append d "@lid" "@lid") by (simpl; lia).
  change (endsWith "@lid" "@lid") with true. cbn iota.
  rewrite length_append. cbn [String.length].
  replace (String.length d + 4 - 4)%nat with (String.length d) by lia.
  rewrite substring_prefix, Hd.
  replace (String.eqb d "") with false by (symmetry; apply String.eqb_neq; exact Hne).
  reflexivity.
Qed.

Lemma isDigit_not (c c0 : ascii) : isDigit c = true -> isDigit c0 = false -> c0 <> c.
Proof. intros H H0 ->. congruence. Qed.

Lemma includes_digits (d s sub : string) (c0 : ascii) :
  allDigits d = true -> isDigit c0 = false ->
  includes (d +:+ s) (String c0 sub) = includes s (String c0 sub).
Proof.
  intros Hd Hc0. induction d as [|c d IH]; [reflexivity|].
  simpl in Hd. apply andb_true_iff in Hd. destruct Hd as [Hc Hd].
  change (includes (String c (d +:+ s)) (String c0 sub) = includes s (String c0 sub)).
  cbn [includes String.prefix].
  destruct (ascii_dec c0 c) as [->|_]; [congruence|].
  simpl. apply IH. exact Hd.
Qed.

Lemma eqb_digits (d s sub : string) (c0 : ascii) :
  allDigits d = true -> d <> "" -> isDigit c0 = false ->
  String.eqb (d +:+ s) (String c0 sub) = false.
Proof.
  intros Hd Hne Hc0. destruct d as [|c d]; [congruence|].
  simpl in Hd. apply andb_true_iff in Hd. destruct Hd as [Hc _].
  simpl. destruct (Ascii.eqb_spec c c0) as [->|_]; [congruence | reflexivity].
Qed.

Lemma isSystemChat_digits (d s : string) :
  allDigits d = true -> d <> "" -> includes s "broadcast" = false ->
  isSystemChat (d +:+ s) = false.
Proof.
  intros Hd Hne Hs. unfold isSystemChat.
  rewrite (eqb_digits d s "tatus@broadcast" "s") by (assumption || reflexivity).
  rewrite (includes_digits d s "roadcast" "b") by (assumption || reflexivity).
  rewrite (eqb_digits d s "erver@c.us" "s") by (assumption || reflexivity).
  rewrite Hs. reflexivity.
Qed.

Lemma formatChat_lid_digits (sock : Sock) (d : string) (n : Z) :
  allDigits d = true -> d <> "" ->
  (forall c, lookupContact sock (d +:+ "@lid") = Some c ->
             strTruthy (contact_phoneNumber c) = false) ->
  exists name,
    formatChat sock (rawChat (d +:+ "@lid") n)
    = Ok (Some {| fc_id := if ((10 <=? String.length d) && (String.length d <=? 15))%nat
                           then d +:+ "@s.whatsapp.net" else d +:+ "@lid";
                  fc_originalId := d +:+ "@lid";
                  fc_name := name; fc_type := Individual; fc_unreadCount := n;
                  fc_lastMessageTime := None; fc_pinned := false;
                  fc_raw := rawChat (d +:+ "@lid") n |}).
Proof.
  intros Hd Hne Hc. unfold formatChat. cbn [rawChat chat_id chat_jid].
  unfold orOpt. rewrite !(append_truthy d "@lid") by discriminate.
  cbn [negb]. rewrite (isSystemChat_digits d "@lid") by (assumption || reflexivity).
  unfold classify.
  rewrite (endsWith_append_false d "@lid" "@g.us" "s")
    by (try reflexivity; simpl; lia).
  rewrite (endsWith_append_false d "@lid" "@s.whatsapp.net" "t")
    by (try reflexivity; simpl; lia).
  rewrite (endsWith_append d "@lid" "@lid") by (simpl; lia).
  change (endsWith "@lid" "@lid") with true.
  cbn iota. rewrite (matchLid_digits d Hd Hne).
  destruct (lookupContact sock (d +:+ "@lid")) as [c|] eqn:Hl.
  - rewrite (Hc c eq_refl).
    destruct ((10 <=? String.length d) && (String.length d <=? 15))%nat;
      eexists; reflexivity.
  - destruct ((10 <=? String.length d) && (String.length d <=? 15))%nat;
      eexists; reflexivity.
Qed.

(** X18.  An anonymous id that the contact table does not resolve is mapped
    by the shape of its digits alone: with ten to fifteen digits it takes
    the canonical id [<digits>@s.whatsapp.net], so it is merged into the
    phone chat of that number and their unread counts are added; with fewer
    or more digits it keeps its [@lid] id. *)
Theorem unresolved_lid_by_digits (localeCompare : string -> string -> Z) (sock : Sock)
    (d : string) (a b : Z) :
  allDigits d = true -> d <> "" ->
  (forall c, lookupContact sock (d +:+ "@lid") = Some c ->
             strTruthy (contact_phoneNumber c) = false) ->
  (exists f,
     formatChat sock (rawChat (d +:+ "@lid") b) = Ok (Some f) /\
     fc_id f = if ((10 <=? String.length d) && (String.length d <=? 15))%nat
               then d +:+ "@s.whatsapp.net" else d +:+ "@lid") /\
  ((10 <= String.length d <= 15)%nat ->
   exists r,
     reconcile localeCompare sock
       [rawChat (d +:+ "@s.whatsapp.net") a; rawChat (d +:+ "@lid") b] = Ok [r] /\
     fc_id r = d +:+ "@s.whatsapp.net" /\ fc_unreadCount r = a + b).
Proof.
  intros Hd Hne Hc.
  destruct (formatChat_lid_digits sock d b Hd Hne Hc) as [nameB HfB].
  split; [eexists; split; [exact HfB | reflexivity]|].
  intros Hlen.
  destruct (formatChat_phone sock d a) as [nameA HfA].
  { apply isSystemChat_digits; (assumption || reflexivity). }
  replace ((10 <=? String.length d) && (String.length d <=? 15))%nat with true in HfB.
  2:{ symmetry. apply andb_true_iff. split; apply Nat.leb_le; lia. }
  unfold reconcile. rewrite (mergeAll_pair sock _ _ _ _ HfA HfB eq_refl).
  eexists. split; [reflexivity|]. split; reflexivity.
Qed.

Lemma unresolved_lid_by_digits_witness :
  exists r,
    reconcile (fun _ _ => 0) connectedSock
      [rawChat "911234567890@s.whatsapp.net" 2; rawChat "911234567890@lid" 3] = Ok [r] /\
    fc_id r = "911234567890@s.whatsapp.net" /\ fc_unreadCount r = 5.
Proof.
  refine (proj2 (unresolved_lid_by_digits (fun _ _ => 0) connectedSock "911234567890" 2 3
                   eq_refl _ _) _).
  - discriminate.
  - intros c H. discriminate H.
  - simpl. lia.
Defined.

(* ===================================================================== *)
(** ** The contact table of the fallback store *)
(* ===================================================================== *)






Lemma assignContact_empty (c : Contact) : assignContact emptyContact c = c.
Proof.
  destruct c as [a b d e]. unfold assignContact. simpl.
  destruct a, b, d, e; reflexivity.
Qed.

(** X20.  A [contacts.update] event never adds a contact: an id that the
    table does not hold stays absent, whatever the updates say.  A
    [contacts.upsert] event is what adds one: a contact upserted under a new
    id is stored with exactly the fields it carried. *)
Theorem contacts_update_never_adds (updates : list ContactEvent)
    (contacts : gmap string Contact) (id : string) (e : ContactEvent) :
  contacts !! id = None ->
  contactsUpdate updates contacts !! id = None /\
  (ce_id e = id -> contactsUpsert [e] contacts !! id = Some (ce_fields e)).
Proof.
  intros Hnone. split.
  - unfold contactsUpdate. revert contacts Hnone.
    induction updates as [|u updates IH]; intros contacts Hnone; [exact Hnone|].
    simpl. apply IH.
    destruct (contacts !! ce_id u) as [stored|] eqn:Hs; [|exact Hnone].
    rewrite lookup_insert_ne; [exact Hnone | congruence].
  - intros <-. unfold contactsUpsert. simpl.
    rewrite lookup_insert_eq, Hnone. simpl. rewrite assignContact_empty. reflexivity.
Qed.

Lemma contacts_update_never_adds_witness :
  contactsUpdate [nameEvent "B@lid" "Asha"] ∅ !! "B@lid" = None /\
  contactsUpsert [nameEvent "B@lid" "Asha"] ∅ !! "B@lid"
  = Some (ce_fields (nameEvent "B@lid" "Asha")).
Proof.
  destruct (contacts_update_never_adds [nameEvent "B@lid" "Asha"] ∅ "B@lid"
              (nameEvent "B@lid" "Asha") (lookup_empty _)) as [H1 H2].
  exact (conj H1 (H2 eq_refl)).
Defined.

(* ===================================================================== *)
(** ** Group participants *)
(* ===================================================================== *)

Lemma orNull_cases (x : option string) :
  orNull x = None \/ (strTruthy (orNull x) = true /\ orNull x = x).
Proof. unfold orNull. destruct (strTruthy x) eqn:E; auto. Qed.

Lemma getContactName_cases (verifiedName : string -> option string) (sock : Sock)
    (jid : string) :
  getContactName verifiedName sock jid = None \/
  strTruthy (getContactName verifiedName sock jid) = true.
Proof.
  unfold getContactName. destruct (lookupContact sock jid) as [c|]; [|auto].
  destruct (orNull_cases (orOpt (orOpt (orOpt (contact_name c) (contact_notify c))
                                       (contact_pushName c)) (verifiedName jid)))
    as [H|[H _]]; auto.
Qed.

Lemma lastPushName_truthy (messages : list WAMessage) (n : string) :
  lastPushName messages = Some n -> strTruthy (Some n) = true.
Proof.
  unfold lastPushName.
  destruct (find (fun m => strTruthy (msg_pushName m)) (rev messages)) as [m|] eqn:Hf;
    [|discriminate].
  apply find_some in Hf. destruct Hf as [_ Ht]. intros H. rewrite H in Ht. exact Ht.
Qed.

Lemma strTruthy_nonempty (n : string) : strTruthy (Some n) = true -> n <> "".
Proof. unfold strTruthy. intros H ->. discriminate. Qed.

(** X21.  The record built for a group participant carries a name whenever
    a phone number could be read off the participant id, and the name is
    never the empty text: a name found in the contact table under the
    participant id is used as it is, and the last resort is the phone
    number with a plus sign in front. *)
Theorem participant_name_total (verifiedName : string -> option string) (sock : Sock)
    (sessionName : string) (st : State) (participant : Participant) :
  let info := participantInfo verifiedName sock sessionName st participant in
  (pi_name info = None -> strTruthy (pi_phone info) = false) /\
  (forall n, pi_name info = Some n -> n <> "") /\
  (forall n, getContactName verifiedName sock (participant_id participant) = Some n ->
             pi_name info = Some n).
Proof.
  unfold participantInfo. cbn [pi_name pi_phone].
  set (pid := participant_id participant).
  set (phone := participantPhone pid).
  set (phoneJid := match phone with
                   | Some p => p +:+ "@s.whatsapp.net"
                   | None => "null@s.whatsapp.net"
                   end).
  set (name0 := getContactName verifiedName sock pid).
  set (name1 := if negb (strTruthy name0) && includes pid "@lid" && strTruthy phone
                then getContactName verifiedName sock phoneJid else name0).
  assert (H1 : name1 = None \/ strTruthy name1 = true).
  { subst name1. destruct (negb (strTruthy name0) && includes pid "@lid" && strTruthy phone).
    - apply getContactName_cases.
    - apply getContactName_cases. }
  set (name2 := if negb (strTruthy name1) then _ else name1).
  assert (H2 : name2 = None \/ strTruthy name2 = true).
  { subst name2. destruct (strTruthy name1) eqn:E1; simpl; [right; exact E1|].
    destruct H1 as [H1|H1]; [|discriminate].
    destruct (sessionMessages st !! sessionName) as [messageStore|]; [|left; exact H1].
    destruct (lastPushName _) as [n|] eqn:Hl; [|left; exact H1].
    right. exact (lastPushName_truthy _ _ Hl). }
  assert (H01 : forall n, name0 = Some n -> name2 = Some n /\ strTruthy (Some n) = true).
  { intros n Hn.
    assert (Ht : strTruthy name0 = true).
    { destruct (getContactName_cases verifiedName sock pid) as [H|H];
        fold name0 in H; congruence. }
    subst name2 name1. rewrite Ht. simpl. rewrite Ht. simpl.
    rewrite Hn in *. auto. }
  split; [|split].
  - intros Hnone. destruct (strTruthy phone) eqn:Hp; [|reflexivity].
    destruct H2 as [H2|H2].
    + rewrite H2 in Hnone. simpl in Hnone.
      destruct phone; [discriminate | discriminate Hp].
    + rewrite H2 in Hnone. simpl in Hnone. rewrite Hnone in H2. discriminate.
  - intros n Hn. destruct H2 as [H2|H2].
    + rewrite H2 in Hn. simpl in Hn.
      destruct (strTruthy phone); [|discriminate].
      destruct phone as [p|]; [|discriminate]. injection Hn as <-. discriminate.
    + rewrite H2 in Hn. simpl in Hn. rewrite Hn in H2.
      exact (strTruthy_nonempty _ H2).
  - intros n Hn. destruct (H01 n Hn) as [E Ht]. rewrite E, Ht. reflexivity.
Qed.

(* ===================================================================== *)
(** ** Sending *)
(* ===================================================================== *)

Lemma allDigits_digitsOnly (s : string) : allDigits (digitsOnly s) = true.
Proof.
  induction s as [|c s IH]; [reflexivity|]. simpl.
  destruct (isDigit c) eqn:E; [simpl; rewrite E; exact IH | exact IH].
Qed.

Lemma removeFirst_digits (pat d : string) (c0 : ascii) :
  allDigits d = true -> isDigit c0 = false ->
  removeFirst (String c0 pat) d = d.
Proof.
  intros Hd Hc0. induction d as [|c d IH]; [reflexivity|].
  simpl in Hd. apply andb_true_iff in Hd. destruct Hd as [Hc Hd].
  cbn [removeFirst String.prefix].
  destruct (ascii_dec c0 c) as [->|_]; [congruence|].
  f_equal. apply IH. exact Hd.
Qed.

Lemma phoneTarget_shape (phone : option string) (cleanPhone jid : string) :
  phoneTarget phone = TargetPhone cleanPhone jid ->
  exists p, phone = Some p /\ cleanPhone = digitsOnly p /\
            jid = cleanPhone +:+ "@s.whatsapp.net" /\
            (10 <= String.length cleanPhone <= 15)%nat.
Proof.
  unfold phoneTarget. destruct phone as [p|]; [|discriminate].
  destruct (strTruthy (Some p)); [|discriminate].
  rewrite (removeFirst_digits "s.whatsapp.net" (digitsOnly p) "@")
    by (apply allDigits_digitsOnly || reflexivity).
  destruct (Nat.ltb_spec (String.length (digitsOnly p)) 10);
    destruct (Nat.ltb_spec 15 (String.length (digitsOnly p))); simpl; try discriminate.
  intros [= <- <-]. exists p. repeat split; lia.
Qed.

Lemma deliver_calls (send : string -> string -> SendResult) (jid message : string) :
  send_calls (deliver send jid message) = [(jid, message)] /\
  (send_status (deliver send jid message) = 500 \/
   send_status (deliver send jid message) = 200 /\
   exists msgId, send_body (deliver send jid message) = Sent msgId jid).
Proof.
  unfold deliver. destruct (send jid message) as [e|[sent|]]; simpl; auto.
  destruct (msg_key sent) as [key|]; simpl; eauto.
Qed.

(** X22.  A message addressed by phone number is only ever sent to a jid
    made of the digits of that number, ten to fifteen of them, followed by
    [@s.whatsapp.net]; the other characters of the number are dropped, and
    the text sent is the request's message. *)
Theorem send_by_phone_target (onWhatsApp : string -> VerifyResult)
    (send : string -> string -> SendResult) (sessionName : string)
    (r : SendRequest) (st : State) (jid text : string) :
  directTarget r = None ->
  req_isGroup r && strTruthy (req_chatId r) = false ->
  In (jid, text) (send_calls (sendMessage onWhatsApp send sessionName r st)) ->
  exists phone,
    req_phone r = Some phone /\
    jid = digitsOnly phone +:+ "@s.whatsapp.net" /\
    allDigits (digitsOnly phone) = true /\
    (10 <= String.length (digitsOnly phone) <= 15)%nat /\
    req_message r = Some text.
Proof.
  intros Hdirect Hgroup. unfold sendMessage.
  destruct (connected st sessionName); [|intros []].
  destruct (req_message r) as [message|]; [|intros []].
  destruct (strTruthy (Some message)); [|intros []].
  assert (Htarget : sendTarget r = phoneTarget (req_phone r)).
  { unfold sendTarget. rewrite Hdirect.
    destruct (req_chatId r) as [chatId|]; [|reflexivity].
    rewrite Hgroup. reflexivity. }
  rewrite Htarget.
  destruct (phoneTarget (req_phone r)) as [j|cleanPhone j|n|] eqn:Hp;
    try (intros []).
  - unfold phoneTarget in Hp. destruct (req_phone r) as [p|]; [|discriminate].
    destruct (strTruthy (Some p)); [|discriminate].
    destruct (_ || _)%nat; discriminate.
  - destruct (phoneTarget_shape _ _ _ Hp) as [p [Hphone [Hclean [Hjid Hlen]]]].
    intros Hin.
    assert (Hcall : (jid, text) = (j, message)).
    { destruct (onWhatsApp j) as [|[|]]; try (destruct Hin as []);
        destruct (deliver_calls send j message) as [Hc _]; rewrite Hc in Hin;
        destruct Hin as [Heq|[]]; congruence. }
    injection Hcall as -> ->. subst cleanPhone. exists p.
    repeat split; try assumption; try lia. apply allDigits_digitsOnly.
Qed.

Lemma send_by_phone_target_witness :
  exists phone,
    req_phone (phoneRequest "+91 12345-67890" "hello") = Some phone /\
    "911234567890@s.whatsapp.net" = digitsOnly phone +:+ "@s.whatsapp.net" /\
    allDigits (digitsOnly phone) = true /\
    (10 <= String.length (digitsOnly phone) <= 15)%nat /\
    req_message (phoneRequest "+91 12345-67890" "hello") = Some "hello".
Proof.
  apply (send_by_phone_target (fun _ => VerifyRejects) (sendsWithId "3EB0")
           "main" (phoneRequest "+91 12345-67890" "hello") sampleState
           "911234567890@s.whatsapp.net" "hello"); try reflexivity.
  left. reflexivity.
Defined.



(* ===================================================================== *)
(** ** Size and side effects of a message request *)
(* ===================================================================== *)

(** X24.  When the retrieval succeeds with [n] formatted messages, the
    response carries [min(n, 20, max(5, limit))] of them, [limit] being the
    requested limit (20 when it is missing, zero or not a number): a limit
    below 5, negative ones included, still yields 5 messages when there are
    as many, and no limit yields more than 20.  The [total] of the body is
    that count. *)
Theorem response_count (sessionName jid : string) (parsedLimit : JsNum)
    (now : Z) (load : LoadResult) (st : State) (sock : Sock)
    (messages : list (option WAMessage)) (formatted : list FormattedMessage)
    (st' : State) (fetches : list (string * Z)) :
  connected st sessionName = Some sock ->
  retrieve sock sessionName jid (requestedLimitOf parsedLimit) now load st
  = (Ok (messages, formatted), st', fetches) ->
  exists b,
    body (response (getMessages sessionName jid parsedLimit now load st))
    = MessagesResult b /\
    Z.of_nat (length (mb_messages b))
    = Z.min (Z.of_nat (length formatted))
            (Z.min 20 (Z.max 5 (requestedLimitOf parsedLimit))) /\
    mb_total b = length (mb_messages b).
Proof.
  intros Hc Hr. unfold getMessages. rewrite Hc, Hr. simpl.
  eexists. split; [reflexivity|]. simpl. split; [|reflexivity].
  unfold finalMessages, sliceTo.
  rewrite length_rev, length_firstn, jsSort_length.
  unfold finalLimit, minMessages. lia.
Qed.

Lemma response_count_witness :
  exists b,
    body (response (getMessages "main" sampleJid (Num 1) sampleNow (LoadResolves None)
                      fullState))
    = MessagesResult b /\
    Z.of_nat (length (mb_messages b)) = 5 /\
    mb_total b = length (mb_messages b).
Proof.
  destruct (retrieve connectedSock "main" sampleJid (requestedLimitOf (Num 1)) sampleNow
              (LoadResolves None) fullState) as [[[[messages formatted]|e] st'] fetches]
    eqn:Hr; [|vm_compute in Hr; discriminate].
  destruct (response_count "main" sampleJid (Num 1) sampleNow (LoadResolves None)
              fullState connectedSock messages formatted st' fetches eq_refl Hr)
    as [b [Hb [Hlen Htotal]]].
  exists b. split; [exact Hb|]. split; [|exact Htotal].
  rewrite Hlen.
  assert (Hn : length formatted = 5%nat).
  { vm_compute in Hr. injection Hr as _ <- _ _. reflexivity. }
  rewrite Hn. reflexivity.
Defined.

Lemma getMessagesForChat_frame (sessionName jid : string) (minCount : Z)
    (st st' : State) (found : list WAMessage) :
  getMessagesForChat sessionName jid minCount st = Ok (found, st') ->
  sockets st' = sockets st /\ qrCodes st' = qrCodes st /\ timers st' = timers st /\
  sessionChats st' = sessionChats st /\
  forall other, other <> sessionName ->
    sessionMessages st' !! other = sessionMessages st !! other.
Proof.
  unfold getMessagesForChat.
  destruct (sessionMessages st !! sessionName) as [messageMap|];
    [|intros [= _ <-]; auto 6].
  destruct (locateMessages jid messageMap) as [[storedJid|]|e]; simpl;
    [|intros [= _ <-]; auto 6 | discriminate].
  destruct (chatArray storedJid messageMap) as [|a l]; [intros [= _ <-]; auto 6|].
  intros [= _ <-]. simpl. repeat split.
  intros other Hne. apply lookup_insert_ne. congruence.
Qed.

Lemma rawFallback_frame (sessionName jid : string) (st : State) :
  let st' := snd (rawFallback sessionName jid st) in
  sockets st' = sockets st /\ qrCodes st' = qrCodes st /\ timers st' = timers st /\
  forall other, other <> sessionName ->
    sessionMessages st' !! other = sessionMessages st !! other /\
    sessionChats st' !! other = sessionChats st !! other.
Proof.
  unfold rawFallback.
  destruct (sessionChats st !! sessionName) as [chatMap|]; [|simpl; auto 6].
  destruct (JsMap.get jid chatMap) as [chat|]; [|simpl; auto 6].
  destruct (embeddedMessages chat) as [|w ws]; [simpl; auto 6|].
  destruct (extractRaw (w :: ws)) as [[messages ws'] err].
  destruct err as [e|]; simpl; repeat split; try reflexivity;
    rewrite ?lookup_insert_ne by congruence; reflexivity.
Qed.

(** X25.  A request to the message route writes only the two caches of its
    own session: the sockets, the pairing codes and the timers are left as
    they are, and so are the chat directory and the message ledger of every
    other session. *)
Theorem get_messages_writes_own_caches (sessionName jid : string) (parsedLimit : JsNum)
    (now : Z) (load : LoadResult) (st : State) :
  let st' := after (getMessages sessionName jid parsedLimit now load st) in
  sockets st' = sockets st /\ qrCodes st' = qrCodes st /\ timers st' = timers st /\
  forall other, other <> sessionName ->
    sessionMessages st' !! other = sessionMessages st !! other /\
    sessionChats st' !! other = sessionChats st !! other.
Proof.
  unfold getMessages.
  destruct (connected st sessionName) as [sock|]; [|simpl; auto 6].
  assert (Hr : let st' := snd (fst (retrieve sock sessionName jid
                                      (requestedLimitOf parsedLimit) now load st)) in
               sockets st' = sockets st /\ qrCodes st' = qrCodes st /\
               timers st' = timers st /\
               forall other, other <> sessionName ->
                 sessionMessages st' !! other = sessionMessages st !! other /\
                 sessionChats st' !! other = sessionChats st !! other).
  { unfold retrieve.
    destruct (getMessagesForChat sessionName jid
                (Z.max minMessages (requestedLimitOf parsedLimit)) st)
      as [[found st1]|e] eqn:Hg; [|simpl; auto 6].
    destruct (getMessagesForChat_frame _ _ _ _ _ _ Hg) as [Hs1 [Hq1 [Ht1 [Hc1 Hm1]]]].
    assert (H2 : let st2 := snd match found with
                                | [] => rawFallback sessionName jid st1
                                | _ :: _ => (Ok found, st1)
                                end in
                 sockets st2 = sockets st /\ qrCodes st2 = qrCodes st /\
                 timers st2 = timers st /\
                 forall other, other <> sessionName ->
                   sessionMessages st2 !! other = sessionMessages st !! other /\
                   sessionChats st2 !! other = sessionChats st !! other).
    { destruct found.
      - destruct (rawFallback_frame sessionName jid st1) as [Hs2 [Hq2 [Ht2 Ho2]]].
        cbv zeta. rewrite Hs2, Hq2, Ht2. repeat split; try assumption;
          destruct (Ho2 other H) as [Ha Hb]; rewrite ?Ha, ?Hb, ?Hc1; auto.
      - simpl. repeat split; try assumption; rewrite ?Hc1; auto. }
    destruct (match found with [] => _ | _ :: _ => _ end) as [r st2].
    cbv zeta in H2. simpl in H2. destruct r as [messages1|e]; [|exact H2].
    set (messages2 := match messages1 with [] => _ | _ :: _ => _ end).
    assert (H3 : snd (fst
              match messages2 with
              | [] =>
                  let '(loaded, st') := liveFetch sessionName jid load st2 in
                  (loaded, st', [(jid, smallLimit)])
              | _ :: _ => (map Some messages2, st2, [])
              end) = st2).
    { destruct messages2; [|reflexivity].
      pose proof (liveFetch_state sessionName jid load st2) as Hl.
      destruct (liveFetch sessionName jid load st2) as [loaded st']. exact Hl. }
    destruct (match messages2 with [] => _ | _ :: _ => _ end) as [[messages3 st3] fetches].
    simpl in H3. subst st3. destruct (formatAll now jid messages3); exact H2. }
  destruct (retrieve sock sessionName jid (requestedLimitOf parsedLimit) now load st)
    as [[[[messages formatted]|e] st'] fetches]; exact Hr.
Qed.

(* ===================================================================== *)
(** ** The chat directory under the upsert listener *)
(* ===================================================================== *)

Lemma upsertMessage_directory (sessionName chatId : string) (st : State)
    (m : WAMessage) (chat : Chat) :
  JsMap.get chatId (sessionDirectory sessionName st) = Some chat ->
  JsMap.get chatId (sessionDirectory sessionName (upsertMessage sessionName st m))
  = Some chat.
Proof.
  intros Hget. unfold upsertMessage.
  destruct (msg_key m) as [k|]; [|exact Hget].
  destruct (key_remoteJid k) as [j|]; [|exact Hget].
  destruct (strTruthy (Some j)); [|exact Hget].
  rewrite sessionDirectory_insert.
  change (sessionDirectory sessionName
            (setSessionMessages st
               (<[sessionName := storeUpsert (sessionLedger sessionName st) j m]>
                  (sessionMessages st))))
    with (sessionDirectory sessionName st).
  destruct (JsMap.has j (sessionDirectory sessionName st)) eqn:Hhas; [exact Hget|].
  rewrite get_set_ne; [exact Hget|].
  intros ->. unfold JsMap.has in Hhas. rewrite Hget in Hhas. discriminate.
Qed.

(** X26.  The upsert listener never changes a directory entry that exists:
    whatever messages arrive, a chat keeps the object that a history
    delivery or a [chats.update] event stored for it, with its name and its
    unread count.  A chat that is new to the directory gets a basic entry
    named by the part of its id before the at sign. *)
Theorem upsert_keeps_directory_entries (sessionName chatId : string)
    (messages : list WAMessage) (st : State) :
  (forall chat,
     JsMap.get chatId (sessionDirectory sessionName st) = Some chat ->
     JsMap.get chatId (sessionDirectory sessionName
                         (onMessagesUpsert sessionName messages st)) = Some chat) /\
  (forall m k,
     JsMap.get chatId (sessionDirectory sessionName st) = None ->
     msg_key m = Some k -> key_remoteJid k = Some chatId -> chatId <> "" ->
     JsMap.get chatId (sessionDirectory sessionName
                         (onMessagesUpsert sessionName (m :: messages) st))
     = Some (basicChat chatId m)).
Proof.
  assert (Hkeep : forall msgs s chat,
            JsMap.get chatId (sessionDirectory sessionName s) = Some chat ->
            JsMap.get chatId (sessionDirectory sessionName
                                (onMessagesUpsert sessionName msgs s)) = Some chat).
  { unfold onMessagesUpsert. induction msgs as [|m msgs IH]; intros s chat Hget;
      [exact Hget|].
    simpl. apply IH. apply upsertMessage_directory. exact Hget. }
  split; [intros chat; apply Hkeep|].
  intros m k Hnone Hk Hj Hne.
  change (onMessagesUpsert sessionName (m :: messages) st)
    with (onMessagesUpsert sessionName messages (upsertMessage sessionName st m)).
  apply Hkeep. unfold upsertMessage. rewrite Hk, Hj.
  replace (strTruthy (Some chatId)) with true
    by (symmetry; apply negb_true_iff, String.eqb_neq; assumption).
  rewrite sessionDirectory_insert.
  change (sessionDirectory sessionName
            (setSessionMessages st
               (<[sessionName := storeUpsert (sessionLedger sessionName st) chatId m]>
                  (sessionMessages st))))
    with (sessionDirectory sessionName st).
  unfold JsMap.has. rewrite Hnone. apply get_set_eq.
Qed.

(* ===================================================================== *)
(** ** The two copies of the reader's sort *)
(* ===================================================================== *)

Lemma parseInt_decimal (s : string) :
  decimalString s = true -> parseInt s = Num (decimalValue s).
Proof.
  unfold decimalString. intros H.
  apply andb_true_iff in H. destruct H as [H _].
  apply andb_true_iff in H. destruct H as [Hne Hall].
  destruct s as [|c s]; [discriminate|]. simpl in Hall.
  apply andb_true_iff in Hall. destruct Hall as [Hc Hs].
  unfold parseInt. cbn [dropWhite]. rewrite (isDigit_not_white c Hc).
  rewrite (isDigit_not_sign c s Hc).
  cbn [readDigits]. rewrite Hc. cbn [orZero].
  rewrite (readDigits_all s _ Hs). reflexivity.
Qed.

Lemma tsOf_simple (m : WAMessage) : simpleTs m = true -> ServerCopy.tsOf m = getTs m.
Proof.
  unfold simpleTs, ServerCopy.tsOf, getTs.
  destruct (msg_messageTimestamp m) as [|n|s|z]; [discriminate| | |reflexivity].
  - intros H. simpl. rewrite H. reflexivity.
  - intros H. rewrite (parseInt_decimal s H). simpl.
    rewrite (StringToNumber_decimal s H).
    replace (negb (String.eqb s "")) with true; [reflexivity|].
    unfold decimalString in H. apply andb_true_iff in H. destruct H as [H _].
    apply andb_true_iff in H. destruct H as [H _]. symmetry. exact H.
Qed.

Section SortExt.
Context {A : Type} (cmp1 cmp2 : A -> A -> JsNum) (P : A -> Prop).
Hypothesis cmp_agree : forall x y, P x -> P y -> cmp1 x y = cmp2 x y.

Lemma insertSorted_ext (x : A) (l : list A) :
  P x -> Forall P l -> insertSorted cmp1 x l = insertSorted cmp2 x l.
Proof using cmp_agree.
  intros Hx Hl. induction Hl as [|e l He Hl IH]; [reflexivity|].
  simpl. rewrite (cmp_agree x e Hx He), IH. reflexivity.
Qed.

Lemma fold_insert_ext (l acc : list A) :
  Forall P l -> Forall P acc ->
  fold_left (fun a x => insertSorted cmp1 x a) l acc
  = fold_left (fun a x => insertSorted cmp2 x a) l acc.
Proof using cmp_agree.
  intros Hl. revert acc. induction Hl as [|x l Hx Hl IH]; intros acc Hacc;
    [reflexivity|].
  simpl. rewrite (insertSorted_ext x acc Hx Hacc). apply IH.
  eapply Permutation_Forall; [symmetry; apply insertSorted_perm|].
  constructor; assumption.
Qed.

Lemma jsSort_ext (l : list A) : Forall P l -> jsSort cmp1 l = jsSort cmp2 l.
Proof using cmp_agree.
  intros Hl. unfold jsSort. apply fold_insert_ext; [assumption | constructor].
Qed.
End SortExt.

(** X27.  The two copies of the reader sort an array the same way when
    every timestamp is a number other than 0, a [Long], or seconds written
    in decimal.  They part on text that only starts with digits: the second
    copy reads the leading digits where the first reads NaN. *)
Theorem copies_sort_alike (l : list WAMessage) (jid msgId : string) (fromMe : bool) :
  (Forall (fun m => simpleTs m = true) l ->
   jsSort ServerCopy.compareTs l = jsSort compareTs l) /\
  ServerCopy.tsOf (plainMessage jid msgId fromMe (TsString "12abc")) = Num 12 /\
  getTs (plainMessage jid msgId fromMe (TsString "12abc")) = NaN.
Proof.
  split; [|split; reflexivity].
  apply (jsSort_ext ServerCopy.compareTs compareTs (fun m => simpleTs m = true)).
  intros x y Hx Hy. unfold ServerCopy.compareTs, compareTs.
  rewrite (tsOf_simple x Hx), (tsOf_simple y Hy). reflexivity.
Qed.

(* ===================================================================== *)
(** ** Listener, reader and reconnect together *)
(* ===================================================================== *)

Lemma sessionLedger_get (sessionName jid : string) (st : State) (l : list WAMessage) :
  JsMap.get jid (sessionLedger sessionName st) = Some l ->
  exists messageMap : JsMap.t (list WAMessage),
    sessionMessages st !! sessionName = Some messageMap /\
    JsMap.get jid messageMap = Some l.
Proof.
  unfold sessionLedger.
  destruct (sessionMessages st !! sessionName) as [messageMap|]; simpl;
    [eauto | discriminate].
Qed.

(** X28.  A message that the upsert listener has stored is returned by the
    next read of its chat that asks for at least as many messages as the
    chat's array holds. *)
Theorem upsert_then_read (sessionName chatId : string) (minCount : Z) (st : State)
    (m : WAMessage) (k : MessageKey) :
  msg_key m = Some k -> key_remoteJid k = Some chatId -> chatId <> "" ->
  idExists (chatArray chatId (sessionLedger sessionName st)) (key_id k) = false ->
  let st1 := upsertMessage sessionName st m in
  Z.of_nat (length (chatArray chatId (sessionLedger sessionName st1))) <= minCount ->
  exists found st2,
    getMessagesForChat sessionName chatId minCount st1 = Ok (found, st2) /\
    In m found /\
    Permutation found (chatArray chatId (sessionLedger sessionName st1)).
Proof.
  intros Hk Hj Hne Hfresh st1 Hcount.
  pose proof (upsertMessage_get sessionName chatId st m k Hk Hj Hne) as Hget.
  fold st1 in Hget.
  assert (Hid : keyId m = key_id k) by (unfold keyId; rewrite Hk; reflexivity).
  assert (Harr : chatArray chatId (sessionLedger sessionName st1)
                 = pushCapped (chatArray chatId (sessionLedger sessionName st)) m).
  { unfold chatArray at 1. rewrite Hget.
    rewrite appendVia_fresh by (simpl; rewrite Hid; exact Hfresh). reflexivity. }
  clearbody st1.
  remember (chatArray chatId (sessionLedger sessionName st1)) as arr eqn:Earr.
  assert (Hin : In m arr).
  { rewrite Harr.
    destruct (pushCapped_snoc (chatArray chatId (sessionLedger sessionName st)) m)
      as [-> | ->]; apply in_or_app; right; left; reflexivity. }
  assert (Hget' : JsMap.get chatId (sessionLedger sessionName st1) = Some arr).
  { rewrite Hget. rewrite Earr. unfold chatArray. rewrite Hget. reflexivity. }
  apply sessionLedger_get in Hget'. destruct Hget' as [messageMap [Hmap Hget']].
  assert (Hread : getMessagesForChat sessionName chatId minCount st1
                  = Ok (jsSort compareTs arr,
                        setSessionMessages st1
                          (<[sessionName := JsMap.set chatId (jsSort compareTs arr) messageMap]>
                             (sessionMessages st1)))).
  { unfold getMessagesForChat. rewrite Hmap. unfold locateMessages. rewrite Hget'.
    destruct arr as [|a arr']; [contradiction|].
    cbn [mbind Result_bind]. unfold chatArray. rewrite Hget'.
    f_equal. f_equal. unfold sliceFrom.
    match goal with
    | |- skipn ?n _ = _ => replace n with 0%nat by lia
    end.
    apply drop_0. }
  eexists. eexists. split; [exact Hread|]. split.
  - eapply Permutation_in; [symmetry; apply jsSort_perm | exact Hin].
  - apply jsSort_perm.
Qed.

Lemma upsert_then_read_witness :
  exists found st2,
    getMessagesForChat "main" sampleJid 10 (upsertMessage "main" sampleState embedded2)
    = Ok (found, st2) /\
    In embedded2 found.
Proof.
  destruct (upsert_then_read "main" sampleJid 10 sampleState embedded2
              {| key_remoteJid := Some sampleJid; key_id := Some "EMB2";
                 key_fromMe := true |} eq_refl eq_refl)
    as [found [st2 [H1 [H2 _]]]].
  - discriminate.
  - reflexivity.
  - vm_compute. discriminate.
  - exists found, st2. exact (conj H1 H2).
Defined.

Section Reconnect.
Variable loggedOut : Z.
Variable qrBase64 : string -> Result string.

(** X29.  A disconnect followed by a reconnect keeps the messages of the
    session and forgets its unread counts: once the socket is open again
    the message route answers for every chat with the unread count 0, until
    a history delivery or a [chats.update] event fills the directory again,
    while the ledger still holds what it held before the disconnect. *)
Theorem reconnect_forgets_unread (sessionName jid userId : string) (oldSock sock : Sock)
    (closing : ConnectionUpdate) (parsedLimit : JsNum) (now : Z) (load : LoadResult)
    (st : State) :
  connection closing = Some Close ->
  sock_user sock = Some userId ->
  let st1 := onConnectionUpdate loggedOut qrBase64 sessionName oldSock closing st in
  let st2 := onConnectionUpdate loggedOut qrBase64 sessionName sock reopened st1 in
  sessionLedger sessionName st2 = sessionLedger sessionName st /\
  exists b,
    body (response (getMessages sessionName jid parsedLimit now load st2))
    = MessagesResult b /\
    mb_unreadCount b = 0.
Proof.
  intros Hclose Huser st1 st2.
  assert (Hm : sessionMessages st2 = sessionMessages st).
  { subst st2 st1. rewrite !onConnectionUpdate_ledger. reflexivity. }
  assert (Hc : sessionChats st2 !! sessionName = None).
  { subst st2 st1. unfold onConnectionUpdate at 1. simpl.
    unfold onConnectionUpdate. rewrite Hclose.
    destruct (storeQr_frame qrBase64 sessionName closing st) as [_ [_ _]].
    unfold onClose.
    destruct (shouldReconnect loggedOut (statusCode closing)); simpl;
      apply lookup_delete_eq. }
  assert (Hs : connected st2 sessionName = Some sock).
  { subst st2. unfold connected, onConnectionUpdate at 1. simpl.
    rewrite lookup_insert_eq, Huser. reflexivity. }
  split; [unfold sessionLedger; rewrite Hm; reflexivity|].
  unfold getMessages. rewrite Hs, Hc.
  destruct (retrieve sock sessionName jid (requestedLimitOf parsedLimit) now load st2)
    as [[[[messages formatted]|e] st'] fetches]; simpl; eexists; split; reflexivity.
Qed.
End Reconnect.

Lemma reconnect_forgets_unread_witness :
  let render := fun _ : string => Ok "iVBORw0KGgo" in
  let st1 := onConnectionUpdate 401 render "main" connectedSock
               (closeUpdate (Some 428)) sampleState in
  let st2 := onConnectionUpdate 401 render "main" pairedSock reopened st1 in
  sessionLedger "main" st2 = sessionLedger "main" sampleState /\
  exists b,
    body (response (getMessages "main" sampleJid (Num 10) sampleNow (LoadResolves None) st2))
    = MessagesResult b /\
    mb_unreadCount b = 0.
Proof.
  exact (reconnect_forgets_unread 401 (fun _ : string => Ok "iVBORw0KGgo") "main"
           sampleJid "911234567890:12@s.whatsapp.net" connectedSock pairedSock
           (closeUpdate (Some 428)) (Num 10) sampleNow (LoadResolves None) sampleState
           eq_refl eq_refl).
Defined.

(* ===================================================================== *)
(** ** Starting a session *)
(* ===================================================================== *)



